(** * Polynote frontend: notebook state, update algebra and version reconciliation

    A shallow embedding of [polynote-frontend/polynote/state/notebook_state.ts]
    (the notebook state handler and the update handler) and of the update
    algebra that follows it in the same source file ([RemoveKey], [UpdateKey],
    [RemoveValue], [InsertValue], [MoveArrayValue], [RenameKey], [Destroy],
    [SetValue], [EditString], [UpdateWith]).

    Conventions.
    - A JavaScript [number] that the code uses as an index, an id or a version
      is an integer of [Z]; non-integral numbers, NaN and the loss of
      precision beyond 2^53 are outside the model.
    - Code that mutates its receiver in place is written in state-passing
      style: a function returns the receiver as it is after the call, next
      to what the call returned or threw.
    - Getters that the source evaluates lazily (the [fieldUpdates] of the
      array updates) are evaluated when the result is built.
    - What the runtime and other modules supply is a parameter: the
      prototypes that the [in] operator consults, the content edits, the
      types of the notebook data, and the equality that [deepEquals]
      decides. *)

From stdpp Require Import base gmap list strings pretty sorting.

Set Warnings "-register-all".
Local Open Scope Z_scope.

(** ** JavaScript values *)

Module Js.

(** Property keys: TypeScript's [keyof S] is a string for a record and a
    number for an array or a [Record<number, _>]. *)
Inductive PropertyKey :=
| StrKey (s : string)
| NumKey (n : Z).

#[global] Instance PropertyKey_eq_dec : EqDecision PropertyKey.
Proof. solve_decision. Defined.

#[global] Instance PropertyKey_countable : Countable PropertyKey.
Proof.
  refine (inj_countable'
            (fun k => match k with StrKey s => inl s | NumKey n => inr n end)
            (fun x => match x with inl s => StrKey s | inr n => NumKey n end) _).
  by intros [].
Defined.

(** Identity of a heap object ([===] on arrays and objects compares it). *)
Definition ref := positive.

(** State values.  An array or an object carries the identity of the heap
    object it denotes next to its current contents, so that a value mutated
    in place keeps its identity.  Arrays have their indexed elements only (no
    holes, no named properties); state trees do not share sub-objects. *)
Inductive jsval :=
| VUndefined
| VNull
| VBool (b : bool)
| VNum (n : Z)
| VStr (s : string)
| VArr (r : ref) (elems : list jsval)
| VObj (r : ref) (fields : gmap PropertyKey jsval).

(** [a === b] *)
Definition strict_eq (a b : jsval) : bool :=
  match a, b with
  | VUndefined, VUndefined => true
  | VNull, VNull => true
  | VBool x, VBool y => bool_decide (x = y)
  | VNum x, VNum y => bool_decide (x = y)
  | VStr x, VStr y => bool_decide (x = y)
  | VArr r _, VArr r' _ => bool_decide (r = r')
  | VObj r _, VObj r' _ => bool_decide (r = r')
  | _, _ => false
  end.

(** [typeof v === 'object'] (true of [null] as well) *)
Definition typeof_object (v : jsval) : bool :=
  match v with
  | VNull | VArr _ _ | VObj _ _ => true
  | _ => false
  end.

(** Truthiness, as tested by [if (v)] and [v || w]. *)
Definition truthy (v : jsval) : bool :=
  match v with
  | VUndefined | VNull => false
  | VBool b => b
  | VNum n => negb (bool_decide (n = 0))
  | VStr s => negb (bool_decide (s = ""%string))
  | VArr _ _ | VObj _ _ => true
  end.

(** What a call can throw. *)
Inductive exn :=
| Error (msg : string)
| TypeError.

(** How a call completes. *)
Inductive completion (A : Type) :=
| Returned (a : A)
| Thrown (e : exn).
Arguments Returned {A} a.
Arguments Thrown {A} e.

(** *** Arrays *)

Definition len (arr : list jsval) : Z := Z.of_nat (length arr).

(** [arr[i]]: [undefined] outside the array. *)
Definition index (arr : list jsval) (i : Z) : jsval :=
  if bool_decide (0 <= i) then default VUndefined (arr !! Z.to_nat i) else VUndefined.

(** Where [Array.prototype.splice] starts: a negative [start] counts from the
    end, and the result is clamped to the array. *)
Definition splice_start (length start : Z) : Z :=
  if bool_decide (start < 0) then Z.max (length + start) 0 else Z.min start length.

(** [arr.splice(start, deleteCount, ...items)]: the removed elements and the
    array as it is afterwards. *)
Definition splice (arr : list jsval) (start deleteCount : Z) (items : list jsval)
  : list jsval * list jsval :=
  let s := splice_start (len arr) start in
  let dc := Z.min (Z.max deleteCount 0) (len arr - s) in
  (take (Z.to_nat dc) (drop (Z.to_nat s) arr),
   take (Z.to_nat s) arr ++ items ++ drop (Z.to_nat (s + dc)) arr).

(** [arr.push(v)] *)
Definition push (arr : list jsval) (v : jsval) : list jsval := arr ++ [v].

(** [arr[i] = x] for [0 <= i]: an assignment past the end extends the array. *)
Definition store (arr : list jsval) (i : nat) (x : jsval) : list jsval :=
  if bool_decide (i < length arr)%nat then <[i:=x]> arr
  else arr ++ replicate (i - length arr) VUndefined ++ [x].

End Js.
Export Js.

(** ** Collaborators that are declared outside the embedded source *)

(** [ContentEdit] comes from [data/content_edit]; the algebra only calls its
    [apply] method on a string. *)
Class ContentEdits := {
  ContentEdit : Type;
  content_edit_apply : ContentEdit -> string -> string
}.

(** The prototypes come with the runtime: what a plain object finds under a
    key on [Object.prototype], and an array on [Array.prototype] (built-in
    methods such as [toString] and [push], which no state holds as data). *)
Class Prototypes := {
  Object_prototype : PropertyKey -> option jsval;
  Array_prototype : PropertyKey -> option jsval
}.

(** ** The update algebra *)

Module Algebra.
Section Algebra.
Context `{ContentEdits} `{Prototypes}.

(** The classes that extend [Update], with the fields their constructors
    store, and the frozen [NoUpdate] object.  [UpdateWith] keeps an
    [UpdateOf<S>]: a dictionary of updates per key, listed in enumeration
    order, or a value given directly. *)
Inductive Update :=
| NoUpdate
| RemoveKey (key : PropertyKey) (_value : jsval)
| UpdateKey (key : PropertyKey) (_update : Update)
| RemoveValue (value : jsval) (_index : Z)
| InsertValue (value : jsval) (_targetIndex : option Z)
| MoveArrayValue (fromIndex toIndex : Z)
| RenameKey (oldKey newKey : PropertyKey)
| Destroy
| SetValue (value : jsval)
| EditString (edits : list ContentEdit)
| UpdateWith (fieldUpdates : UpdateOf) (_removedValues : gmap PropertyKey jsval)
with UpdateOf :=
| Partial (updates : list (PropertyKey * Update))
| Direct (updates : jsval).

(** [UpdateResult<S>].  An absent [oldValue] reads as [undefined]; the
    three dictionaries are optional.  [fieldUpdates] is a plain dictionary
    or one of the two proxies of the source. *)
Inductive UpdateResult :=
| mkUpdateResult (update : Update) (newValue oldValue : jsval)
    (removedValues addedValues : option (gmap PropertyKey jsval))
    (fieldUpdates : option FieldUpdates)
with FieldUpdates :=
| FieldDict (d : gmap PropertyKey UpdateResult)
| AllDestroyedUpdates
| ArrayFieldUpdates (arr : list jsval) (minIdx maxIdx indexShift : Z).

Definition update (r : UpdateResult) : Update :=
  let 'mkUpdateResult u _ _ _ _ _ := r in u.
Definition newValue (r : UpdateResult) : jsval :=
  let 'mkUpdateResult _ v _ _ _ _ := r in v.
Definition oldValue (r : UpdateResult) : jsval :=
  let 'mkUpdateResult _ _ v _ _ _ := r in v.
Definition removedValues (r : UpdateResult) : option (gmap PropertyKey jsval) :=
  let 'mkUpdateResult _ _ _ d _ _ := r in d.
Definition addedValues (r : UpdateResult) : option (gmap PropertyKey jsval) :=
  let 'mkUpdateResult _ _ _ _ d _ := r in d.
Definition fieldUpdates (r : UpdateResult) : option FieldUpdates :=
  let 'mkUpdateResult _ _ _ _ _ fu := r in fu.

Definition is_NoUpdate (u : Update) : bool :=
  match u with NoUpdate => true | _ => false end.

(** [u instanceof Destroy] *)
Definition is_Destroy (u : Update) : bool :=
  match u with Destroy => true | _ => false end.

Definition noChange (value : jsval) : UpdateResult :=
  mkUpdateResult NoUpdate value VUndefined None None None.

Definition destroyed (value : jsval) : UpdateResult :=
  mkUpdateResult Destroy VUndefined value None None (Some AllDestroyedUpdates).

(** [setValue(value)]; [__getProxyTarget] is the identity on the plain
    values of this model. *)
Definition setValue (value : jsval) : Update := SetValue value.

Definition setTo (value oldValue : jsval) : UpdateResult :=
  if strict_eq oldValue value then mkUpdateResult NoUpdate value VUndefined None None None
  else mkUpdateResult (setValue value) value oldValue None None None.

Definition arrayFieldUpdates (arr : list jsval) (minIdx maxIdx indexShift : Z) : FieldUpdates :=
  ArrayFieldUpdates arr minIdx maxIdx indexShift.

(** The [has], [get] and [ownKeys] traps of the field-update proxies, and
    the same questions asked of a plain dictionary. *)
Definition fieldUpdates_has (fu : FieldUpdates) (k : PropertyKey) : bool :=
  match fu with
  | FieldDict d => bool_decide (is_Some (d !! k))
  | AllDestroyedUpdates => false
  | ArrayFieldUpdates _ minIdx maxIdx _ =>
      match k with
      | NumKey idx => bool_decide (minIdx <= idx) && bool_decide (idx <= maxIdx)
      | StrKey _ => false
      end
  end.

Definition fieldUpdates_get (fu : FieldUpdates) (k : PropertyKey) : option UpdateResult :=
  match fu with
  | FieldDict d => d !! k
  | AllDestroyedUpdates =>
      Some (mkUpdateResult Destroy VUndefined VUndefined None None (Some AllDestroyedUpdates))
  | ArrayFieldUpdates arr minIdx maxIdx indexShift =>
      match k with
      | NumKey idx =>
          if bool_decide (minIdx <= idx) && bool_decide (idx <= maxIdx)
          then Some (mkUpdateResult (setValue (index arr idx)) (index arr idx)
                                    (index arr (idx - indexShift)) None None None)
          else Some (noChange (index arr idx))
      | StrKey _ => Some (noChange VUndefined)
      end
  end.

Definition fieldUpdates_ownKeys (fu : FieldUpdates) : list PropertyKey :=
  match fu with
  | FieldDict d => (map_to_list d).*1
  | AllDestroyedUpdates => []
  | ArrayFieldUpdates _ minIdx maxIdx _ => NumKey <$> seqZ minIdx (maxIdx - minIdx + 1)
  end.

(** *** Property access on a receiver

    Receivers outside the shape a class is declared for (a keyed update of
    a primitive, an array update of something that is not an array, a named
    property of an array) complete with [TypeError]: JavaScript raises it
    for a property of [null] or [undefined], for [in] on a primitive, for
    an assignment to a property of a primitive in a module, and for a
    missing [splice] or [push]; what remains is outside this model.  The
    keyed updates read and write the keys that the state holds as data;
    the [in] operator, with which [RemoveKey] looks for its key, also
    answers for what the receiver inherits from its prototype. *)

(** [value[key]] *)
Definition get_field (value : jsval) (key : PropertyKey) : completion jsval :=
  match value with
  | VUndefined | VNull => Thrown TypeError
  | VObj _ m => Returned (default VUndefined (m !! key))
  | VArr _ l => Returned (match key with NumKey i => index l i | StrKey _ => VUndefined end)
  | _ => Returned VUndefined
  end.

(** [value.hasOwnProperty(key)], for a [value] that is not [null] or
    [undefined] *)
Definition hasOwnProperty (value : jsval) (key : PropertyKey) : bool :=
  match value with
  | VObj _ m => bool_decide (is_Some (m !! key))
  | VArr _ l =>
      match key with
      | NumKey i => bool_decide (0 <= i) && bool_decide (i < len l)
      | StrKey _ => false
      end
  | _ => false
  end.

(** [value[key] = x]: the receiver after the assignment. *)
Definition set_field (value : jsval) (key : PropertyKey) (x : jsval) : completion jsval :=
  match value with
  | VObj r m => Returned (VObj r (<[key:=x]> m))
  | VArr r l =>
      match key with
      | NumKey i => if bool_decide (0 <= i) then Returned (VArr r (store l (Z.to_nat i) x))
                    else Thrown TypeError
      | StrKey _ => Thrown TypeError
      end
  | _ => Thrown TypeError
  end.

(** The receiver once the object held at [key] has the contents [child]:
    an update applied to [value[key]] mutates that object in place, and the
    receiver, which holds the same object, sees it. *)
Definition plug (value : jsval) (key : PropertyKey) (child : jsval) : jsval :=
  match value with
  | VObj r m => if bool_decide (is_Some (m !! key)) then VObj r (<[key:=child]> m) else value
  | VArr r l =>
      match key with
      | NumKey i => if bool_decide (0 <= i) && bool_decide (i < len l)
                    then VArr r (<[Z.to_nat i:=child]> l) else value
      | StrKey _ => value
      end
  | _ => value
  end.

(** The own enumerable properties that the object diff iterates over ([{}]
    stands in for a value that is not truthy). *)
Definition own_properties (v : jsval) : gmap PropertyKey jsval :=
  match v with
  | VObj _ m => m
  | VArr _ l => list_to_map (imap (fun i x => (NumKey (Z.of_nat i), x)) l)
  | _ => ∅
  end.

(** *** What a call of [applyMutate] leaves behind

    [this_after] is the update object after the call, [receiver_after] the
    argument as it is after the call (mutated in place when it is an array
    or an object), [next_after] the next unused object identity, and
    [outcome] the returned result or the exception. *)
Record Post := mkPost {
  this_after : Update;
  receiver_after : jsval;
  next_after : ref;
  outcome : completion UpdateResult }.

Definition NoUpdate_applyMutate (prev : jsval) (next : ref) : Post :=
  mkPost NoUpdate prev next (Returned (mkUpdateResult NoUpdate prev VUndefined None None None)).

(** What an object or an array answers for [key], from its own properties
    or else from its prototype chain; [None] when it has no such property.
    The own properties of an array are its indices and [length]. *)
Definition find_property (value : jsval) (key : PropertyKey) : option jsval :=
  match value with
  | VObj _ m =>
      match m !! key with
      | Some x => Some x
      | None => Object_prototype key
      end
  | VArr _ l =>
      let inherited :=
        match Array_prototype key with
        | Some x => Some x
        | None => Object_prototype key
        end in
      match key with
      | NumKey i => if hasOwnProperty value key then Some (index l i) else inherited
      | StrKey name =>
          if bool_decide (name = "length"%string) then Some (VNum (len l)) else inherited
      end
  | _ => None
  end.

(** [key in value]: a [TypeError] when [value] is not an object. *)
Definition in_operator (key : PropertyKey) (value : jsval) : completion bool :=
  match value with
  | VObj _ _ | VArr _ _ => Returned (bool_decide (is_Some (find_property value key)))
  | _ => Thrown TypeError
  end.

(** [delete value[key]], for an object or an array, in the strict code of
    a module: an own property of an object is removed; an inherited one is
    not touched; [length], which is not configurable, makes it throw.  An
    array that loses an index keeps its length and reads [undefined] there,
    which is how the arrays of this model, which have no holes, record it. *)
Definition delete_property (value : jsval) (key : PropertyKey) : completion jsval :=
  match value with
  | VObj r m => Returned (VObj r (delete key m))
  | VArr r l =>
      match key with
      | NumKey i =>
          if hasOwnProperty value key then Returned (VArr r (<[Z.to_nat i:=VUndefined]> l))
          else Returned value
      | StrKey name =>
          if bool_decide (name = "length"%string) then Thrown TypeError else Returned value
      end
  | _ => Returned value
  end.

Definition RemoveKey_applyMutate (key : PropertyKey) (_value : jsval)
    (value : jsval) (next : ref) : Post :=
  let this := RemoveKey key _value in
  match value with
  | VNull | VUndefined => mkPost this value next (Returned (noChange value))
  | _ =>
      match in_operator key value with
      | Thrown e => mkPost this value next (Thrown e)
      | Returned false => mkPost this value next (Returned (noChange value))
      | Returned true =>
          let oldValue := default VUndefined (find_property value key) in
          match delete_property value key with
          | Thrown e => mkPost this value next (Thrown e)
          | Returned value' =>
              mkPost this value' next
                (Returned (mkUpdateResult this value' VUndefined
                             (Some {[ key := oldValue ]}) None
                             (Some (FieldDict {[ key := destroyed oldValue ]}))))
          end
      end
  end.

(** What [RemoveValue] throws when the array is not what it expects. *)
Definition stale_update : completion UpdateResult :=
  Thrown (Error "RemoveValue is no longer valid as array has changed").

Definition RemoveValue_applyMutate (value : jsval) (_index : Z)
    (arr : jsval) (next : ref) : Post :=
  let this := RemoveValue value _index in
  match arr with
  | VArr r elems =>
      let idx := _index in
      let len := len elems in
      if negb (strict_eq (index elems idx) value)
      then mkPost this arr next stale_update
      else
        let elems' := (splice elems idx 1 []).2 in
        mkPost this (VArr r elems') next
          (Returned (mkUpdateResult this (VArr r elems') VUndefined
                       (Some {[ NumKey _index := value ]}) None
                       (Some (arrayFieldUpdates elems' idx len (-1)))))
  | _ => mkPost this arr next (Thrown TypeError)
  end.

(** [if (this._targetIndex)] *)
Definition targetIndex_truthy (_targetIndex : option Z) : bool :=
  match _targetIndex with
  | Some i => negb (bool_decide (i = 0))
  | None => false
  end.

(** The body of [InsertValue.applyMutate] on the elements of the array. *)
Definition InsertValue_mutate (value : jsval) (_targetIndex : option Z)
    (elems : list jsval) : option Z * list jsval * Z :=
  let targetIndex := default (len elems) _targetIndex in
  if targetIndex_truthy _targetIndex
  then (_targetIndex, (splice elems (default 0 _targetIndex) 0 [value]).2, targetIndex)
  else (Some (len elems), push elems value, targetIndex).

Definition InsertValue_result (value : jsval) (r : ref)
    (m : option Z * list jsval * Z) : UpdateResult :=
  let '(_targetIndex', elems', targetIndex) := m in
  mkUpdateResult (InsertValue value _targetIndex') (VArr r elems') VUndefined
    None (Some {[ NumKey targetIndex := value ]})
    (Some (arrayFieldUpdates elems' targetIndex (len elems') 1)).

Definition InsertValue_applyMutate (value : jsval) (_targetIndex : option Z)
    (arr : jsval) (next : ref) : Post :=
  match arr with
  | VUndefined =>
      let m := InsertValue_mutate value _targetIndex [] in
      mkPost (InsertValue value m.1.1) VUndefined (Pos.succ next)
        (Returned (InsertValue_result value next m))
  | VArr r elems =>
      let m := InsertValue_mutate value _targetIndex elems in
      mkPost (InsertValue value m.1.1) (VArr r m.1.2) next
        (Returned (InsertValue_result value r m))
  | _ => mkPost (InsertValue value _targetIndex) arr next (Thrown TypeError)
  end.

Definition MoveArrayValue_applyMutate (fromIndex toIndex : Z)
    (arr : jsval) (next : ref) : Post :=
  let this := MoveArrayValue fromIndex toIndex in
  match arr with
  | VArr r elems =>
      let minIdx := Z.min fromIndex toIndex in
      let maxIdx := Z.max fromIndex toIndex in
      let removed := splice elems fromIndex 1 [] in
      let elem := index removed.1 0 in
      let elems' := (splice removed.2 toIndex 0 [elem]).2 in
      mkPost this (VArr r elems') next
        (Returned (mkUpdateResult this (VArr r elems') VUndefined None None
                     (Some (arrayFieldUpdates elems' minIdx maxIdx 1))))
  | _ => mkPost this arr next (Thrown TypeError)
  end.

Definition RenameKey_applyMutate (oldKey newKey : PropertyKey)
    (obj : jsval) (next : ref) : Post :=
  let this := RenameKey oldKey newKey in
  match obj with
  | VObj r m =>
      let value := default VUndefined (m !! oldKey) in
      let obj' := VObj r (delete oldKey (<[newKey:=value]> m)) in
      mkPost this obj' next
        (Returned (mkUpdateResult this obj' VUndefined
                     (Some {[ oldKey := value ]}) (Some {[ newKey := value ]})
                     (Some (FieldDict (<[newKey:=setTo value VUndefined]>
                                         {[ oldKey := destroyed value ]})))))
  | _ => mkPost this obj next (Thrown TypeError)
  end.

Definition Destroy_applyMutate (value : jsval) (next : ref) : Post :=
  mkPost Destroy value next
    (Returned (mkUpdateResult Destroy VUndefined value None None (Some AllDestroyedUpdates))).

(** [objectDiffUpdates]: the two getters compute the removed and the added
    keys; the returned object has no [fieldUpdates] property. *)
Definition objectDiffUpdates (update : Update) (oldObj newObj : jsval) : UpdateResult :=
  let old_props := if truthy oldObj then own_properties oldObj else ∅ in
  let new_props := if truthy newObj then own_properties newObj else ∅ in
  mkUpdateResult update newObj VUndefined
    (Some (old_props ∖ new_props)) (Some (new_props ∖ old_props)) None.

Definition SetValue_applyMutate (value : jsval) (oldValue : jsval) (next : ref) : Post :=
  let this := SetValue value in
  if strict_eq oldValue value then mkPost this oldValue next (Returned (noChange oldValue))
  else if typeof_object oldValue || typeof_object value
  then mkPost this oldValue next (Returned (objectDiffUpdates this oldValue value))
  else mkPost this oldValue next
         (Returned (mkUpdateResult this value oldValue None None None)).

Definition EditString_applyMutate (edits : list ContentEdit)
    (value : jsval) (next : ref) : Post :=
  let this := EditString edits in
  match edits with
  | [] => mkPost this value next (Returned (noChange value))
  | _ =>
      match value with
      | VStr s =>
          let result := fold_left (fun acc e => content_edit_apply e acc) edits s in
          mkPost this value next
            (Returned (mkUpdateResult this (VStr result) value None None None))
      | _ => mkPost this value next (Thrown TypeError)
      end
  end.

(** The accumulators of the loop of [UpdateWith.applyMutate]. *)
Record WithLoop := mkWithLoop {
  loop_value : jsval;
  fieldUpdateResults : gmap PropertyKey UpdateResult;
  loop_addedValues : option (gmap PropertyKey jsval);
  loop_removedValues : option (gmap PropertyKey jsval);
  anyChanged : bool }.

(** One turn of that loop, once the child update has returned
    [updateResult] and the receiver is [value]. *)
Definition UpdateWith_record (acc : WithLoop) (value : jsval) (key : PropertyKey)
    (updateResult : UpdateResult) : WithLoop :=
  mkWithLoop value
    (<[key:=updateResult]> (fieldUpdateResults acc))
    (if hasOwnProperty value key then loop_addedValues acc
     else Some (<[key:=newValue updateResult]> (default ∅ (loop_addedValues acc))))
    (if is_Destroy (update updateResult)
     then Some (<[key:=oldValue updateResult]> (default ∅ (loop_removedValues acc)))
     else loop_removedValues acc)
    (anyChanged acc || negb (is_NoUpdate (update updateResult))).

(** The loop of [UpdateWith.applyMutate] over the own properties of
    [this.fieldUpdates], given how an update applies: the updates as they are
    afterwards, the accumulators, the next unused identity, and the exception
    that ended the loop, if one did. *)
Fixpoint UpdateWith_loop (applyMutate : Update -> jsval -> ref -> Post)
    (props : list (PropertyKey * Update)) (acc : WithLoop) (next : ref)
  : list (PropertyKey * Update) * WithLoop * ref * option exn :=
  match props with
  | [] => ([], acc, next, None)
  | (key, update) :: rest =>
      match get_field (loop_value acc) key with
      | Thrown e => (props, acc, next, Some e)
      | Returned child =>
          let p := applyMutate update child next in
          let value1 := plug (loop_value acc) key (receiver_after p) in
          match outcome p with
          | Thrown e =>
              ((key, this_after p) :: rest,
               mkWithLoop value1 (fieldUpdateResults acc) (loop_addedValues acc)
                 (loop_removedValues acc) (anyChanged acc),
               next_after p, Some e)
          | Returned updateResult =>
              let acc1 := UpdateWith_record acc value1 key updateResult in
              match set_field value1 key (newValue updateResult) with
              | Thrown e => ((key, this_after p) :: rest, acc1, next_after p, Some e)
              | Returned value2 =>
                  let '(rest', acc2, next2, e) :=
                    UpdateWith_loop applyMutate rest
                      (mkWithLoop value2 (fieldUpdateResults acc1)
                         (loop_addedValues acc1) (loop_removedValues acc1)
                         (anyChanged acc1))
                      (next_after p) in
                  ((key, this_after p) :: rest', acc2, next2, e)
              end
          end
      end
  end.

(** [applyMutate], for every kind of update. *)
Fixpoint applyMutate (u : Update) (value : jsval) (next : ref) {struct u} : Post :=
  match u with
  | NoUpdate => NoUpdate_applyMutate value next
  | RemoveKey key _value => RemoveKey_applyMutate key _value value next
  | UpdateKey key _update =>
      match get_field value key with
      | Thrown e => mkPost u value next (Thrown e)
      | Returned child =>
          let p := applyMutate _update child next in
          let this := UpdateKey key (this_after p) in
          let value1 := plug value key (receiver_after p) in
          match outcome p with
          | Thrown e => mkPost this value1 (next_after p) (Thrown e)
          | Returned childResult =>
              if is_NoUpdate (update childResult)
              then mkPost this value1 (next_after p) (Returned (noChange value1))
              else
                match set_field value1 key (newValue childResult) with
                | Thrown e => mkPost this value1 (next_after p) (Thrown e)
                | Returned value2 =>
                    mkPost this value2 (next_after p)
                      (Returned (mkUpdateResult this value2 VUndefined None None
                                   (Some (FieldDict {[ key := childResult ]}))))
                end
          end
      end
  | RemoveValue v _index => RemoveValue_applyMutate v _index value next
  | InsertValue v _targetIndex => InsertValue_applyMutate v _targetIndex value next
  | MoveArrayValue fromIndex toIndex => MoveArrayValue_applyMutate fromIndex toIndex value next
  | RenameKey oldKey newKey => RenameKey_applyMutate oldKey newKey value next
  | Destroy => Destroy_applyMutate value next
  | SetValue v => SetValue_applyMutate v value next
  | EditString edits => EditString_applyMutate edits value next
  | UpdateWith (Direct updates) _removedValues =>
      let oldValue := value in
      let value0 := if truthy oldValue then oldValue else VObj next ∅ in
      let next0 := if truthy oldValue then next else Pos.succ next in
      if typeof_object updates
      then if bool_decide (own_properties updates = ∅)
           then mkPost u oldValue next0 (Returned (noChange value0))
           else mkPost u oldValue next0 (Thrown TypeError)
      else if strict_eq oldValue updates
      then mkPost u oldValue next0 (Returned (noChange oldValue))
      else mkPost u oldValue next0
             (Returned (mkUpdateResult (setValue updates) updates oldValue None None None))
  | UpdateWith (Partial updates) _removedValues =>
      let oldValue := value in
      let value0 := if truthy oldValue then oldValue else VObj next ∅ in
      let next0 := if truthy oldValue then next else Pos.succ next in
      let '(updates', acc, next1, e) :=
        UpdateWith_loop applyMutate updates (mkWithLoop value0 ∅ None None false) next0 in
      let this := UpdateWith (Partial updates') _removedValues in
      let receiver := if truthy oldValue then loop_value acc else oldValue in
      match e with
      | Some e => mkPost this receiver next1 (Thrown e)
      | None =>
          if anyChanged acc
          then mkPost this receiver next1
                 (Returned (mkUpdateResult this (loop_value acc) VUndefined
                              (loop_removedValues acc) (loop_addedValues acc)
                              (Some (FieldDict (fieldUpdateResults acc)))))
          else mkPost this receiver next1 (Returned (noChange (loop_value acc)))
      end
  end.

(** An update in which every [InsertValue] was given a target index other
    than 0: [this._targetIndex] is truthy. *)
Fixpoint explicit_indices (u : Update) : bool :=
  match u with
  | InsertValue _ _targetIndex => targetIndex_truthy _targetIndex
  | UpdateKey _ _update => explicit_indices _update
  | UpdateWith (Partial updates) _ =>
      forallb (fun '(_, update) => explicit_indices update) updates
  | _ => true
  end.

(** *** Constructors for state updates *)

Definition removeKey (key : PropertyKey) : Update := RemoveKey key VUndefined.

Definition renameKey (oldKey newKey : PropertyKey) : Update := RenameKey oldKey newKey.

Definition setProperty (key : PropertyKey) (value : jsval) : Update :=
  UpdateKey key (SetValue value).

Definition destroy : Update := Destroy.

Definition append (value : jsval) : Update := InsertValue value None.

Definition insert (value : jsval) (index : Z) : Update := InsertValue value (Some index).

Definition moveArrayValue (fromIndex toIndex : Z) : Update := MoveArrayValue fromIndex toIndex.

Definition editString (edits : list ContentEdit) : Update := EditString edits.

Definition noUpdate : Update := NoUpdate.

(** [arr.findIndex(p)], counting from [i]: [-1] when no element passes. *)
Fixpoint findIndex_from (p : jsval -> bool) (arr : list jsval) (i : Z) : Z :=
  match arr with
  | [] => -1
  | x :: rest => if p x then i else findIndex_from p rest (i + 1)
  end.

Definition findIndex (p : jsval -> bool) (arr : list jsval) : Z := findIndex_from p arr 0.

(** [arr.indexOf(value)] *)
Definition indexOf (arr : list jsval) (value : jsval) : Z :=
  findIndex (fun v => strict_eq v value) arr.

Definition removeFromArray (arr : list jsval) (value : jsval)
    (compare : option (jsval -> jsval -> bool)) : Update :=
  let idx :=
    match compare with
    | Some compare => findIndex (fun v => compare v value) arr
    | None => indexOf arr value
    end in
  if bool_decide (idx >= 0) then RemoveValue value idx else NoUpdate.

(** [arr.hasOwnProperty(index)] holds of the indices of the array. *)
Definition removeIndex (arr : list jsval) (index : Z) : Update :=
  if bool_decide (0 <= index) && bool_decide (index < len arr)
  then RemoveValue (Js.index arr index) index
  else NoUpdate.

End Algebra.
End Algebra.

(** ** The notebook data model *)

(** Types that [notebook_state.ts] imports from [data/data], [data/result],
    [data/messages] and [state/kernel_state].  Of a [CellMetadata] the code
    reads [hideSource]; [Callback] is a JavaScript function value. *)
Class NotebookData := {
  notebookContentEdits :: ContentEdits;
  CellMetadata : Type;
  hideSource : CellMetadata -> bool;
  CellComment : Type;
  Output : Type;
  Result : Type;
  CompileErrors : Type;
  RuntimeError : Type;
  PosRange : Type;
  NotebookConfig : Type;
  KernelState : Type;
  StreamMessage : Type;
  Callback : Type
}.

(** [Outputs = Output[] & { clear?: boolean }] *)
Module Outputs.
Record t `{NotebookData} := mk {
  items : list Output;
  clear : option bool }.
End Outputs.

(** [outputs(outputs, clear?)] *)
Definition outputs `{NotebookData} (outputs : Outputs.t) (clear : option bool) : Outputs.t :=
  match clear with
  | Some c => Outputs.mk _ (Outputs.items outputs) (Some c)
  | None => outputs
  end.

Module Presence.
Record t `{NotebookData} := mk {
  id : Z;
  name : string;
  color : string;
  range : PosRange;
  avatar : option string }.
End Presence.

Module Highlight.
Record t `{NotebookData} := mk {
  range : PosRange;
  className : string }.
End Highlight.

Module CellState.
Record t `{NotebookData} := mk {
  id : Z;
  language : string;
  content : string;
  metadata : CellMetadata;
  comments : gmap string CellComment;
  output : Outputs.t;
  results : list Result;
  compileErrors : list CompileErrors;
  runtimeError : option RuntimeError;
  incomingEdits : list ContentEdit;
  outgoingEdits : list ContentEdit;
  presence : list Presence.t;
  editing : bool;
  selected : bool;
  error : bool;
  running : bool;
  queued : bool;
  currentSelection : option PosRange;
  currentHighlight : option Highlight.t }.
End CellState.

Module NBConfig.
Record t `{NotebookData} := mk {
  open : bool;
  config : NotebookConfig }.
End NBConfig.

Module ActiveRequest.
Record t `{NotebookData} := mk {
  cellId : Z;
  offset : Z;
  resolve : Callback;
  reject : Callback }.
End ActiveRequest.

Module PresenceSelection.
Record t `{NotebookData} := mk {
  cellId : Z;
  range : PosRange }.
End PresenceSelection.

Module ActivePresence.
Record t `{NotebookData} := mk {
  id : Z;
  name : string;
  color : string;
  avatar : option string;
  selection : option PresenceSelection.t }.
End ActivePresence.

Module NotebookState.
Record t `{NotebookData} := mk {
  path : string;
  cells : gmap Z CellState.t;
  cellOrder : list Z;
  config : NBConfig.t;
  kernel : KernelState;
  activeCellId : option Z;
  activeCompletion : option ActiveRequest.t;
  activeSignature : option ActiveRequest.t;
  activePresence : gmap Z ActivePresence.t;
  activeStreams : gmap Z (list StreamMessage) }.
End NotebookState.

(** ** Messages of the update protocol *)

(** [new NotebookCell(id, language, content, results, metadata)] *)
Module NotebookCell.
Record t `{NotebookData} := mk {
  id : Z;
  language : string;
  content : string;
  results : list Result;
  metadata : CellMetadata }.
End NotebookCell.

(** The subclasses of [messages.NotebookUpdate] that the handler builds, with
    the arguments it gives their constructors; the first two are the
    [globalVersion] and the [localVersion] of the message. *)
Inductive NotebookUpdate `{NotebookData} :=
| InsertCell (globalVersion localVersion : Z) (cell : NotebookCell.t) (after : Z)
| DeleteCell (globalVersion localVersion : Z) (id : Z)
| UpdateCell (globalVersion localVersion : Z) (id : Z) (edits : list ContentEdit)
    (metadata : option CellMetadata)
| CreateComment (globalVersion localVersion : Z) (cellId : Z) (comment : CellComment)
| DeleteComment (globalVersion localVersion : Z) (cellId : Z) (commentId : string)
| UpdateComment (globalVersion localVersion : Z) (cellId : Z) (commentId : string)
    (range : PosRange) (content : string)
| SetCellOutput (globalVersion localVersion : Z) (cellId : Z) (output : Output)
| SetCellLanguage (globalVersion localVersion : Z) (cellId : Z) (language : string)
| UpdateConfig (globalVersion localVersion : Z) (config : NotebookConfig).

Module Message.

Definition globalVersion `{NotebookData} (u : NotebookUpdate) : Z :=
  match u with
  | InsertCell g _ _ _ | DeleteCell g _ _ | UpdateCell g _ _ _ _
  | CreateComment g _ _ _ | DeleteComment g _ _ _ | UpdateComment g _ _ _ _ _
  | SetCellOutput g _ _ _ | SetCellLanguage g _ _ _ | UpdateConfig g _ _ => g
  end.

Definition localVersion `{NotebookData} (u : NotebookUpdate) : Z :=
  match u with
  | InsertCell _ l _ _ | DeleteCell _ l _ | UpdateCell _ l _ _ _
  | CreateComment _ l _ _ | DeleteComment _ l _ _ | UpdateComment _ l _ _ _ _
  | SetCellOutput _ l _ _ | SetCellLanguage _ l _ _ | UpdateConfig _ l _ => l
  end.

End Message.

(** [messages.NotebookUpdate.rebase(update, prevUpdates)], from
    [data/messages]. *)
Class Rebase `{NotebookData} := {
  rebase : NotebookUpdate -> list NotebookUpdate -> NotebookUpdate
}.

(** ** The edit buffer *)

Module EditBuffer.

(** Modelled from the spec: the class [EditBuffer] of [data/edit_buffer],
    which is not part of the embedded source.  The spec: "an ordered log of
    (localVersion, update-message) entries; supports slicing a version range
    and discarding a prefix up to (and including) an acknowledged version";
    the slice that the rebase takes holds the edits "with localVersion
    strictly greater than the incoming reference". *)
Abbreviation t := (list (Z * NotebookUpdate)) (only parsing).

Section EditBuffer.
Context `{NotebookData}.

(** Modelled from the spec: [new EditBuffer()] is the empty log. *)
Definition empty : t := [].

(** Modelled from the spec: [push(version, edit)] appends an entry to the log. *)
Definition push (version : Z) (edit : NotebookUpdate) (buf : t) : t :=
  buf ++ [(version, edit)].

(** Modelled from the spec: [range(from, to)] is the slice of the edits whose
    version is above [from] and at most [to], in the order of the log. *)
Definition range (from to : Z) (buf : t) : list NotebookUpdate :=
  (filter (fun e => from < e.1 ∧ e.1 <= to) buf).*2.

(** Modelled from the spec: [discard(until)] drops the prefix of the log up
    to and including the version [until]. *)
Fixpoint discard (until : Z) (buf : t) : t :=
  match buf with
  | [] => []
  | e :: rest => if bool_decide (e.1 <= until) then discard until rest else buf
  end.

End EditBuffer.
End EditBuffer.

(** ** The update handler *)

Module NotebookUpdateHandler.
Section NotebookUpdateHandler.
Context `{Rebase}.

(** The fields of a [NotebookUpdateHandler]; [state] is the value of the
    [StateHandler<NotebookUpdate[]>] it extends, the list of the updates it
    has published. *)
Record t := mk {
  state : list NotebookUpdate;
  globalVersion : Z;
  localVersion : Z;
  edits : EditBuffer.t }.

(** [new NotebookUpdateHandler(state, globalVersion, localVersion, edits)] *)
Definition new (globalVersion localVersion : Z) (edits : EditBuffer.t) : t :=
  mk [] globalVersion localVersion edits.

(** Methods run in a state-and-exception monad over the handler: a method
    that throws leaves the handler as it was when it threw. *)
Definition method (A : Type) : Type := t -> completion A * t.

#[global] Instance method_ret : MRet method := fun A a h => (Returned a, h).

#[global] Instance method_bind : MBind method := fun A B k m h =>
  match m h with
  | (Returned a, h') => k a h'
  | (Thrown e, h') => (Thrown e, h')
  end.

Definition throw {A} (e : exn) : method A := fun h => (Thrown e, h).

Definition this : method t := fun h => (Returned h, h).

Definition assign (f : t -> t) : method unit := fun h => (Returned tt, f h).

Definition mismatch (had have : Z) : string :=
  "Update Version mismatch! Update had " +:+ pretty had +:+ ", but I had " +:+ pretty have.

(** Modelled from the spec: [StateHandler.update] of [state/state_handler],
    which is not part of the embedded source.  The producer receives the
    current value and returns its replacement, which the container stores
    (and then announces to its observers). *)
Definition update (producer : list NotebookUpdate -> list NotebookUpdate) : method unit :=
  assign (fun h => mk (producer (state h)) (globalVersion h) (localVersion h) (edits h)).

Definition addUpdate (update' : NotebookUpdate) : method unit :=
  h ← this;
  if bool_decide (Message.localVersion update' ≠ localVersion h)
  then throw (Error (mismatch (Message.localVersion update') (localVersion h)))
  else
    assign (fun h => mk (state h) (globalVersion h) (localVersion h)
                        (EditBuffer.push (Message.localVersion update') update' (edits h)));;
    update (fun s => s ++ [update']).

(** [this.localVersion++] *)
Definition incrementLocalVersion : method unit :=
  assign (fun h => mk (state h) (globalVersion h) (localVersion h + 1) (edits h)).

Definition insertCell (cellId : Z) (language content : string)
    (metadata : CellMetadata) (prevId : Z) : method unit :=
  incrementLocalVersion;;
  h ← this;
  let cell := NotebookCell.mk _ cellId language content [] metadata in
  let update := InsertCell (globalVersion h) (localVersion h) cell prevId in
  addUpdate update.

Definition deleteCell (id : Z) : method unit :=
  incrementLocalVersion;;
  h ← this;
  let update := DeleteCell (globalVersion h) (localVersion h) id in
  addUpdate update.

(** [changed] is [{edits?, metadata?}]; absent edits become [[]]. *)
Definition updateCell (id : Z) (changed_edits : option (list ContentEdit))
    (changed_metadata : option CellMetadata) : method unit :=
  incrementLocalVersion;;
  h ← this;
  let update := UpdateCell (globalVersion h) (localVersion h) id
                  (default [] changed_edits) changed_metadata in
  addUpdate update.

Definition createComment (cellId : Z) (comment : CellComment) : method unit :=
  h ← this;
  addUpdate (CreateComment (globalVersion h) (localVersion h) cellId comment).

Definition deleteComment (cellId : Z) (commentId : string) : method unit :=
  h ← this;
  addUpdate (DeleteComment (globalVersion h) (localVersion h) cellId commentId).

Definition updateComment (cellId : Z) (commentId : string) (range : PosRange)
    (content : string) : method unit :=
  h ← this;
  addUpdate (UpdateComment (globalVersion h) (localVersion h) cellId commentId range content).

Definition setCellOutput (cellId : Z) (output : Output) : method unit :=
  h ← this;
  addUpdate (SetCellOutput (globalVersion h) (localVersion h) cellId output).

Definition updateConfig (config : NotebookConfig) : method unit :=
  incrementLocalVersion;;
  h ← this;
  let update := UpdateConfig (globalVersion h) (localVersion h) config in
  addUpdate update.

Definition rebaseUpdate (update : NotebookUpdate) : method NotebookUpdate :=
  assign (fun h => mk (state h) (Message.globalVersion update) (localVersion h) (edits h));;
  h ← this;
  if bool_decide (Message.localVersion update < localVersion h)
  then
    let prevUpdates :=
      EditBuffer.range (Message.localVersion update) (localVersion h) (edits h) in
    assign (fun h => mk (state h) (globalVersion h) (localVersion h)
                        (EditBuffer.discard (Message.localVersion update) (edits h)));;
    mret (rebase update prevUpdates)
  else mret update.

(** The observers that [watchCell] registers on the views of a cell: what
    each does when its view changes.  (The observer of [results] publishes,
    later, through the same [SetCellOutput] message as [setCellOutput]; the
    observer of [comments] calls [createComment], [deleteComment] and
    [updateComment] for the comments that [diffArray] and [deepEquals] of
    [util/helpers] tell apart.) *)

(** on [output]: one message per added output *)
Fixpoint watchOutput (id : Z) (added : list Output) : method unit :=
  match added with
  | [] => mret tt
  | o :: rest =>
      h ← this;
      addUpdate (SetCellOutput (globalVersion h) (localVersion h) id o);;
      watchOutput id rest
  end.

(** on [language] *)
Definition watchLanguage (id : Z) (lang : string) : method unit :=
  h ← this;
  addUpdate (SetCellLanguage (globalVersion h) (localVersion h) id lang).

(** on [outgoingEdits] *)
Definition watchOutgoingEdits (id : Z) (edits : list ContentEdit) : method unit :=
  if bool_decide (0 < length edits)%nat then updateCell id (Some edits) None else mret tt.

(** on [metadata] *)
Definition watchMetadata (id : Z) (metadata : CellMetadata) : method unit :=
  updateCell id None (Some metadata).

(** The calls that change a handler, and a handler after a sequence of them
    (a call that throws leaves the handler as it was when it threw). *)
Inductive call :=
| CallAddUpdate (update : NotebookUpdate)
| CallInsertCell (cellId : Z) (language content : string) (metadata : CellMetadata)
    (prevId : Z)
| CallDeleteCell (id : Z)
| CallUpdateCell (id : Z) (edits : option (list ContentEdit)) (metadata : option CellMetadata)
| CallCreateComment (cellId : Z) (comment : CellComment)
| CallDeleteComment (cellId : Z) (commentId : string)
| CallUpdateComment (cellId : Z) (commentId : string) (range : PosRange) (content : string)
| CallSetCellOutput (cellId : Z) (output : Output)
| CallUpdateConfig (config : NotebookConfig)
| CallRebaseUpdate (update : NotebookUpdate)
| CallWatchOutput (id : Z) (added : list Output)
| CallWatchLanguage (id : Z) (lang : string)
| CallWatchOutgoingEdits (id : Z) (edits : list ContentEdit)
| CallWatchMetadata (id : Z) (metadata : CellMetadata).

Definition perform (c : call) (h : t) : t :=
  match c with
  | CallAddUpdate update => (addUpdate update h).2
  | CallInsertCell cellId language content metadata prevId =>
      (insertCell cellId language content metadata prevId h).2
  | CallDeleteCell id => (deleteCell id h).2
  | CallUpdateCell id edits metadata => (updateCell id edits metadata h).2
  | CallCreateComment cellId comment => (createComment cellId comment h).2
  | CallDeleteComment cellId commentId => (deleteComment cellId commentId h).2
  | CallUpdateComment cellId commentId range content =>
      (updateComment cellId commentId range content h).2
  | CallSetCellOutput cellId output => (setCellOutput cellId output h).2
  | CallUpdateConfig config => (updateConfig config h).2
  | CallRebaseUpdate update => (rebaseUpdate update h).2
  | CallWatchOutput id added => (watchOutput id added h).2
  | CallWatchLanguage id lang => (watchLanguage id lang h).2
  | CallWatchOutgoingEdits id edits => (watchOutgoingEdits id edits h).2
  | CallWatchMetadata id metadata => (watchMetadata id metadata h).2
  end.

Definition perform_all (calls : list call) (h : t) : t :=
  fold_left (fun h c => perform c h) calls h.

(** The handler once it has published [update] under the local version of
    that update: the update is the last entry of the edit buffer and the last
    of the published updates. *)
Definition published (update : NotebookUpdate) (h : t) : t :=
  mk (state h ++ [update]) (globalVersion h) (Message.localVersion update)
     (EditBuffer.push (Message.localVersion update) update (edits h)).

(** The versions of the edit buffer never decrease along the log and never
    exceed the local version of the handler. *)
Definition buffer_in_order (h : t) : Prop :=
  StronglySorted Z.le (edits h).*1 ∧ Forall (fun e => e.1 <= localVersion h) (edits h).

End NotebookUpdateHandler.
End NotebookUpdateHandler.

(** ** The notebook state handler *)

Module NotebookStateHandler.
Section NotebookStateHandler.
Context `{Rebase}.

Inductive Direction := above | below.

(** The [options] of [selectCell]. *)
Record SelectOptions := mkSelectOptions {
  relative : option Direction;
  skipHiddenCode : option bool;
  editing : option bool }.

(** The [anchor] of [insertCell]. *)
Record Anchor := mkAnchor {
  anchor_id : Z;
  anchor_language : string;
  anchor_metadata : CellMetadata;
  anchor_content : option string }.

(** [cellOrder[i]]: [undefined] outside the array. *)
Definition at_index (cellOrder : list Z) (i : Z) : option Z :=
  if bool_decide (0 <= i) then cellOrder !! Z.to_nat i else None.

(** [cellOrder.indexOf(cellId)]: [-1] when it is not there. *)
Fixpoint indexOf (cellOrder : list Z) (cellId : Z) : Z :=
  match cellOrder with
  | [] => -1
  | x :: rest =>
      if bool_decide (x = cellId) then 0
      else let i := indexOf rest cellId in
           if bool_decide (i = -1) then -1 else i + 1
  end.

Definition getCellIndex (cellId : Z) (cellOrder : list Z) : Z :=
  indexOf cellOrder cellId.

Definition getCellIdAtIndex (state : NotebookState.t) (cellIdx : Z) : option Z :=
  at_index (NotebookState.cellOrder state) cellIdx.

(** [anchorIdx ? cellOrder[anchorIdx - 1] : undefined] *)
Definition getPreviousCellId (anchorId : Z) (cellOrder : list Z) : option Z :=
  let anchorIdx := getCellIndex anchorId cellOrder in
  if bool_decide (anchorIdx = 0) then None else at_index cellOrder (anchorIdx - 1).

Definition getNextCellId (anchorId : Z) (cellOrder : list Z) : option Z :=
  let anchorIdx := getCellIndex anchorId cellOrder in
  if bool_decide (anchorIdx = 0) then None else at_index cellOrder (anchorIdx + 1).

(** [this.state.cells[id]?.metadata.hideSource] *)
Definition hiddenSource (state : NotebookState.t) (id : option Z) : bool :=
  match id with
  | Some i =>
      match NotebookState.cells state !! i with
      | Some cell => hideSource (CellState.metadata cell)
      | None => false
      end
  | None => false
  end.

(** The loop of [selectCell] that steps upwards over hidden cells; [n] is
    [prevIdx + 1], so that the loop stops at [prevIdx = -1]. *)
Fixpoint skipAbove (state : NotebookState.t) (n : nat) (id : option Z) : option Z :=
  match n with
  | O => id
  | S m =>
      if hiddenSource state id
      then skipAbove state m (at_index (NotebookState.cellOrder state) (Z.of_nat m - 1))
      else id
  end.

(** The loop that steps downwards; [n] is [cellOrder.length - nextIdx]. *)
Fixpoint skipBelow (state : NotebookState.t) (n : nat) (nextIdx : Z) (id : option Z)
  : option Z :=
  match n with
  | O => id
  | S m =>
      if hiddenSource state id
      then skipBelow state m (nextIdx + 1)
             (at_index (NotebookState.cellOrder state) (nextIdx + 1))
      else id
  end.

(** The id that [selectCell] resolves before it updates the state. *)
Definition selectCell_id (state : NotebookState.t) (selected : option Z)
    (options : SelectOptions) : option Z :=
  let cellOrder := NotebookState.cellOrder state in
  let id :=
    match selected with
    | Some sel =>
        let anchorIdx := indexOf cellOrder sel in
        match relative options with
        | Some above =>
            let prevIdx := anchorIdx - 1 in
            let id := at_index cellOrder prevIdx in
            if default false (skipHiddenCode options)
            then skipAbove state (Z.to_nat (prevIdx + 1)) id
            else id
        | Some below =>
            let nextIdx := anchorIdx + 1 in
            let id := at_index cellOrder nextIdx in
            if default false (skipHiddenCode options)
            then skipBelow state (Z.to_nat (Z.of_nat (length cellOrder) - nextIdx)) nextIdx id
            else id
        | None => selected
        end
    | None => None
    end in
  match id with
  | Some i => Some i
  | None => if bool_decide (selected = Some (-1)) then Some 0 else selected
  end.

(** Modelled from the spec: [mapValues] of [util/helpers], which is not part
    of the embedded source, applies a function to every value of a
    dictionary ("for every cell set selected = (id matches), editing = (id
    matches AND editing requested)"). *)
Definition mapValues {A B} (obj : gmap Z A) (f : A -> B) : gmap Z B := f <$> obj.

(** The cell that the producer of [selectCell] returns for [cell]. *)
Definition selectCell_cell (id : option Z) (options : SelectOptions)
    (cell : CellState.t) : CellState.t :=
  let matches := bool_decide (Some (CellState.id cell) = id) in
  CellState.mk _
    (CellState.id cell) (CellState.language cell) (CellState.content cell)
    (CellState.metadata cell) (CellState.comments cell) (CellState.output cell)
    (CellState.results cell) (CellState.compileErrors cell) (CellState.runtimeError cell)
    (CellState.incomingEdits cell) (CellState.outgoingEdits cell) (CellState.presence cell)
    (matches && default false (editing options))
    matches
    (CellState.error cell) (CellState.running cell) (CellState.queued cell)
    (CellState.currentSelection cell) (CellState.currentHighlight cell).

(** *** The handler and the observers of its constructor

    Of the observers that the source registers on the notebook state, the
    ones that write to it are those of the constructor: the observer of the
    view of [activeCellId], and the observers that this one registers on the
    views of cells.  (The observers of the update handler send messages, and
    those of the promises settle them.)  The handler is its state and the
    ids of the cells on whose view an observer of the constructor is
    registered, in the order of registration. *)
Record t := mk {
  state : NotebookState.t;
  cell_observers : list Z }.

(** [new NotebookStateHandler(state)] *)
Definition new (state : NotebookState.t) : t := mk state [].

(** [deepEquals], with which the handler compares states (its [compare]),
    decides the equality of cells and of notebook states. *)
Context `{!EqDecision CellState.t} `{!EqDecision NotebookState.t}.

(** [{...s, activeCellId: id}] *)
Definition with_activeCellId (id : option Z) (s : NotebookState.t) : NotebookState.t :=
  NotebookState.mk _
    (NotebookState.path s) (NotebookState.cells s) (NotebookState.cellOrder s)
    (NotebookState.config s) (NotebookState.kernel s)
    id
    (NotebookState.activeCompletion s) (NotebookState.activeSignature s)
    (NotebookState.activePresence s) (NotebookState.activeStreams s).

(** The views of the cells under observation, in the order of registration,
    when the cells have gone from [old] to [new]: a view whose cell is as
    before forwards nothing; otherwise its observer is called with the cell
    [s], and
      [if (! s.selected) { activeCellWatcher.removeObserver(obs);
                           this.update1("activeCellId", () => undefined) }]
    The result is how the dispatch ends, the observers that stay registered
    ([kept] are those among the observers already passed) and whether an
    observer has asked for that update ([reset]). *)
Fixpoint notify_cells (old new : gmap Z CellState.t) (kept : list Z) (reset : bool)
    (observers : list Z) : completion unit * (list Z * bool) :=
  match observers with
  | [] => (Returned tt, (kept, reset))
  | cellId :: rest =>
      if bool_decide (new !! cellId = old !! cellId)
      then notify_cells old new (kept ++ [cellId]) reset rest
      else
        match new !! cellId with
        | None => (Thrown TypeError, (kept ++ observers, reset))
        | Some s =>
            if CellState.selected s
            then notify_cells old new (kept ++ [cellId]) reset rest
            else notify_cells old new kept true rest
        end
  end.

(** The observer of the view of [activeCellId]:
      [cellId => { if (cellId) { ... activeCellWatcher.addObserver(...) } }] *)
Definition watch_activeCell (cellId : option Z) (h : t) : t :=
  match cellId with
  | Some i => if bool_decide (i = 0) then h else mk (state h) (cell_observers h ++ [i])
  | None => h
  end.

(** The view of [activeCellId], when the state has gone from [old] to
    [new]. *)
Definition notify_activeCellId (old new : NotebookState.t) (h : t) : t :=
  if bool_decide (NotebookState.activeCellId new = NotebookState.activeCellId old) then h
  else watch_activeCell (NotebookState.activeCellId new) h.

(** [this.update1("activeCellId", () => undefined)], for which an observer
    of a cell has asked: an update of its own, in which no cell changes and
    the observer of [activeCellId] is given [undefined], with which it does
    nothing. *)
Definition reset_activeCellId (h : t) : t :=
  match NotebookState.activeCellId (state h) with
  | Some _ => mk (with_activeCellId None (state h)) (cell_observers h)
  | None => h
  end.

(** Modelled from the spec: [StateHandler.update] of [state/state_handler],
    with its views and observers, which is not part of the embedded source:
    "producer receives current value and returns either a raw replacement
    value or an Update; container computes UpdateResult, and if
    result.update !== NoUpdate [...] replaces the stored value and
    synchronously, in subscription order notifies every Observer with
    (newValue, oldValue, originToken).  An Observer may unsubscribe itself
    during its own callback; it must not be called again after removal, but
    a dispatch already started before removal for other observers
    proceeds"; a view "recomputes its derived value on every parent change,
    forwarding only when its own value actually differs"; "update() calls
    run to completion (including all synchronous observer notifications)
    before any other mutation proceeds", so that the update for which an
    observer asks runs when the dispatch is over.  The producers below
    return a replacement value, which makes an update unless it equals the
    old value.  The constructor creates the lens of [cells] before the view
    of [activeCellId], so the observers of cells come first.  What an
    observer throws ends the dispatch. *)
Definition update (producer : NotebookState.t -> NotebookState.t) (h : t)
  : completion unit * t :=
  let old := state h in
  let new := producer old in
  if bool_decide (new = old) then (Returned tt, h)
  else
    match notify_cells (NotebookState.cells old) (NotebookState.cells new) [] false
            (cell_observers h) with
    | (Returned _, (observers, reset)) =>
        let h' := notify_activeCellId old new (mk new observers) in
        (Returned tt, if reset then reset_activeCellId h' else h')
    | (Thrown e, (observers, _)) => (Thrown e, mk new observers)
    end.

(** [selectCell(selected, options)]: how the call completes, with the id
    that it returns, and the handler afterwards. *)
Definition selectCell (selected : option Z) (options : SelectOptions) (h : t)
  : completion (option Z) * t :=
  let id := selectCell_id (state h) selected options in
  match update (fun s =>
          NotebookState.mk _
            (NotebookState.path s)
            (mapValues (NotebookState.cells s) (selectCell_cell id options))
            (NotebookState.cellOrder s) (NotebookState.config s) (NotebookState.kernel s)
            id
            (NotebookState.activeCompletion s) (NotebookState.activeSignature s)
            (NotebookState.activePresence s) (NotebookState.activeStreams s)) h with
  | (Returned _, h') => (Returned id, h')
  | (Thrown e, h') => (Thrown e, h')
  end.

(** Whether [selectCell], which resolves [id], makes the observer of the
    cell [cellId] reset [activeCellId]: the cell changes and is not
    selected afterwards. *)
Definition deselects (id : option Z) (options : SelectOptions) (s : NotebookState.t)
    (cellId : Z) : bool :=
  match NotebookState.cells s !! cellId with
  | Some cell =>
      negb (bool_decide (selectCell_cell id options cell = cell)) &&
      negb (CellState.selected (selectCell_cell id options cell))
  | None => false
  end.

(** The anchor that [insertCell] settles on: the one it is given or, without
    one, the active cell or else the first or the last cell of the order.
    Reading the language of a cell that is not there throws. *)
Definition insertCell_anchor (state : NotebookState.t) (direction : Direction)
    (anchor : option Anchor) : completion Anchor :=
  match anchor with
  | Some a => Returned a
  | None =>
      let cellOrder := NotebookState.cellOrder state in
      let currentCellId :=
        match NotebookState.activeCellId state with
        | Some i => Some i
        | None =>
            match direction with
            | above => at_index cellOrder 0
            | below => at_index cellOrder (Z.of_nat (length cellOrder) - 1)
            end
        end in
      match currentCellId with
      | Some currentCellId =>
          match NotebookState.cells state !! currentCellId with
          | Some currentCell =>
              Returned (mkAnchor currentCellId (CellState.language currentCell)
                          (CellState.metadata currentCell) None)
          | None => Thrown TypeError
          end
      | None => Thrown TypeError
      end
  end.

(** [state.cellOrder.reduce((acc, cellId) => acc > cellId ? acc : cellId, -1)] *)
Definition maxId (cellOrder : list Z) : Z :=
  fold_left (fun acc cellId => if bool_decide (acc > cellId) then acc else cellId)
            cellOrder (-1).

(** [insertCell(direction, anchor)] up to the call of the update handler; the
    promise it returns is settled later, by an observer of [cellOrder]. *)
Definition insertCell (state : NotebookState.t) (direction : Direction)
    (anchor : option Anchor) : NotebookUpdateHandler.method unit :=
  match insertCell_anchor state direction anchor with
  | Thrown e => NotebookUpdateHandler.throw e
  | Returned anchor =>
      let cellOrder := NotebookState.cellOrder state in
      let anchorIdx := getCellIndex (anchor_id anchor) cellOrder in
      let prevIdx := match direction with above => anchorIdx - 1 | below => anchorIdx end in
      let maybePrevId := default (-1) (at_index cellOrder prevIdx) in
      let maxId := maxId cellOrder in
      NotebookUpdateHandler.insertCell (maxId + 1) (anchor_language anchor)
        (default ""%string (anchor_content anchor)) (anchor_metadata anchor) maybePrevId
  end.

Definition deleteCell (state : NotebookState.t) (id : option Z)
  : NotebookUpdateHandler.method unit :=
  let id := match id with Some i => Some i | None => NotebookState.activeCellId state end in
  match id with
  | Some i => NotebookUpdateHandler.deleteCell i
  | None => mret tt
  end.

(** The cell that the producer of [setCellLanguage] returns for [cell]. *)
Definition setCellLanguage_cell (language : string) (cell : CellState.t) : CellState.t :=
  let text := bool_decide (language = "text"%string) in
  CellState.mk _
    (CellState.id cell)
    language
    (CellState.content cell) (CellState.metadata cell) (CellState.comments cell)
    (if text then Outputs.mk _ [] None else CellState.output cell)
    (if text then [] else CellState.results cell)
    (if text then [] else CellState.compileErrors cell)
    (if text then None else CellState.runtimeError cell)
    (CellState.incomingEdits cell) (CellState.outgoingEdits cell) (CellState.presence cell)
    (CellState.editing cell) (CellState.selected cell)
    (if text then false else CellState.error cell)
    (CellState.running cell) (CellState.queued cell)
    (CellState.currentSelection cell) (CellState.currentHighlight cell).

(** Modelled from the spec: [StateHandler.update1] of [state/state_handler],
    which is not part of the embedded source: a write through the lens of a
    key is "expressed as UpdateKey(key, ...) against the parent", one update
    of the container, in which the producer is given the value at the key.
    (The types promise the producer a value; a key without one is left
    alone here.) *)
Definition update1 {A} (key : Z) (producer : A -> A) (state : gmap Z A) : gmap Z A :=
  alter producer key state.

(** [setCellLanguage(id, language)]: one [update1] of the [cells] lens. *)
Definition setCellLanguage (id : Z) (language : string) (state : NotebookState.t)
  : NotebookState.t :=
  NotebookState.mk _
    (NotebookState.path state)
    (update1 id (setCellLanguage_cell language) (NotebookState.cells state))
    (NotebookState.cellOrder state) (NotebookState.config state) (NotebookState.kernel state)
    (NotebookState.activeCellId state)
    (NotebookState.activeCompletion state) (NotebookState.activeSignature state)
    (NotebookState.activePresence state) (NotebookState.activeStreams state).

(** Every cell is stored under its own id. *)
Definition cells_by_id (state : NotebookState.t) : Prop :=
  ∀ key cell, NotebookState.cells state !! key = Some cell → CellState.id cell = key.

End NotebookStateHandler.
End NotebookStateHandler.

(** ** Sample data

    One choice of the collaborator types, and the notebooks of the scenarios
    of the specification. *)

Module Sample.

(** A content edit that appends its text. *)
#[export] Instance sampleEdits : ContentEdits :=
  {| ContentEdit := string; content_edit_apply := fun e s => (s +:+ e)%string |}.

(** The metadata is its [hideSource] flag. *)
#[export] Instance sampleData : NotebookData :=
  {| notebookContentEdits := sampleEdits;
     CellMetadata := bool;
     hideSource := fun hidden => hidden;
     CellComment := string;
     Output := string;
     Result := string;
     CompileErrors := string;
     RuntimeError := string;
     PosRange := Z * Z;
     NotebookConfig := string;
     KernelState := unit;
     StreamMessage := string;
     Callback := unit |}.

(** The names of [Object.prototype] and of [Array.prototype]; the built-in
    function under a name is stood for by an object of its own identity. *)
Definition builtins (first : positive) (names : list string) : gmap PropertyKey jsval :=
  list_to_map (imap (fun i name => (StrKey name, VObj (first + Pos.of_nat i)%positive ∅)) names).

#[export] Instance samplePrototypes : Prototypes :=
  {| Object_prototype := fun key =>
       builtins 100
         ["constructor"; "__defineGetter__"; "__defineSetter__"; "hasOwnProperty";
          "__lookupGetter__"; "__lookupSetter__"; "isPrototypeOf"; "propertyIsEnumerable";
          "toString"; "valueOf"; "__proto__"; "toLocaleString"]%string !! key;
     Array_prototype := fun key =>
       builtins 200
         ["constructor"; "concat"; "copyWithin"; "fill"; "find"; "findIndex"; "lastIndexOf";
          "pop"; "push"; "reverse"; "shift"; "unshift"; "slice"; "sort"; "splice";
          "includes"; "indexOf"; "join"; "keys"; "entries"; "values"; "forEach"; "filter";
          "map"; "every"; "some"; "reduce"; "reduceRight"; "toLocaleString";
          "toString"]%string !! key |}.

(** A rebase that leaves the incoming update as it is. *)
#[export] Instance sampleRebase : Rebase := {| rebase := fun update _ => update |}.

(** Equality of the sample states is decidable. *)
#[export] Instance Outputs_eq_dec : EqDecision Outputs.t.
Proof. solve_decision. Defined.

#[export] Instance Presence_eq_dec : EqDecision Presence.t.
Proof. solve_decision. Defined.

#[export] Instance Highlight_eq_dec : EqDecision Highlight.t.
Proof. solve_decision. Defined.

#[export] Instance CellState_eq_dec : EqDecision CellState.t.
Proof. solve_decision. Defined.

#[export] Instance NBConfig_eq_dec : EqDecision NBConfig.t.
Proof. solve_decision. Defined.

#[export] Instance ActiveRequest_eq_dec : EqDecision ActiveRequest.t.
Proof. solve_decision. Defined.

#[export] Instance PresenceSelection_eq_dec : EqDecision PresenceSelection.t.
Proof. solve_decision. Defined.

#[export] Instance ActivePresence_eq_dec : EqDecision ActivePresence.t.
Proof. solve_decision. Defined.

#[export] Instance NotebookState_eq_dec : EqDecision NotebookState.t.
Proof. solve_decision. Defined.

Definition cell (id : Z) (language : string) (hidden : bool) (output : list string)
    (error : bool) : CellState.t :=
  CellState.mk _ id language "1 + 1" hidden ∅ (Outputs.mk _ output None)
    ["res"%string] ["compile"%string] (Some "runtime"%string) [] [] []
    false false error false false None None.

Definition notebook (cells : list CellState.t) (activeCellId : option Z) : NotebookState.t :=
  NotebookState.mk _ "notebook.ipynb"
    (list_to_map ((fun c => (CellState.id c, c)) <$> cells))
    (CellState.id <$> cells)
    (NBConfig.mk _ false "config"%string) tt
    activeCellId None None ∅ ∅.

(** Cells 1, 2 and 3, none selected, none active. *)
Definition three_cells : NotebookState.t :=
  notebook [cell 1 "scala" false [] false; cell 2 "scala" false [] false;
            cell 3 "python" false [] false] None.

(** Cells 1, 2 and 3, where cell 2 hides its source. *)
Definition hidden_second : NotebookState.t :=
  notebook [cell 1 "scala" false [] false; cell 2 "scala" true [] false;
            cell 3 "python" false [] false] None.

(** Cells 0 and 1, no active cell. *)
Definition two_cells : NotebookState.t :=
  notebook [cell 0 "scala" false [] false; cell 1 "python" true [] false] None.

(** One cell with an output and the error flag. *)
Definition failed_cell : NotebookState.t :=
  notebook [cell 4 "scala" false ["o1"%string] true] None.

(** The handler that [NotebookStateHandler] creates. *)
Definition handler : NotebookUpdateHandler.t :=
  NotebookUpdateHandler.new (-1) (-1) EditBuffer.empty.

(** That handler after three local edits. *)
Definition three_edits : NotebookUpdateHandler.t :=
  NotebookUpdateHandler.perform_all
    [NotebookUpdateHandler.CallDeleteCell 4; NotebookUpdateHandler.CallDeleteCell 5;
     NotebookUpdateHandler.CallDeleteCell 6] handler.

Definition abc : list jsval := [VStr "a"; VStr "b"; VStr "c"].

End Sample.

(** ** Updates given as values *)

Module Conversion.
Section Conversion.
Context `{ContentEdits}.
Import Algebra.

(** What [valueToUpdate] is given, an [UpdateOf<S>]: an update
    ([isUpdateLike]); a plain object ([isUpdatePartial]), whose properties
    are again such, listed in enumeration order; or any other value (a
    primitive, an array, an instance of a class). *)
Inductive UpdateSpec :=
| AsUpdate (u : Update)
| AsPartial (props : list (PropertyKey * UpdateSpec))
| AsValue (v : jsval).

(** [valueToUpdate]: the entries of a plain object that turn out to be
    [NoUpdate] are deleted from [onlyUpdates]. *)
Fixpoint valueToUpdate (updates : UpdateSpec) : Update :=
  match updates with
  | AsUpdate u => u
  | AsPartial props =>
      let onlyUpdates :=
        (fix onlyUpdates (props : list (PropertyKey * UpdateSpec)) :=
           match props with
           | [] => []
           | (key, update) :: rest =>
               let converted := valueToUpdate update in
               if is_NoUpdate converted then onlyUpdates rest
               else (key, converted) :: onlyUpdates rest
           end) props in
      UpdateWith (Partial onlyUpdates) ∅
  | AsValue v => setValue v
  end.

Definition updateProperty (key : PropertyKey) (update : UpdateSpec) : Update :=
  UpdateKey key (valueToUpdate update).

(** A value that is not an array or an object: [===] on it compares
    contents. *)
Definition primitive (v : jsval) : Prop :=
  match v with
  | VArr _ _ | VObj _ _ => False
  | _ => True
  end.

(** An update without a dictionary of updates ([UpdateWith] of a plain
    object) in it. *)
Fixpoint no_dictionary (u : Update) : bool :=
  match u with
  | UpdateKey _ _update => no_dictionary _update
  | UpdateWith (Partial _) _ => false
  | _ => true
  end.

End Conversion.
End Conversion.

(** ** What the update handler has published *)

Module Published.
Section Published.
Context `{Rebase}.
Import NotebookUpdateHandler.

(** The published updates carry local versions that never decrease along
    the list and never exceed the local version of the handler. *)
Definition versions_in_order (h : t) : Prop :=
  StronglySorted Z.le (Message.localVersion <$> state h) ∧
  Forall (fun update => Message.localVersion update <= localVersion h) (state h).

(** The edits of the buffer are the last of the published updates, in the
    same order, each filed under its own local version. *)
Definition buffer_published (h : t) : Prop :=
  (edits h).*2 `suffix_of` state h ∧
  Forall (fun e => e.1 = Message.localVersion e.2) (edits h).

(** The messages that the observer of [output] sends for the added outputs. *)
Definition output_messages (h : t) (id : Z) (added : list Output) : list NotebookUpdate :=
  SetCellOutput (globalVersion h) (localVersion h) id <$> added.

End Published.
End Published.

(** ** More sample data *)

Module Scenario.
Import Sample.

(** Cells 1 to 4, where cells 2 and 3 hide their source. *)
Definition hidden_middle : NotebookState.t :=
  notebook [cell 1 "scala" false [] false; cell 2 "scala" true [] false;
            cell 3 "scala" true [] false; cell 4 "python" false [] false] None.

Definition person : jsval :=
  VObj 7%positive {[ StrKey "name" := VStr "ada"; StrKey "age" := VNum 36 ]}.

(** A comment, as an object with an [id], and the comparison of two
    comments by their [id]. *)
Definition comment (r : ref) (id : Z) : jsval := VObj r {[ StrKey "id" := VNum id ]}.

Definition same_id (a b : jsval) : bool :=
  match a, b with
  | VObj _ m, VObj _ m' =>
      match m !! StrKey "id", m' !! StrKey "id" with
      | Some x, Some y => strict_eq x y
      | _, _ => false
      end
  | _, _ => false
  end.

End Scenario.

(** * Properties *)

(** ** Arrays *)

Section ArrayFacts.
Implicit Types (arr items : list jsval) (v : jsval) (i idx : Z).

Lemma len_nonneg arr : 0 <= len arr.
Proof. unfold len. lia. Qed.

Lemma len_app arr items : len (arr ++ items) = len arr + len items.
Proof. unfold len. rewrite length_app. lia. Qed.

Lemma index_lookup arr i :
  0 <= i -> index arr i = default VUndefined (arr !! Z.to_nat i).
Proof. intros Hi. unfold index. by rewrite bool_decide_eq_true_2. Qed.

Lemma index_outside arr i : len arr <= i -> index arr i = VUndefined.
Proof.
  intros Hi. pose proof (len_nonneg arr). unfold len in *. rewrite index_lookup by lia.
  rewrite lookup_ge_None_2; [done | lia].
Qed.

Lemma index_negative arr i : i < 0 -> index arr i = VUndefined.
Proof. intros Hi. unfold index. rewrite bool_decide_eq_false_2; [done | lia]. Qed.

(** Removing one element at an index: what is before it and what is after
    it stay, in order; past the end nothing is removed. *)
Lemma splice_remove arr idx :
  0 <= idx ->
  (splice arr idx 1 []).2 = take (Z.to_nat idx) arr ++ drop (S (Z.to_nat idx)) arr.
Proof.
  intros Hidx. unfold splice, splice_start, len. simpl.
  rewrite bool_decide_eq_false_2 by lia.
  destruct (decide (idx < Z.of_nat (length arr))) as [Hin | Hout].
  - rewrite Z.min_l by lia.
    replace (Z.to_nat (idx + Z.min (Z.max 1 0) (Z.of_nat (length arr) - idx)))
      with (S (Z.to_nat idx)) by lia.
    done.
  - rewrite Z.min_r by lia.
    rewrite !take_ge, !drop_ge by lia. done.
Qed.

(** A negative start counts from the end of the array (and stops at its
    start): one element is removed there, if the array has one. *)
Lemma splice_remove_from_end arr idx :
  idx < 0 ->
  let start := Z.to_nat (Z.max (len arr + idx) 0) in
  (splice arr idx 1 []).2 = take start arr ++ drop (S start) arr.
Proof.
  intros Hidx start. subst start. unfold splice, splice_start, len. simpl.
  rewrite bool_decide_eq_true_2 by lia.
  destruct arr as [| x rest]; [by rewrite !take_nil, !drop_nil |].
  set (s := Z.max (Z.of_nat (length (x :: rest)) + idx) 0).
  assert (0 <= s < Z.of_nat (length (x :: rest))) as Hs by (subst s; cbn [length]; lia).
  rewrite (Z.min_l (Z.max 1 0)) by lia.
  replace (Z.to_nat (s + Z.max 1 0)) with (S (Z.to_nat s)) by lia.
  done.
Qed.

(** Inserting one element at an index of the array or at its end. *)
Lemma splice_insert arr idx v :
  0 <= idx <= len arr ->
  (splice arr idx 0 [v]).2 = take (Z.to_nat idx) arr ++ v :: drop (Z.to_nat idx) arr.
Proof.
  intros Hidx. unfold splice, splice_start, len in *. simpl.
  rewrite bool_decide_eq_false_2 by lia.
  rewrite Z.min_l by lia.
  replace (Z.to_nat (idx + Z.min (Z.max 0 0) (Z.of_nat (length arr) - idx)))
    with (Z.to_nat idx) by lia.
  done.
Qed.

Lemma insert_lookup_before arr idx v (i : nat) :
  0 <= idx <= len arr -> (Z.of_nat i < idx) ->
  (take (Z.to_nat idx) arr ++ v :: drop (Z.to_nat idx) arr) !! i = arr !! i.
Proof.
  intros Hidx Hi. unfold len in *.
  rewrite lookup_app_l by (rewrite length_take; lia).
  apply lookup_take_lt. lia.
Qed.

Lemma insert_lookup_at arr idx v :
  0 <= idx <= len arr ->
  (take (Z.to_nat idx) arr ++ v :: drop (Z.to_nat idx) arr) !! Z.to_nat idx = Some v.
Proof.
  intros Hidx. unfold len in *.
  rewrite lookup_app_r by (rewrite length_take; lia).
  rewrite length_take. replace (Z.to_nat idx - _)%nat with 0%nat by lia. done.
Qed.

Lemma insert_lookup_after arr idx v (i : nat) :
  0 <= idx <= len arr -> (idx <= Z.of_nat i) ->
  (take (Z.to_nat idx) arr ++ v :: drop (Z.to_nat idx) arr) !! S i = arr !! i.
Proof.
  intros Hidx Hi. unfold len in *.
  rewrite lookup_app_r by (rewrite length_take; lia).
  rewrite length_take.
  replace (S i - _)%nat with (S (i - Z.to_nat idx)) by lia.
  simpl. rewrite lookup_drop. f_equal. lia.
Qed.

End ArrayFacts.

(** ** The array updates *)

Section ArrayUpdates.
Context `{ContentEdits} `{Prototypes}.
Import Algebra.

(** What the field-update proxy of an array answers for an index between its
    bounds. *)
Lemma arrayFieldUpdates_within arr minIdx maxIdx indexShift i :
  minIdx <= i <= maxIdx ->
  fieldUpdates_has (arrayFieldUpdates arr minIdx maxIdx indexShift) (NumKey i) = true ∧
  fieldUpdates_get (arrayFieldUpdates arr minIdx maxIdx indexShift) (NumKey i)
  = Some (mkUpdateResult (setValue (index arr i)) (index arr i)
                         (index arr (i - indexShift)) None None None).
Proof.
  intros [Hlo Hhi]. simpl.
  rewrite !bool_decide_eq_true_2 by done. done.
Qed.

(** [RemoveValue] on an array that holds the value at the index. *)
Lemma RemoveValue_applyMutate_present (r : ref) (arr : list jsval) (v : jsval) (idx : Z)
    (next : ref) :
  strict_eq (index arr idx) v = true → 0 <= idx →
  let arr' := take (Z.to_nat idx) arr ++ drop (S (Z.to_nat idx)) arr in
  RemoveValue_applyMutate v idx (VArr r arr) next
  = mkPost (RemoveValue v idx) (VArr r arr') next
      (Returned (mkUpdateResult (RemoveValue v idx) (VArr r arr') VUndefined
                   (Some {[ NumKey idx := v ]}) None
                   (Some (arrayFieldUpdates arr' idx (len arr) (-1))))).
Proof.
  intros Heq Hidx arr'. subst arr'. unfold RemoveValue_applyMutate.
  rewrite Heq. cbn [negb]. by rewrite splice_remove.
Qed.

(** [RemoveValue] on an array that holds something else there. *)
Lemma RemoveValue_applyMutate_stale (r : ref) (arr : list jsval) (v : jsval) (idx : Z)
    (next : ref) :
  strict_eq (index arr idx) v = false →
  RemoveValue_applyMutate v idx (VArr r arr) next
  = mkPost (RemoveValue v idx) (VArr r arr) next
      (Thrown (Error "RemoveValue is no longer valid as array has changed")).
Proof. intros Hne. unfold RemoveValue_applyMutate. by rewrite Hne. Qed.

(** [RemoveValue] with an index before the array: the guard reads
    [undefined] there, and [splice] counts the index from the end. *)
Lemma RemoveValue_applyMutate_negative (r : ref) (arr : list jsval) (v : jsval) (idx : Z)
    (next : ref) :
  strict_eq (index arr idx) v = true → idx < 0 →
  let start := Z.to_nat (Z.max (len arr + idx) 0) in
  let arr' := take start arr ++ drop (S start) arr in
  v = VUndefined ∧
  RemoveValue_applyMutate v idx (VArr r arr) next
  = mkPost (RemoveValue v idx) (VArr r arr') next
      (Returned (mkUpdateResult (RemoveValue v idx) (VArr r arr') VUndefined
                   (Some {[ NumKey idx := v ]}) None
                   (Some (arrayFieldUpdates arr' idx (len arr) (-1))))).
Proof.
  intros Heq Hidx start arr'. subst start arr'. split.
  - rewrite index_negative in Heq by done. by destruct v.
  - unfold RemoveValue_applyMutate. rewrite Heq. cbn [negb].
    by rewrite splice_remove_from_end.
Qed.

(** C2. [RemoveValue(v, idx).applyMutate(arr)] throws exactly when
    [arr[idx] !== v]: it then throws the [Error] "RemoveValue is no longer
    valid as array has changed" and leaves the array and the update as they
    were.  When [arr[idx] === v], for an index [0 <= idx], the array has
    lost the element at [idx] (what was before and after it stays, in
    order), [removedValues] is [{idx: v}], and the field updates report
    every index from [idx] to the old length as changed, with index shift
    -1.  For an index [idx < 0] the guard reads [undefined], so that it only
    lets [v = undefined] pass, and [splice] counts the index from the end:
    the array loses its element at [max (length + idx) 0], if it has one,
    while [removedValues] is still [{idx: undefined}]. *)
Theorem RemoveValue_applyMutate_spec (r : ref) (arr : list jsval) (v : jsval) (idx : Z)
    (next : ref) :
  let p := RemoveValue_applyMutate v idx (VArr r arr) next in
  ((∃ e, outcome p = Thrown e) ↔ strict_eq (index arr idx) v = false) ∧
  (strict_eq (index arr idx) v = false →
     outcome p = Thrown (Error "RemoveValue is no longer valid as array has changed") ∧
     receiver_after p = VArr r arr ∧ this_after p = RemoveValue v idx) ∧
  (strict_eq (index arr idx) v = true → 0 <= idx →
     let arr' := take (Z.to_nat idx) arr ++ drop (S (Z.to_nat idx)) arr in
     receiver_after p = VArr r arr' ∧
     outcome p = Returned (mkUpdateResult (RemoveValue v idx) (VArr r arr') VUndefined
                             (Some {[ NumKey idx := v ]}) None
                             (Some (arrayFieldUpdates arr' idx (len arr) (-1)))) ∧
     ∀ i, idx <= i <= len arr →
       fieldUpdates_has (arrayFieldUpdates arr' idx (len arr) (-1)) (NumKey i) = true ∧
       fieldUpdates_get (arrayFieldUpdates arr' idx (len arr) (-1)) (NumKey i)
       = Some (mkUpdateResult (setValue (index arr' i)) (index arr' i)
                              (index arr' (i - -1)) None None None)) ∧
  (strict_eq (index arr idx) v = true → idx < 0 →
     let start := Z.to_nat (Z.max (len arr + idx) 0) in
     let arr' := take start arr ++ drop (S start) arr in
     v = VUndefined ∧
     receiver_after p = VArr r arr' ∧
     outcome p = Returned (mkUpdateResult (RemoveValue v idx) (VArr r arr') VUndefined
                             (Some {[ NumKey idx := v ]}) None
                             (Some (arrayFieldUpdates arr' idx (len arr) (-1))))).
Proof.
  intros p. subst p.
  destruct (strict_eq (index arr idx) v) eqn:Heq.
  - split; [| split; [discriminate | split]].
    + split; [| discriminate]. intros [e He]. revert He.
      unfold RemoveValue_applyMutate. rewrite Heq. discriminate.
    + intros _ Hidx. rewrite RemoveValue_applyMutate_present by done.
      split; [done |]. split; [done |].
      intros i Hi. by apply arrayFieldUpdates_within.
    + intros _ Hidx.
      destruct (RemoveValue_applyMutate_negative r arr v idx next Heq Hidx) as [Hv ->].
      done.
  - rewrite RemoveValue_applyMutate_stale by done.
    split; [split; [done | by eexists] |]. split; [done |]. split; discriminate.
Qed.

Lemma strict_eq_refl (v : jsval) : strict_eq v v = true.
Proof. destruct v; cbn; try done; by apply bool_decide_eq_true_2. Qed.

Lemma findIndex_from_range (p : jsval → bool) (arr : list jsval) (i : Z) :
  findIndex_from p arr i = -1 ∨ i <= findIndex_from p arr i.
Proof.
  revert i. induction arr as [| x rest IH]; intros i; cbn; [by left |].
  destruct (p x); [right; lia |]. destruct (IH (i + 1)) as [-> | Hle]; [by left | right; lia].
Qed.

(** The constructors that take the index from the array only build a
    [RemoveValue] for an index of the array. *)
Lemma removeFromArray_index (arr : list jsval) (value : jsval)
    (compare : option (jsval → jsval → bool)) (v : jsval) (idx : Z) :
  removeFromArray arr value compare = RemoveValue v idx → 0 <= idx.
Proof.
  unfold removeFromArray. case_bool_decide; [| done]. intros [= _ <-]. lia.
Qed.

Lemma removeIndex_index (arr : list jsval) (index : Z) (v : jsval) (idx : Z) :
  removeIndex arr index = RemoveValue v idx → 0 <= idx < len arr.
Proof.
  unfold removeIndex. do 2 case_bool_decide; try done. intros [= _ <-]. lia.
Qed.

(** [removeIndex(arr, i)] applies to the array it was built from. *)
Lemma removeIndex_applies (r : ref) (arr : list jsval) (i : Z) (next : ref) :
  0 <= i < len arr →
  receiver_after (applyMutate (removeIndex arr i) (VArr r arr) next)
  = VArr r (take (Z.to_nat i) arr ++ drop (S (Z.to_nat i)) arr).
Proof.
  intros Hi. unfold removeIndex. rewrite !bool_decide_eq_true_2 by lia.
  cbn [andb applyMutate].
  rewrite RemoveValue_applyMutate_present; [done | apply strict_eq_refl | lia].
Qed.

End ArrayUpdates.

Section ArrayUpdateExamples.
Import Algebra Sample.

(** The update applies when the element is there, and removes it. *)
Lemma RemoveValue_applyMutate_witness :
  outcome (RemoveValue_applyMutate (VStr "b") 1 (VArr 7%positive Sample.abc) 1%positive)
  = Returned (mkUpdateResult (RemoveValue (VStr "b") 1)
                (VArr 7%positive [VStr "a"; VStr "c"]) VUndefined
                (Some {[ NumKey 1 := VStr "b" ]}) None
                (Some (arrayFieldUpdates [VStr "a"; VStr "c"] 1 3 (-1)))).
Proof.
  destruct (RemoveValue_applyMutate_spec 7%positive Sample.abc (VStr "b") 1 1%positive)
    as (_ & _ & Hok & _).
  destruct (Hok eq_refl ltac:(lia)) as (_ & Hres & _).
  exact Hres.
Defined.

(** It throws when another element is there, and the array stays. *)
Example RemoveValue_stale :
  RemoveValue_applyMutate (VStr "b") 0 (VArr 7%positive Sample.abc) 1%positive
  = mkPost (RemoveValue (VStr "b") 0) (VArr 7%positive Sample.abc) 1%positive
      (Thrown (Error "RemoveValue is no longer valid as array has changed")).
Proof. reflexivity. Qed.

(** [RemoveValue(undefined, -1)] applied to ["a", "b", "c"]: the guard
    finds [undefined] at -1 and lets the update pass; the call returns and
    reports [{-1: undefined}] as removed, while the array has lost "c", so
    that what is left is not the array without one element identical to
    [undefined]. *)
Lemma RemoveValue_negative_index :
  let p := RemoveValue_applyMutate VUndefined (-1) (VArr 7%positive Sample.abc) 1%positive in
  strict_eq (index Sample.abc (-1)) VUndefined = true ∧
  receiver_after p = VArr 7%positive [VStr "a"; VStr "b"] ∧
  (∃ result, outcome p = Returned result ∧
             removedValues result = Some {[ NumKey (-1) := VUndefined ]}) ∧
  ¬ (∃ before after,
       Sample.abc = before ++ VUndefined :: after ∧
       receiver_after p = VArr 7%positive (before ++ after)).
Proof.
  cbn zeta. split; [reflexivity |]. split; [reflexivity |]. split; [by eexists |].
  intros (before & after & Habc & _).
  assert (VUndefined ∈ Sample.abc) as Hin.
  { rewrite Habc. apply elem_of_app. right. by left. }
  unfold Sample.abc in Hin.
  repeat (apply elem_of_cons in Hin as [Hin | Hin]; [discriminate |]).
  by apply elem_of_nil in Hin.
Qed.

End ArrayUpdateExamples.

Section InsertValueFacts.
Context `{ContentEdits} `{Prototypes}.
Import Algebra.

(** With a target index from 1 to the length, the value is spliced in at
    that index: what was before it stays, what was at or after it moves up by
    one; [addedValues] names the index, and the field updates report every
    index from it to the new length with index shift +1. *)
Lemma InsertValue_applyMutate_within (r : ref) (arr : list jsval) (v : jsval) (idx : Z)
    (next : ref) :
  1 <= idx <= len arr ->
  let arr' := take (Z.to_nat idx) arr ++ v :: drop (Z.to_nat idx) arr in
  InsertValue_applyMutate v (Some idx) (VArr r arr) next
  = mkPost (InsertValue v (Some idx)) (VArr r arr') next
      (Returned (mkUpdateResult (InsertValue v (Some idx)) (VArr r arr') VUndefined
                   None (Some {[ NumKey idx := v ]})
                   (Some (arrayFieldUpdates arr' idx (len arr + 1) 1)))).
Proof.
  intros Hidx arr'. subst arr'.
  unfold InsertValue_applyMutate, InsertValue_mutate, InsertValue_result, targetIndex_truthy.
  rewrite bool_decide_eq_false_2 by lia. cbn [negb default from_option id fst snd].
  rewrite splice_insert by lia.
  replace (len (take (Z.to_nat idx) arr ++ v :: drop (Z.to_nat idx) arr)) with (len arr + 1).
  - done.
  - unfold len in *. rewrite length_app, length_take. cbn [length]. rewrite length_drop. lia.
Qed.

(** Without a target index the value is appended, and the update records the
    index at which it put it. *)
Lemma InsertValue_applyMutate_append (r : ref) (arr : list jsval) (v : jsval) (next : ref) :
  InsertValue_applyMutate v None (VArr r arr) next
  = mkPost (InsertValue v (Some (len arr))) (VArr r (arr ++ [v])) next
      (Returned (mkUpdateResult (InsertValue v (Some (len arr))) (VArr r (arr ++ [v]))
                   VUndefined None (Some {[ NumKey (len arr) := v ]})
                   (Some (arrayFieldUpdates (arr ++ [v]) (len arr) (len arr + 1) 1)))).
Proof.
  unfold InsertValue_applyMutate, InsertValue_mutate, InsertValue_result, push.
  cbn [targetIndex_truthy default from_option id fst snd].
  by rewrite len_app.
Qed.

(** C5. With the target index 0 the test [if (this._targetIndex)] fails as it
    does for an omitted index: [InsertValue(v, 0)] appends [v] at the end of
    the array, overwrites its own target index with the old length, and still
    reports [addedValues = {0: v}]. *)
Theorem InsertValue_applyMutate_zero (r : ref) (arr : list jsval) (v : jsval) (next : ref) :
  InsertValue_applyMutate v (Some 0) (VArr r arr) next
  = mkPost (InsertValue v (Some (len arr))) (VArr r (arr ++ [v])) next
      (Returned (mkUpdateResult (InsertValue v (Some (len arr))) (VArr r (arr ++ [v]))
                   VUndefined None (Some {[ NumKey 0 := v ]})
                   (Some (arrayFieldUpdates (arr ++ [v]) 0 (len arr + 1) 1)))).
Proof.
  unfold InsertValue_applyMutate, InsertValue_mutate, InsertValue_result, push.
  cbn [targetIndex_truthy default from_option id fst snd].
  rewrite bool_decide_eq_true_2 by done. cbn [negb fst snd].
  by rewrite len_app.
Qed.

End InsertValueFacts.

Section InsertValueExamples.
Import Algebra Sample.

(** [new InsertValue("x", 0).applyMutate(["a", "b"])] leaves ["a", "b", "x"],
    not ["x", "a", "b"]. *)
Example InsertValue_zero_on_two :
  receiver_after
    (InsertValue_applyMutate (VStr "x") (Some 0) (VArr 7%positive [VStr "a"; VStr "b"])
       1%positive)
  = VArr 7%positive [VStr "a"; VStr "b"; VStr "x"].
Proof. reflexivity. Qed.

Example InsertValue_one_on_two :
  receiver_after
    (InsertValue_applyMutate (VStr "x") (Some 1) (VArr 7%positive [VStr "a"; VStr "b"])
       1%positive)
  = VArr 7%positive [VStr "a"; VStr "x"; VStr "b"].
Proof. reflexivity. Qed.

End InsertValueExamples.

(** ** Removing a key *)

Section RemoveKeyFacts.
Context `{ContentEdits} `{Prototypes}.
Import Algebra.

(** [RemoveKey] on an object or an array that has no property [key], its
    own or inherited. *)
Lemma RemoveKey_applyMutate_absent (key : PropertyKey) (_value value : jsval) (next : ref) :
  typeof_object value = true → find_property value key = None →
  RemoveKey_applyMutate key _value value next
  = mkPost (RemoveKey key _value) value next (Returned (noChange value)).
Proof.
  intros Hobject Hnone. unfold RemoveKey_applyMutate, in_operator. rewrite Hnone.
  destruct value; try done.
Qed.

(** [RemoveKey] on an object or an array that has the property and lets it
    be deleted. *)
Lemma RemoveKey_applyMutate_found (key : PropertyKey) (_value value value' oldValue : jsval)
    (next : ref) :
  value ≠ VNull → typeof_object value = true →
  find_property value key = Some oldValue → delete_property value key = Returned value' →
  RemoveKey_applyMutate key _value value next
  = mkPost (RemoveKey key _value) value' next
      (Returned (mkUpdateResult (RemoveKey key _value) value' VUndefined
                   (Some {[ key := oldValue ]}) None
                   (Some (FieldDict {[ key := destroyed oldValue ]})))).
Proof.
  intros Hnull Hobject Hsome Hdelete. unfold RemoveKey_applyMutate, in_operator.
  rewrite Hsome, Hdelete. rewrite bool_decide_eq_true_2 by eauto.
  destruct value; try done.
Qed.

(** C10.  [RemoveKey(k).applyMutate(v)] itself stays as it is.  It throws
    exactly when [v] is a boolean, a number or a string ([in] refuses
    them), or an array and [k] is [length] (which [delete] refuses); what it
    throws is a [TypeError], and [v] is as it was.  When [v] is [null] or
    [undefined], or an object or an array that has no property [k], neither
    its own nor inherited, it returns the [NoUpdate] result and [v] is as it
    was.  When [k] is an own key of an object, the object loses the field,
    the result lists the old value in [removedValues], and the field update
    of the key is the [Destroy] result of that value.  When an object or an
    array only inherits [k], the result reports the inherited value in the
    same way although nothing is deleted.  When [k] is an index of an array,
    the result reports the element, and the array keeps its length and reads
    [undefined] at the index. *)
Theorem RemoveKey_applyMutate_spec (key : PropertyKey) (_value value : jsval) (next : ref) :
  let p := RemoveKey_applyMutate key _value value next in
  let removed oldValue value' :=
    Returned (mkUpdateResult (RemoveKey key _value) value' VUndefined
                (Some {[ key := oldValue ]}) None
                (Some (FieldDict {[ key := destroyed oldValue ]}))) in
  this_after p = RemoveKey key _value ∧
  ((∃ e, outcome p = Thrown e) ↔
     (∃ b, value = VBool b) ∨ (∃ n, value = VNum n) ∨ (∃ s, value = VStr s) ∨
     (∃ r l, value = VArr r l ∧ key = StrKey "length")) ∧
  ((∃ e, outcome p = Thrown e) →
     outcome p = Thrown TypeError ∧ receiver_after p = value) ∧
  (value = VNull ∨ value = VUndefined ∨
   (typeof_object value = true ∧ find_property value key = None) →
     receiver_after p = value ∧ outcome p = Returned (noChange value) ∧
     update (noChange value) = NoUpdate ∧ newValue (noChange value) = value) ∧
  (∀ r m oldValue, value = VObj r m → m !! key = Some oldValue →
     receiver_after p = VObj r (delete key m) ∧
     outcome p = removed oldValue (VObj r (delete key m)) ∧
     update (destroyed oldValue) = Destroy) ∧
  (∀ r m oldValue, value = VObj r m → m !! key = None → Object_prototype key = Some oldValue →
     receiver_after p = value ∧ outcome p = removed oldValue value) ∧
  (∀ r l oldValue,
     value = VArr r l → hasOwnProperty value key = false → key ≠ StrKey "length" →
     find_property value key = Some oldValue →
     receiver_after p = value ∧ outcome p = removed oldValue value) ∧
  (∀ r l i, value = VArr r l → key = NumKey i → 0 <= i < len l →
     ∃ l', receiver_after p = VArr r l' ∧
           outcome p = removed (index l i) (VArr r l') ∧
           len l' = len l ∧ index l' i = VUndefined ∧
           ∀ j, j ≠ i → index l' j = index l j).
Proof.
  intros p removed. subst p removed. cbn beta.
  split; [| split; [| split; [| split; [| split; [| split; [| split]]]]]].
  - unfold RemoveKey_applyMutate, in_operator.
    destruct value; try done;
      (case_bool_decide; [| done]); by destruct (delete_property _ _).
  - unfold RemoveKey_applyMutate, in_operator. split.
    + intros [e He]. destruct value as [| | b | n | str | r l | r m]; try done; eauto 6.
      * right; right; right. exists r, l. split; [done |].
        revert He. case_bool_decide; [| done]. cbn [delete_property].
        destruct key as [name | i]; [| by destruct (hasOwnProperty _ _)].
        case_bool_decide; [by subst | done].
      * revert He. by case_bool_decide.
    + intros [[b ->] | [[n ->] | [[str ->] | (r & l & -> & ->)]]]; by eexists.
  - unfold RemoveKey_applyMutate, in_operator. intros [e He].
    destruct value as [| | b | n | str | r l | r m]; try done.
    + revert He. case_bool_decide; [| done]. cbn [delete_property].
      destruct key as [name | i]; [| by destruct (hasOwnProperty _ _)].
      by case_bool_decide.
    + revert He. by case_bool_decide.
  - intros [-> | [-> | [Hobject Hnone]]]; [done | done |].
    by rewrite RemoveKey_applyMutate_absent.
  - intros r m oldValue -> Hkey.
    rewrite (RemoveKey_applyMutate_found key _value (VObj r m) (VObj r (delete key m)) oldValue);
      [done | done | done | | done].
    cbn [find_property]. by rewrite Hkey.
  - intros r m oldValue -> Hkey Hproto.
    assert (delete key m = m) as Hsame by (by apply delete_id).
    rewrite (RemoveKey_applyMutate_found key _value (VObj r m) (VObj r m) oldValue);
      [done | done | done | | ].
    + cbn [find_property]. by rewrite Hkey.
    + cbn [delete_property]. by rewrite Hsame.
  - intros r l oldValue -> Hown Hlength Hfound.
    rewrite (RemoveKey_applyMutate_found key _value (VArr r l) (VArr r l) oldValue);
      [done | done | done | done |].
    cbn [delete_property]. destruct key as [name | i]; [| by rewrite Hown].
    rewrite bool_decide_eq_false_2; [done | congruence].
  - intros r l i -> -> Hi.
    assert (hasOwnProperty (VArr r l) (NumKey i) = true) as Hown.
    { cbn. by rewrite !bool_decide_eq_true_2 by lia. }
    exists (<[Z.to_nat i:=VUndefined]> l).
    rewrite (RemoveKey_applyMutate_found (NumKey i) _value (VArr r l)
               (VArr r (<[Z.to_nat i:=VUndefined]> l)) (index l i));
      [| done | done | | ].
    + split; [done |]. split; [done |]. unfold len in *. split; [by rewrite length_insert |].
      split.
      * rewrite index_lookup by lia. rewrite list_lookup_insert_eq by lia. done.
      * intros j Hj. unfold index. case_bool_decide; [| done].
        rewrite list_lookup_insert_ne by lia. done.
    + cbn [find_property]. by rewrite Hown.
    + cbn [delete_property]. by rewrite Hown.
Qed.

End RemoveKeyFacts.

Section RemoveKeyExamples.
Import Algebra Sample.

Lemma RemoveKey_applyMutate_witness :
  receiver_after
    (RemoveKey_applyMutate (StrKey "a") VUndefined
       (VObj 7%positive {[ StrKey "a" := VNum 1 ]}) 1%positive)
  = VObj 7%positive (delete (StrKey "a") {[ StrKey "a" := VNum 1 ]}).
Proof.
  destruct (RemoveKey_applyMutate_spec (StrKey "a") VUndefined
              (VObj 7%positive {[ StrKey "a" := VNum 1 ]}) 1%positive)
    as (_ & _ & _ & _ & Hpresent & _).
  destruct (Hpresent 7%positive {[ StrKey "a" := VNum 1 ]} (VNum 1) eq_refl eq_refl)
    as (Hreceiver & _).
  exact Hreceiver.
Defined.

(** [RemoveKey("a")] applied to the number 5 throws. *)
Lemma RemoveKey_applyMutate_number :
  RemoveKey_applyMutate (StrKey "a") VUndefined (VNum 5) 1%positive
  = mkPost (RemoveKey (StrKey "a") VUndefined) (VNum 5) 1%positive (Thrown TypeError).
Proof. reflexivity. Qed.

(** An object without fields still answers for [toString]: the result
    reports the inherited function as removed, and nothing is deleted. *)
Example RemoveKey_inherited :
  ∃ f, Object_prototype (StrKey "toString") = Some f ∧
       RemoveKey_applyMutate (StrKey "toString") VUndefined (VObj 7%positive ∅) 1%positive
       = mkPost (RemoveKey (StrKey "toString") VUndefined) (VObj 7%positive ∅) 1%positive
           (Returned (mkUpdateResult (RemoveKey (StrKey "toString") VUndefined)
                        (VObj 7%positive ∅) VUndefined
                        (Some {[ StrKey "toString" := f ]}) None
                        (Some (FieldDict {[ StrKey "toString" := destroyed f ]})))).
Proof. eexists. split; reflexivity. Qed.

(** An array without the key is left alone. *)
Example RemoveKey_array_absent :
  RemoveKey_applyMutate (StrKey "x") VUndefined (VArr 7%positive abc) 1%positive
  = mkPost (RemoveKey (StrKey "x") VUndefined) (VArr 7%positive abc) 1%positive
      (Returned (noChange (VArr 7%positive abc))).
Proof. reflexivity. Qed.

(** An array that loses an index reads [undefined] there. *)
Example RemoveKey_array_index :
  receiver_after (RemoveKey_applyMutate (NumKey 1) VUndefined (VArr 7%positive abc) 1%positive)
  = VArr 7%positive [VStr "a"; VUndefined; VStr "c"].
Proof. reflexivity. Qed.

(** The [length] of an array cannot be deleted. *)
Example RemoveKey_array_length :
  RemoveKey_applyMutate (StrKey "length") VUndefined (VArr 7%positive abc) 1%positive
  = mkPost (RemoveKey (StrKey "length") VUndefined) (VArr 7%positive abc) 1%positive
      (Thrown TypeError).
Proof. reflexivity. Qed.

Example RemoveKey_absent :
  RemoveKey_applyMutate (StrKey "b") VUndefined
    (VObj 7%positive {[ StrKey "a" := VNum 1 ]}) 1%positive
  = mkPost (RemoveKey (StrKey "b") VUndefined) (VObj 7%positive {[ StrKey "a" := VNum 1 ]})
      1%positive (Returned (noChange (VObj 7%positive {[ StrKey "a" := VNum 1 ]}))).
Proof. reflexivity. Qed.

End RemoveKeyExamples.

(** ** What applying an update does to the update itself *)

Section UpdateItself.
Context `{ContentEdits} `{Prototypes}.
Import Algebra.

(** Induction over updates, with the updates of an [UpdateWith] dictionary
    as sub-updates. *)
Lemma Update_nested_ind (P : Update → Prop) :
  P NoUpdate →
  (∀ key _value, P (RemoveKey key _value)) →
  (∀ key _update, P _update → P (UpdateKey key _update)) →
  (∀ value _index, P (RemoveValue value _index)) →
  (∀ value _targetIndex, P (InsertValue value _targetIndex)) →
  (∀ fromIndex toIndex, P (MoveArrayValue fromIndex toIndex)) →
  (∀ oldKey newKey, P (RenameKey oldKey newKey)) →
  P Destroy →
  (∀ value, P (SetValue value)) →
  (∀ edits, P (EditString edits)) →
  (∀ updates _removedValues,
     Forall (fun p => P p.2) updates → P (UpdateWith (Partial updates) _removedValues)) →
  (∀ updates _removedValues, P (UpdateWith (Direct updates) _removedValues)) →
  ∀ u, P u.
Proof.
  intros HNo HRemoveKey HUpdateKey HRemoveValue HInsert HMove HRename HDestroy HSet HEdit
    HPartial HDirect.
  fix IH 1. intros u.
  destruct u as [| | key c | | | | | | | | fus rm].
  - exact HNo.
  - apply HRemoveKey.
  - apply HUpdateKey, IH.
  - apply HRemoveValue.
  - apply HInsert.
  - apply HMove.
  - apply HRename.
  - exact HDestroy.
  - apply HSet.
  - apply HEdit.
  - destruct fus as [updates | updates]; [apply HPartial | apply HDirect].
    induction updates as [| [key c] rest IHrest]; constructor; [apply IH | exact IHrest].
Qed.

(** The loop of [UpdateWith] hands back the updates it was given when
    applying each of them leaves it as it was. *)
Lemma UpdateWith_loop_this (apply : Update → jsval → ref → Post)
    (props : list (PropertyKey * Update)) :
  Forall (fun p => ∀ value next, this_after (apply p.2 value next) = p.2) props →
  ∀ acc next, (UpdateWith_loop apply props acc next).1.1.1 = props.
Proof.
  induction 1 as [| [key c] rest Hc _ IH]; intros acc next; cbn [UpdateWith_loop].
  - done.
  - destruct (get_field (loop_value acc) key) as [child | e]; [| done].
    cbn zeta. cbn [snd] in Hc.
    destruct (outcome (apply c child next)) as [updateResult | e].
    + destruct (set_field _ key (newValue updateResult)) as [value2 | e].
      * match goal with
        | |- context [UpdateWith_loop apply rest ?a ?n] =>
            specialize (IH a n); destruct (UpdateWith_loop apply rest a n) as [[[rest' acc2] next2] e]
        end.
        cbn [fst] in *. by rewrite Hc, IH.
      * cbn [fst]. by rewrite Hc.
    + cbn [fst]. by rewrite Hc.
Qed.

(** An update in which every [InsertValue] has a truthy target index is not
    changed by its application, whatever the receiver and however the call
    completes. *)
Lemma applyMutate_explicit_indices (u : Update) :
  explicit_indices u = true →
  ∀ value next, this_after (applyMutate u value next) = u.
Proof.
  induction u as [| key _v | key c IHc | v idx | v t | from to | old new | | v | edits
                 | updates rm IHupdates | updates rm]
    using Update_nested_ind; intros Hexplicit value next; cbn [applyMutate].
  - done.
  - unfold RemoveKey_applyMutate, in_operator.
    destruct value; try done; (case_bool_decide; [| done]); by destruct (delete_property _ _).
  - cbn [explicit_indices] in Hexplicit.
    destruct (get_field value key) as [child | e]; [| done].
    cbn zeta. specialize (IHc Hexplicit child next).
    destruct (outcome (applyMutate c child next)) as [childResult | e].
    + destruct (is_NoUpdate (update childResult)); [cbn [this_after]; by rewrite IHc |].
      destruct (set_field _ key _); cbn [this_after]; by rewrite IHc.
    + cbn [this_after]. by rewrite IHc.
  - unfold RemoveValue_applyMutate. destruct value; try done.
    by destruct (negb _).
  - cbn [explicit_indices] in Hexplicit.
    unfold InsertValue_applyMutate, InsertValue_mutate.
    rewrite Hexplicit. by destruct value.
  - unfold MoveArrayValue_applyMutate. by destruct value.
  - unfold RenameKey_applyMutate. by destruct value.
  - done.
  - unfold SetValue_applyMutate. destruct (strict_eq value v); [done |].
    by destruct (typeof_object value || typeof_object v).
  - unfold EditString_applyMutate. destruct edits; [done |]. by destruct value.
  - cbn [explicit_indices] in Hexplicit.
    assert (Forall (fun p => ∀ value next, this_after (applyMutate p.2 value next) = p.2)
              updates) as Hall.
    { rewrite Forall_forall in IHupdates. apply Forall_forall. intros [key c] Hin.
      apply (IHupdates _ Hin). cbn [snd].
      rewrite forallb_forall in Hexplicit.
      apply list_elem_of_In in Hin. exact (Hexplicit _ Hin). }
    match goal with
    | |- context [UpdateWith_loop applyMutate updates ?a ?n] =>
        pose proof (UpdateWith_loop_this applyMutate updates Hall a n) as Hloop;
        destruct (UpdateWith_loop applyMutate updates a n) as [[[updates' acc] next1] e]
    end.
    cbn [fst] in Hloop. subst updates'.
    destruct e as [e |]; [done |]. by destruct (anyChanged acc).
  - destruct (typeof_object updates).
    + by destruct (bool_decide _).
    + by destruct (strict_eq value updates).
Qed.

(** C6, amended.  Applying an update leaves every field of it as it was when
    every [InsertValue] in it was constructed with a target index (other than
    0); an [InsertValue] constructed without a target index is the one update
    that changes: applied to an array, or to [undefined], it keeps its value
    and takes as its target index the length that the array had. *)
Theorem applyMutate_this (u : Update) (value : jsval) (next : ref) :
  (explicit_indices u = true → this_after (applyMutate u value next) = u) ∧
  (∀ v r arr, u = InsertValue v None → value = VArr r arr →
     this_after (applyMutate u value next) = InsertValue v (Some (len arr))) ∧
  (∀ v, u = InsertValue v None → value = VUndefined →
     this_after (applyMutate u value next) = InsertValue v (Some 0)).
Proof.
  split; [| split].
  - intros Hexplicit. by apply applyMutate_explicit_indices.
  - intros v r arr -> ->. cbn [applyMutate]. by rewrite InsertValue_applyMutate_append.
  - intros v -> ->. done.
Qed.

End UpdateItself.

Section UpdateItselfExamples.
Import Algebra Sample.

Lemma applyMutate_this_witness :
  this_after
    (applyMutate (UpdateKey (StrKey "cellOrder") (InsertValue (VNum 3) (Some 1)))
       (VObj 7%positive {[ StrKey "cellOrder" := VArr 8%positive [VNum 1; VNum 2] ]})
       9%positive)
  = UpdateKey (StrKey "cellOrder") (InsertValue (VNum 3) (Some 1)).
Proof.
  apply (applyMutate_this (UpdateKey (StrKey "cellOrder") (InsertValue (VNum 3) (Some 1)))
           (VObj 7%positive {[ StrKey "cellOrder" := VArr 8%positive [VNum 1; VNum 2] ]})
           9%positive).
  reflexivity.
Defined.

(** [append("x")] applied to ["a", "b", "c"] is afterwards an
    [InsertValue("x", 3)]: its application changed its target index. *)
Lemma applyMutate_changes_InsertValue :
  this_after (applyMutate (InsertValue (VStr "x") None) (VArr 7%positive abc) 1%positive)
  = InsertValue (VStr "x") (Some 3) ∧
  this_after (applyMutate (InsertValue (VStr "x") None) (VArr 7%positive abc) 1%positive)
  ≠ InsertValue (VStr "x") None.
Proof. split; [reflexivity | discriminate]. Qed.

(** Inside a dictionary of updates the same happens, also when a later
    update of the dictionary throws. *)
Example applyMutate_changes_nested :
  this_after
    (applyMutate
       (UpdateWith (Partial [(StrKey "output", InsertValue (VStr "x") None);
                             (StrKey "cellOrder", RemoveValue (VNum 5) 0)]) ∅)
       (VObj 7%positive {[ StrKey "output" := VArr 8%positive [];
                           StrKey "cellOrder" := VArr 9%positive [VNum 1] ]})
       10%positive)
  = UpdateWith (Partial [(StrKey "output", InsertValue (VStr "x") (Some 0));
                         (StrKey "cellOrder", RemoveValue (VNum 5) 0)]) ∅.
Proof. vm_compute. reflexivity. Qed.

End UpdateItselfExamples.

(** ** The update handler: publishing *)

Section Publishing.
Context `{Rebase}.
Import NotebookUpdateHandler.

Lemma published_localVersion (update : NotebookUpdate) (h : t) :
  localVersion (published update h) = Message.localVersion update.
Proof. done. Qed.

Lemma addUpdate_current (update : NotebookUpdate) (h : t) :
  Message.localVersion update = localVersion h →
  addUpdate update h = (Returned tt, published update h).
Proof.
  intros Hcurrent. unfold addUpdate, published, mbind, method_bind, this, assign, NotebookUpdateHandler.update.
  rewrite bool_decide_eq_false_2 by (intros Hne; by apply Hne).
  cbn. by rewrite Hcurrent.
Qed.

Lemma addUpdate_mismatch (update : NotebookUpdate) (h : t) :
  Message.localVersion update ≠ localVersion h →
  addUpdate update h
  = (Thrown (Error (mismatch (Message.localVersion update) (localVersion h))), h).
Proof.
  intros Hne. unfold addUpdate, mbind, method_bind, this, throw.
  by rewrite bool_decide_eq_true_2.
Qed.

(** C4. [addUpdate(m)] throws when the local version of [m] is not the local
    version of the handler, and then nothing of the handler has changed: not
    its edit buffer, not its published updates, not its versions; when the
    two are equal, [m] becomes the last entry of the edit buffer, under its
    local version, and the last of the published updates. *)
Theorem addUpdate_spec (update : NotebookUpdate) (h : t) :
  (Message.localVersion update ≠ localVersion h →
     addUpdate update h
     = (Thrown (Error (mismatch (Message.localVersion update) (localVersion h))), h)) ∧
  (Message.localVersion update = localVersion h →
     addUpdate update h
     = (Returned tt,
        mk (state h ++ [update]) (globalVersion h) (localVersion h)
           (edits h ++ [(Message.localVersion update, update)]))).
Proof.
  split.
  - apply addUpdate_mismatch.
  - intros Hcurrent. rewrite addUpdate_current by done.
    unfold published, EditBuffer.push. by rewrite Hcurrent.
Qed.

(** A method that takes the next local version and publishes under it. *)
Lemma publish_next (update : Z → Z → NotebookUpdate) (h : t) :
  (∀ g l, Message.localVersion (update g l) = l) →
  (incrementLocalVersion;; h ← this; addUpdate (update (globalVersion h) (localVersion h))) h
  = (Returned tt, published (update (globalVersion h) (localVersion h + 1)) h).
Proof.
  intros Hversion.
  unfold mbind, method_bind, incrementLocalVersion, assign, this. cbn.
  rewrite addUpdate_current by (by rewrite Hversion).
  unfold published. cbn. by rewrite !Hversion.
Qed.

(** A method that publishes under the current local version. *)
Lemma publish_current (update : Z → Z → NotebookUpdate) (h : t) :
  (∀ g l, Message.localVersion (update g l) = l) →
  (h ← this; addUpdate (update (globalVersion h) (localVersion h))) h
  = (Returned tt, published (update (globalVersion h) (localVersion h)) h).
Proof.
  intros Hversion. unfold mbind, method_bind, this.
  by rewrite addUpdate_current by (by rewrite Hversion).
Qed.

Lemma insertCell_publishes cellId language content metadata prevId (h : t) :
  insertCell cellId language content metadata prevId h
  = (Returned tt,
     published (InsertCell (globalVersion h) (localVersion h + 1)
                  (NotebookCell.mk _ cellId language content [] metadata) prevId) h).
Proof.
  exact (publish_next
           (fun g l => InsertCell g l (NotebookCell.mk _ cellId language content [] metadata)
                         prevId) h (fun _ _ => eq_refl)).
Qed.

Lemma deleteCell_publishes id (h : t) :
  deleteCell id h
  = (Returned tt, published (DeleteCell (globalVersion h) (localVersion h + 1) id) h).
Proof. exact (publish_next (fun g l => DeleteCell g l id) h (fun _ _ => eq_refl)). Qed.

Lemma updateCell_publishes id changed_edits changed_metadata (h : t) :
  updateCell id changed_edits changed_metadata h
  = (Returned tt,
     published (UpdateCell (globalVersion h) (localVersion h + 1) id
                  (default [] changed_edits) changed_metadata) h).
Proof.
  exact (publish_next (fun g l => UpdateCell g l id (default [] changed_edits) changed_metadata)
           h (fun _ _ => eq_refl)).
Qed.

Lemma updateConfig_publishes config (h : t) :
  updateConfig config h
  = (Returned tt, published (UpdateConfig (globalVersion h) (localVersion h + 1) config) h).
Proof. exact (publish_next (fun g l => UpdateConfig g l config) h (fun _ _ => eq_refl)). Qed.

Lemma createComment_publishes cellId comment (h : t) :
  createComment cellId comment h
  = (Returned tt,
     published (CreateComment (globalVersion h) (localVersion h) cellId comment) h).
Proof.
  exact (publish_current (fun g l => CreateComment g l cellId comment) h (fun _ _ => eq_refl)).
Qed.

Lemma deleteComment_publishes cellId commentId (h : t) :
  deleteComment cellId commentId h
  = (Returned tt,
     published (DeleteComment (globalVersion h) (localVersion h) cellId commentId) h).
Proof.
  exact (publish_current (fun g l => DeleteComment g l cellId commentId) h
           (fun _ _ => eq_refl)).
Qed.

Lemma updateComment_publishes cellId commentId range content (h : t) :
  updateComment cellId commentId range content h
  = (Returned tt,
     published (UpdateComment (globalVersion h) (localVersion h) cellId commentId range
                  content) h).
Proof.
  exact (publish_current (fun g l => UpdateComment g l cellId commentId range content) h
           (fun _ _ => eq_refl)).
Qed.

Lemma setCellOutput_publishes cellId output (h : t) :
  setCellOutput cellId output h
  = (Returned tt,
     published (SetCellOutput (globalVersion h) (localVersion h) cellId output) h).
Proof.
  exact (publish_current (fun g l => SetCellOutput g l cellId output) h (fun _ _ => eq_refl)).
Qed.

Lemma watchLanguage_publishes id lang (h : t) :
  watchLanguage id lang h
  = (Returned tt, published (SetCellLanguage (globalVersion h) (localVersion h) id lang) h).
Proof.
  exact (publish_current (fun g l => SetCellLanguage g l id lang) h (fun _ _ => eq_refl)).
Qed.

Lemma watchOutput_localVersion id added (h : t) :
  localVersion (watchOutput id added h).2 = localVersion h.
Proof.
  revert h. induction added as [| o rest IH]; intros h; [done |].
  cbn [watchOutput]. unfold mbind, method_bind, this.
  rewrite addUpdate_current by done. by rewrite IH.
Qed.

Lemma rebaseUpdate_localVersion update (h : t) :
  localVersion (rebaseUpdate update h).2 = localVersion h.
Proof.
  unfold rebaseUpdate, mbind, method_bind, assign, this. cbn.
  by destruct (bool_decide _).
Qed.

(** No call lowers the local version. *)
Lemma perform_localVersion (c : call) (h : t) :
  localVersion h <= localVersion (perform c h).
Proof.
  destruct c as [m | | | | | | | | | m | | | |]; cbn [perform].
  - destruct (decide (Message.localVersion m = localVersion h)) as [Heq | Hne].
    + rewrite addUpdate_current by done. cbn. lia.
    + by rewrite addUpdate_mismatch.
  - rewrite insertCell_publishes. cbn. lia.
  - rewrite deleteCell_publishes. cbn. lia.
  - rewrite updateCell_publishes. cbn. lia.
  - by rewrite createComment_publishes.
  - by rewrite deleteComment_publishes.
  - by rewrite updateComment_publishes.
  - by rewrite setCellOutput_publishes.
  - rewrite updateConfig_publishes. cbn. lia.
  - by rewrite rebaseUpdate_localVersion.
  - by rewrite watchOutput_localVersion.
  - by rewrite watchLanguage_publishes.
  - unfold watchOutgoingEdits. destruct (bool_decide _); [| done].
    rewrite updateCell_publishes. cbn. lia.
  - unfold watchMetadata. rewrite updateCell_publishes. cbn. lia.
Qed.

Lemma perform_all_localVersion (calls : list call) (h : t) :
  localVersion h <= localVersion (perform_all calls h).
Proof.
  revert h. induction calls as [| c rest IH]; intros h; cbn; [lia |].
  etrans; [apply (perform_localVersion c) | apply IH].
Qed.

(** C1, amended.  [insertCell], [deleteCell], [updateCell] and [updateConfig]
    raise the local version by exactly 1 and publish their message under the
    raised version; [createComment], [deleteComment], [updateComment],
    [setCellOutput] and the language observer publish their message under the
    current local version and leave it as it is; and no sequence of calls of
    the handler, rebases and rejected updates among them, lowers the local
    version. *)
Theorem localVersion_per_message (h : t) :
  (∀ cellId language content metadata prevId,
     insertCell cellId language content metadata prevId h
     = (Returned tt,
        published (InsertCell (globalVersion h) (localVersion h + 1)
                     (NotebookCell.mk _ cellId language content [] metadata) prevId) h)) ∧
  (∀ id,
     deleteCell id h
     = (Returned tt, published (DeleteCell (globalVersion h) (localVersion h + 1) id) h)) ∧
  (∀ id changed_edits changed_metadata,
     updateCell id changed_edits changed_metadata h
     = (Returned tt,
        published (UpdateCell (globalVersion h) (localVersion h + 1) id
                     (default [] changed_edits) changed_metadata) h)) ∧
  (∀ config,
     updateConfig config h
     = (Returned tt,
        published (UpdateConfig (globalVersion h) (localVersion h + 1) config) h)) ∧
  (∀ cellId comment,
     createComment cellId comment h
     = (Returned tt,
        published (CreateComment (globalVersion h) (localVersion h) cellId comment) h)) ∧
  (∀ cellId commentId,
     deleteComment cellId commentId h
     = (Returned tt,
        published (DeleteComment (globalVersion h) (localVersion h) cellId commentId) h)) ∧
  (∀ cellId commentId range content,
     updateComment cellId commentId range content h
     = (Returned tt,
        published (UpdateComment (globalVersion h) (localVersion h) cellId commentId range
                     content) h)) ∧
  (∀ cellId output,
     setCellOutput cellId output h
     = (Returned tt,
        published (SetCellOutput (globalVersion h) (localVersion h) cellId output) h)) ∧
  (∀ id lang,
     watchLanguage id lang h
     = (Returned tt,
        published (SetCellLanguage (globalVersion h) (localVersion h) id lang) h)) ∧
  (∀ update, localVersion (published update h) = Message.localVersion update) ∧
  (∀ calls, localVersion h <= localVersion (perform_all calls h)).
Proof.
  repeat split; intros.
  - apply insertCell_publishes.
  - apply deleteCell_publishes.
  - apply updateCell_publishes.
  - apply updateConfig_publishes.
  - apply createComment_publishes.
  - apply deleteComment_publishes.
  - apply updateComment_publishes.
  - apply setCellOutput_publishes.
  - apply watchLanguage_publishes.
  - apply perform_all_localVersion.
Qed.

End Publishing.

Section PublishingExamples.
Import Sample NotebookUpdateHandler.

Lemma addUpdate_witness :
  addUpdate (DeleteCell 3 (-1) 0) handler
  = (Returned tt,
     mk [DeleteCell 3 (-1) 0] (-1) (-1) [(-1, DeleteCell 3 (-1) 0)]) ∧
  addUpdate (DeleteCell 3 5 0) handler
  = (Thrown (Error "Update Version mismatch! Update had 5, but I had -1"), handler).
Proof.
  split.
  - apply (addUpdate_spec (DeleteCell 3 (-1) 0) handler). reflexivity.
  - apply (addUpdate_spec (DeleteCell 3 5 0) handler). discriminate.
Defined.

(** [createComment] on the handler of a new notebook publishes its message
    and leaves the local version at -1: the message did not raise it by 1. *)
Lemma createComment_keeps_localVersion :
  createComment 0 "comment"%string handler
  = (Returned tt,
     mk [CreateComment (-1) (-1) 0 "comment"%string] (-1) (-1)
        [(-1, CreateComment (-1) (-1) 0 "comment"%string)]) ∧
  localVersion (createComment 0 "comment"%string handler).2 ≠ localVersion handler + 1.
Proof. split; [reflexivity | discriminate]. Qed.

(** Two comments and an output after an inserted cell all carry its version. *)
Example comments_share_a_version :
  (perform_all [CallInsertCell 0 "scala" "" false (-1); CallCreateComment 0 "c1"%string;
                CallCreateComment 0 "c2"%string; CallSetCellOutput 0 "out"%string]
               handler).(edits).*1
  = [0; 0; 0; 0].
Proof. reflexivity. Qed.

End PublishingExamples.

(** ** The update handler: the edit buffer and the rebase *)

Section Rebasing.
Context `{Rebase}.
Import NotebookUpdateHandler.

(** On a log in version order, dropping the prefix up to [until] leaves the
    entries above [until], all of them and nothing else. *)
Lemma discard_in_order (until : Z) (buf : EditBuffer.t) :
  StronglySorted Z.le buf.*1 →
  EditBuffer.discard until buf = filter (fun e => until < e.1) buf.
Proof.
  induction buf as [| e rest IH]; intros Hsorted; [done |].
  rewrite fmap_cons in Hsorted. apply StronglySorted_cons in Hsorted as [Hfirst Hrest].
  cbn [EditBuffer.discard]. destruct (decide (e.1 <= until)) as [Hle | Hgt].
  - rewrite bool_decide_eq_true_2 by done.
    rewrite filter_cons_False by lia. by apply IH.
  - rewrite bool_decide_eq_false_2 by done.
    rewrite filter_cons_True by lia. f_equal.
    clear IH Hrest. induction rest as [| e' rest IH]; [done |].
    rewrite fmap_cons in Hfirst. apply Forall_cons in Hfirst as [Hle Hfirst].
    rewrite filter_cons_True by lia. f_equal. by apply IH.
Qed.

(** When no entry is above [to], the slice from [from] to [to] is every
    edit above [from]. *)
Lemma range_bounded (from to : Z) (buf : EditBuffer.t) :
  Forall (fun e => e.1 <= to) buf →
  EditBuffer.range from to buf = (filter (fun e => from < e.1) buf).*2.
Proof.
  unfold EditBuffer.range. induction 1 as [| e rest Hle _ IH]; [done |].
  destruct (decide (from < e.1)) as [Hlt | Hge].
  - rewrite (filter_cons_True (fun e => from < e.1 ∧ e.1 <= to)) by done.
    rewrite (filter_cons_True (fun e => from < e.1)) by done.
    rewrite !fmap_cons. by f_equal.
  - rewrite (filter_cons_False (fun e => from < e.1 ∧ e.1 <= to)) by tauto.
    by rewrite (filter_cons_False (fun e => from < e.1)) by done.
Qed.

Lemma discard_suffix (until : Z) (buf : EditBuffer.t) :
  EditBuffer.discard until buf `suffix_of` buf.
Proof.
  induction buf as [| e rest IH]; [done |].
  cbn [EditBuffer.discard]. destruct (bool_decide _); [| done].
  by apply suffix_cons_r.
Qed.

(** The order of the buffer is kept by whatever the handler does. *)
Lemma published_in_order (update : NotebookUpdate) (h : t) :
  localVersion h <= Message.localVersion update →
  buffer_in_order h → buffer_in_order (published update h).
Proof.
  intros Hle [Hsorted Hbound]. split; cbn [published edits localVersion].
  - unfold EditBuffer.push. rewrite fmap_app. apply StronglySorted_app_2.
    + intros x1 x2 Hx1 Hx2. apply list_elem_of_fmap in Hx1 as (e & -> & He).
      apply list_elem_of_singleton in Hx2 as ->.
      rewrite Forall_forall in Hbound. specialize (Hbound e He). cbn. lia.
    + done.
    + repeat constructor.
  - unfold EditBuffer.push. apply Forall_app. split.
    + eapply Forall_impl; [exact Hbound |]. intros e He. cbn in *. lia.
    + repeat constructor. cbn. lia.
Qed.

Lemma rebaseUpdate_in_order (update : NotebookUpdate) (h : t) :
  buffer_in_order h → buffer_in_order (rebaseUpdate update h).2.
Proof.
  intros [Hsorted Hbound].
  unfold rebaseUpdate, mbind, method_bind, assign, this. cbn.
  destruct (bool_decide _); cbn; [| done].
  destruct (discard_suffix (Message.localVersion update) (edits h)) as [dropped Hsplit].
  split; cbn.
  - rewrite Hsplit, fmap_app in Hsorted. by apply StronglySorted_app_1_r in Hsorted.
  - rewrite Hsplit in Hbound. by apply Forall_app in Hbound as [_ ?].
Qed.

Lemma watchOutput_in_order id added (h : t) :
  buffer_in_order h → buffer_in_order (watchOutput id added h).2.
Proof.
  revert h. induction added as [| o rest IH]; intros h Horder; [done |].
  cbn [watchOutput]. unfold mbind, method_bind, this.
  rewrite addUpdate_current by done. apply IH.
  apply published_in_order; [cbn; lia | done].
Qed.

Lemma perform_in_order (c : call) (h : t) :
  buffer_in_order h → buffer_in_order (perform c h).
Proof.
  intros Horder.
  destruct c as [m | | | | | | | | | m | | | |]; cbn [perform].
  - destruct (decide (Message.localVersion m = localVersion h)) as [Heq | Hne].
    + rewrite addUpdate_current by done. apply published_in_order; [lia | done].
    + by rewrite addUpdate_mismatch.
  - rewrite insertCell_publishes. apply published_in_order; [cbn; lia | done].
  - rewrite deleteCell_publishes. apply published_in_order; [cbn; lia | done].
  - rewrite updateCell_publishes. apply published_in_order; [cbn; lia | done].
  - rewrite createComment_publishes. apply published_in_order; [cbn; lia | done].
  - rewrite deleteComment_publishes. apply published_in_order; [cbn; lia | done].
  - rewrite updateComment_publishes. apply published_in_order; [cbn; lia | done].
  - rewrite setCellOutput_publishes. apply published_in_order; [cbn; lia | done].
  - rewrite updateConfig_publishes. apply published_in_order; [cbn; lia | done].
  - by apply rebaseUpdate_in_order.
  - by apply watchOutput_in_order.
  - rewrite watchLanguage_publishes. apply published_in_order; [cbn; lia | done].
  - unfold watchOutgoingEdits. destruct (bool_decide _); [| done].
    rewrite updateCell_publishes. apply published_in_order; [cbn; lia | done].
  - unfold watchMetadata. rewrite updateCell_publishes.
    apply published_in_order; [cbn; lia | done].
Qed.

(** Every handler that the calls can reach from a handler with an empty edit
    buffer has its buffer in order. *)
Lemma reachable_in_order (globalVersion localVersion : Z) (calls : list call) :
  buffer_in_order (perform_all calls (new globalVersion localVersion EditBuffer.empty)).
Proof.
  assert (buffer_in_order (new globalVersion localVersion EditBuffer.empty)) as Hnew.
  { split; constructor. }
  revert Hnew. generalize (new globalVersion localVersion EditBuffer.empty).
  induction calls as [| c rest IH]; intros h Horder; [done |].
  cbn. apply IH. by apply perform_in_order.
Qed.

(** C3.  On a handler whose edit buffer is in order (as it is after any
    sequence of calls), [rebaseUpdate(u)] takes the global version of [u],
    keeps the local version and the published updates, and, when the local
    version of [u] is below that of the handler, hands to [rebase] exactly
    the buffered edits whose version is above that of [u], in the order of
    the buffer, keeps exactly those entries in the buffer, and returns what
    [rebase] returns; otherwise it returns [u] and keeps the buffer. *)
Theorem rebaseUpdate_spec (update : NotebookUpdate) (h : t) :
  buffer_in_order h →
  let result := rebaseUpdate update h in
  let pending := filter (fun e => Message.localVersion update < e.1) (edits h) in
  globalVersion result.2 = Message.globalVersion update ∧
  localVersion result.2 = localVersion h ∧
  state result.2 = state h ∧
  (∀ e, e ∈ pending ↔ Message.localVersion update < e.1 ∧ e ∈ edits h) ∧
  pending `sublist_of` edits h ∧
  (Message.localVersion update < localVersion h →
     result.1 = Returned (rebase update pending.*2) ∧ edits result.2 = pending) ∧
  (localVersion h <= Message.localVersion update →
     result.1 = Returned update ∧ edits result.2 = edits h).
Proof.
  intros [Hsorted Hbound] result pending. subst result pending.
  unfold rebaseUpdate, mbind, method_bind, assign, this.
  cbn -[EditBuffer.range EditBuffer.discard filter].
  destruct (decide (Message.localVersion update < localVersion h)) as [Hlt | Hge].
  - rewrite bool_decide_eq_true_2 by done.
    cbn -[EditBuffer.range EditBuffer.discard filter].
    rewrite range_bounded by done. rewrite discard_in_order by done.
    split; [done |]. split; [done |]. split; [done |].
    split; [intros e; by rewrite list_elem_of_filter |].
    split; [apply sublist_filter |].
    split; [done | lia].
  - rewrite bool_decide_eq_false_2 by done. cbn -[filter].
    split; [done |]. split; [done |]. split; [done |].
    split; [intros e; by rewrite list_elem_of_filter |].
    split; [apply sublist_filter |].
    split; [lia | done].
Qed.

End Rebasing.

Section RebasingExamples.
Import Sample NotebookUpdateHandler.

(** Three local edits, then an update of the authority that has seen the
    first of them. *)
Lemma rebaseUpdate_witness :
  (rebaseUpdate (DeleteCell 9 0 7) three_edits).1
  = Returned (rebase (DeleteCell 9 0 7) [DeleteCell (-1) 1 5; DeleteCell (-1) 2 6]) ∧
  edits (rebaseUpdate (DeleteCell 9 0 7) three_edits).2
  = [(1, DeleteCell (-1) 1 5); (2, DeleteCell (-1) 2 6)].
Proof.
  destruct (rebaseUpdate_spec (DeleteCell 9 0 7) three_edits
              (reachable_in_order (-1) (-1)
                 [CallDeleteCell 4; CallDeleteCell 5; CallDeleteCell 6]))
    as (_ & _ & _ & _ & _ & Hbelow & _).
  exact (Hbelow ltac:(vm_compute; reflexivity)).
Defined.

End RebasingExamples.

(** ** The notebook state handler *)

Section Language.
Context `{Rebase}.
Import NotebookStateHandler.

(** C7.  For a cell that the notebook has, [setCellLanguage(id, language)] is
    one [update1] of the cells, which replaces that cell and no other and
    leaves the rest of the notebook alone.  With ["text"] the new cell has the
    language ["text"], no output, no results, no compile errors, no runtime
    error and no error flag, and every other field of the old cell; with
    another language it is the old cell with the new language. *)
Theorem setCellLanguage_spec (id : Z) (language : string) (state : NotebookState.t)
    (cell : CellState.t) :
  NotebookState.cells state !! id = Some cell →
  let state' := setCellLanguage id language state in
  NotebookState.cells state'
  = update1 id (setCellLanguage_cell language) (NotebookState.cells state) ∧
  (∀ key, key ≠ id → NotebookState.cells state' !! key = NotebookState.cells state !! key) ∧
  state' = NotebookState.mk _ (NotebookState.path state) (NotebookState.cells state')
             (NotebookState.cellOrder state) (NotebookState.config state)
             (NotebookState.kernel state) (NotebookState.activeCellId state)
             (NotebookState.activeCompletion state) (NotebookState.activeSignature state)
             (NotebookState.activePresence state) (NotebookState.activeStreams state) ∧
  (language = "text"%string →
     NotebookState.cells state' !! id
     = Some (CellState.mk _ (CellState.id cell) "text" (CellState.content cell)
               (CellState.metadata cell) (CellState.comments cell)
               (Outputs.mk _ [] None) [] [] None
               (CellState.incomingEdits cell) (CellState.outgoingEdits cell)
               (CellState.presence cell) (CellState.editing cell) (CellState.selected cell)
               false (CellState.running cell) (CellState.queued cell)
               (CellState.currentSelection cell) (CellState.currentHighlight cell))) ∧
  (language ≠ "text"%string →
     NotebookState.cells state' !! id
     = Some (CellState.mk _ (CellState.id cell) language (CellState.content cell)
               (CellState.metadata cell) (CellState.comments cell)
               (CellState.output cell) (CellState.results cell)
               (CellState.compileErrors cell) (CellState.runtimeError cell)
               (CellState.incomingEdits cell) (CellState.outgoingEdits cell)
               (CellState.presence cell) (CellState.editing cell) (CellState.selected cell)
               (CellState.error cell) (CellState.running cell) (CellState.queued cell)
               (CellState.currentSelection cell) (CellState.currentHighlight cell))).
Proof.
  intros Hcell state'. subst state'. unfold setCellLanguage, update1.
  cbn [NotebookState.cells].
  split; [done |]. split; [| split; [done |]].
  - intros key Hkey. by rewrite lookup_alter_ne.
  - rewrite lookup_alter_eq, Hcell. unfold setCellLanguage_cell. cbn [fmap option_fmap option_map].
    split.
    + intros ->. by rewrite bool_decide_eq_true_2.
    + intros Hother. by rewrite bool_decide_eq_false_2.
Qed.

End Language.

Section LanguageExamples.
Import Sample NotebookStateHandler.

(** The scenario of the specification: a cell with one output and the error
    flag becomes a text cell. *)
Lemma setCellLanguage_witness :
  NotebookState.cells (setCellLanguage 4 "text" failed_cell) !! 4
  = Some (CellState.mk _ 4 "text" "1 + 1" false ∅ (Outputs.mk _ [] None) [] [] None
            [] [] [] false false false false false None None).
Proof.
  destruct (setCellLanguage_spec 4 "text" failed_cell
              (cell 4 "scala" false ["o1"%string] true) eq_refl)
    as (_ & _ & _ & Htext & _).
  exact (Htext eq_refl).
Defined.

End LanguageExamples.

Section Selection.
Context `{Rebase} `{!EqDecision CellState.t} `{!EqDecision NotebookState.t}.
Import NotebookStateHandler.

(** Without [relative], [selectCell] resolves the id it is given. *)
Lemma selectCell_id_plain (state : NotebookState.t) (id : Z) (options : SelectOptions) :
  relative options = None → selectCell_id state (Some id) options = Some id.
Proof. intros Hplain. unfold selectCell_id. by rewrite Hplain. Qed.

Lemma existsb_none {A} (f : A → bool) (l : list A) :
  Forall (fun x => f x = false) l → existsb f l = false.
Proof. induction 1 as [| x l Hx _ IH]; [done |]. cbn [existsb]. by rewrite Hx, IH. Qed.

Lemma with_activeCellId_same (s : NotebookState.t) :
  with_activeCellId (NotebookState.activeCellId s) s = s.
Proof. by destruct s. Qed.

Lemma reset_activeCellId_state (h : t) :
  state (reset_activeCellId h) = with_activeCellId None (state h).
Proof.
  unfold reset_activeCellId.
  destruct (NotebookState.activeCellId (state h)) eqn:Hactive; [done |].
  by rewrite <- Hactive, with_activeCellId_same.
Qed.

Lemma notify_activeCellId_state (old new : NotebookState.t) (h : t) :
  state (notify_activeCellId old new h) = state h.
Proof.
  unfold notify_activeCellId, watch_activeCell. case_bool_decide; [done |].
  destruct (NotebookState.activeCellId new); [| done]. by case_bool_decide.
Qed.

(** When no cell has gone, the observers of the cells do not throw, and
    one of them asks for the reset of [activeCellId] as soon as one cell
    under observation has changed and is not selected. *)
Lemma notify_cells_returns (old new : gmap Z CellState.t) (kept : list Z) (reset : bool)
    (observers : list Z) :
  (∀ cellId, new !! cellId = None → old !! cellId = None) →
  let resets cellId :=
    negb (bool_decide (new !! cellId = old !! cellId)) &&
    match new !! cellId with
    | Some s => negb (CellState.selected s)
    | None => false
    end in
  ∃ kept', notify_cells old new kept reset observers
           = (Returned tt, (kept', reset || existsb resets observers)).
Proof.
  intros Hkeys resets. subst resets. revert kept reset.
  induction observers as [| cellId rest IH]; intros kept reset; cbn [notify_cells existsb].
  - exists kept. by rewrite orb_false_r.
  - case_bool_decide as Hsame; cbn [negb andb orb]; [apply IH |].
    destruct (new !! cellId) as [s |] eqn:Hnew.
    + destruct (CellState.selected s); cbn [negb orb]; [apply IH |].
      destruct (IH kept true) as (kept' & ->). exists kept'.
      by rewrite orb_true_r.
    + by rewrite (Hkeys cellId Hnew) in Hsame.
Qed.

Lemma deselects_mapValues (id : option Z) (options : SelectOptions) (s : NotebookState.t)
    (cellId : Z) :
  let old := NotebookState.cells s in
  let new := mapValues old (selectCell_cell id options) in
  negb (bool_decide (new !! cellId = old !! cellId)) &&
  match new !! cellId with
  | Some s => negb (CellState.selected s)
  | None => false
  end
  = deselects id options s cellId.
Proof.
  cbn zeta. unfold deselects, mapValues. rewrite lookup_fmap.
  destruct (NotebookState.cells s !! cellId) as [cell |]; cbn [fmap option_fmap option_map].
  - f_equal. f_equal. apply bool_decide_ext. split; [by intros [= ->] | by intros ->].
  - by rewrite bool_decide_eq_true_2.
Qed.

(** [selectCell] never throws: it returns the id it resolved.  The cells
    are those that its producer returns, and so is every other field of the
    state, except that [activeCellId] is [undefined] when an observer of a
    cell was called with a cell that is not selected. *)
Lemma selectCell_state (selected : option Z) (options : SelectOptions) (h : t) :
  let id := selectCell_id (state h) selected options in
  let s := state h in
  ∃ h', selectCell selected options h = (Returned id, h') ∧
        state h'
        = NotebookState.mk _
            (NotebookState.path s)
            (selectCell_cell id options <$> NotebookState.cells s)
            (NotebookState.cellOrder s) (NotebookState.config s) (NotebookState.kernel s)
            (if existsb (deselects id options s) (cell_observers h) then None else id)
            (NotebookState.activeCompletion s) (NotebookState.activeSignature s)
            (NotebookState.activePresence s) (NotebookState.activeStreams s).
Proof.
  intros id s. unfold selectCell. fold id.
  set (producer := fun s : NotebookState.t => NotebookState.mk _ _ _ _ _ _ _ _ _ _ _).
  assert (existsb (deselects id options s) (cell_observers h)
          = existsb (fun cellId =>
               negb (bool_decide (NotebookState.cells (producer s) !! cellId
                                  = NotebookState.cells s !! cellId)) &&
               match NotebookState.cells (producer s) !! cellId with
               | Some s => negb (CellState.selected s)
               | None => false
               end) (cell_observers h)) as Hresets.
  { induction (cell_observers h) as [| cellId rest IH]; [done |].
    cbn [existsb]. rewrite IH. f_equal. symmetry. apply deselects_mapValues. }
  unfold update. fold s. case_bool_decide as Hsame.
  - exists h. split; [done |]. fold s. rewrite Hresets, Hsame.
    rewrite existsb_none; [by rewrite <- Hsame at 1 |].
    apply Forall_forall. intros cellId _. by rewrite bool_decide_eq_true_2.
  - destruct (notify_cells_returns (NotebookState.cells s)
                (NotebookState.cells (producer s)) [] false (cell_observers h))
      as (kept' & ->).
    { intros cellId. subst producer. cbn [NotebookState.cells]. unfold mapValues.
      rewrite lookup_fmap. by destruct (NotebookState.cells s !! cellId). }
    eexists. split; [done |]. rewrite Hresets. clear Hresets. cbn [orb].
    destruct (existsb _ _).
    + by rewrite reset_activeCellId_state, notify_activeCellId_state.
    + by rewrite notify_activeCellId_state.
Qed.

(** The observer of a cell that was selected, and is not the cell selected
    now, resets [activeCellId]. *)
Lemma selectCell_resets (id : Z) (options : SelectOptions) (h : t) (cellId : Z)
    (cell : CellState.t) :
  relative options = None →
  cellId ∈ cell_observers h → NotebookState.cells (state h) !! cellId = Some cell →
  CellState.selected cell = true → CellState.id cell ≠ id →
  NotebookState.activeCellId (state (selectCell (Some id) options h).2) = None.
Proof.
  intros Hplain Hin Hcell Hwas Hother.
  destruct (selectCell_state (Some id) options h) as (h' & -> & Hstate).
  cbn [snd]. rewrite Hstate.
  cbn [NotebookState.activeCellId]. rewrite selectCell_id_plain by done.
  assert (existsb (deselects (Some id) options (state h)) (cell_observers h) = true) as ->;
    [| done].
  apply existsb_exists. exists cellId. split; [by apply list_elem_of_In |].
  unfold deselects. rewrite Hcell.
  assert (CellState.selected (selectCell_cell (Some id) options cell) = false) as Hnow.
  { unfold selectCell_cell. cbn [CellState.selected].
    apply bool_decide_eq_false_2. by intros [= ?]. }
  rewrite Hnow. rewrite bool_decide_eq_false_2; [done |].
  intros Hsame. rewrite Hsame in Hnow. congruence.
Qed.

(** C8.  [selectCell(id)] without [relative] returns [id] and replaces every
    cell by the same cell with [selected] set exactly when the id of the
    cell is [id] and [editing] set exactly when, moreover, editing was asked
    for; of the rest of the notebook only [activeCellId] changes.  When
    every cell is stored under its own id, at most one cell is selected
    afterwards, the one stored under [id].  The update sets [activeCellId]
    to [id], and [id] it is afterwards when no observer of a cell finds its
    cell changed and not selected; when one does, it resets [activeCellId],
    which is [undefined] afterwards.  That is so whenever the handler
    observes a cell that was selected and is not the cell selected now. *)
Theorem selectCell_spec (id : Z) (options : SelectOptions) (h : t) :
  relative options = None →
  let result := selectCell (Some id) options h in
  let state' := state result.2 in
  result.1 = Returned (Some id) ∧
  (∀ key, NotebookState.cells state' !! key
          = selectCell_cell (Some id) options <$> NotebookState.cells (state h) !! key) ∧
  (∀ cell,
     CellState.selected (selectCell_cell (Some id) options cell)
     = bool_decide (CellState.id cell = id) ∧
     CellState.editing (selectCell_cell (Some id) options cell)
     = bool_decide (CellState.id cell = id) && default false (editing options) ∧
     selectCell_cell (Some id) options cell
     = CellState.mk _ (CellState.id cell) (CellState.language cell) (CellState.content cell)
         (CellState.metadata cell) (CellState.comments cell) (CellState.output cell)
         (CellState.results cell) (CellState.compileErrors cell)
         (CellState.runtimeError cell) (CellState.incomingEdits cell)
         (CellState.outgoingEdits cell) (CellState.presence cell)
         (CellState.editing (selectCell_cell (Some id) options cell))
         (CellState.selected (selectCell_cell (Some id) options cell))
         (CellState.error cell) (CellState.running cell) (CellState.queued cell)
         (CellState.currentSelection cell) (CellState.currentHighlight cell)) ∧
  state' = NotebookState.mk _ (NotebookState.path (state h)) (NotebookState.cells state')
             (NotebookState.cellOrder (state h)) (NotebookState.config (state h))
             (NotebookState.kernel (state h)) (NotebookState.activeCellId state')
             (NotebookState.activeCompletion (state h))
             (NotebookState.activeSignature (state h))
             (NotebookState.activePresence (state h))
             (NotebookState.activeStreams (state h)) ∧
  (cells_by_id (state h) →
     ∀ key cell, NotebookState.cells state' !! key = Some cell →
                 (CellState.selected cell = true ↔ key = id)) ∧
  (Forall (fun cellId => deselects (Some id) options (state h) cellId = false)
          (cell_observers h) →
     NotebookState.activeCellId state' = Some id) ∧
  (Exists (fun cellId => deselects (Some id) options (state h) cellId = true)
          (cell_observers h) →
     NotebookState.activeCellId state' = None) ∧
  (∀ cellId cell,
     cellId ∈ cell_observers h → NotebookState.cells (state h) !! cellId = Some cell →
     CellState.selected cell = true → CellState.id cell ≠ id →
     NotebookState.activeCellId state' = None).
Proof.
  intros Hplain result state'. subst result state'.
  destruct (selectCell_state (Some id) options h) as (h' & Hcall & Hstate).
  cbn zeta in Hcall, Hstate. rewrite selectCell_id_plain in Hcall, Hstate by done.
  rewrite Hcall. cbn [fst snd]. rewrite Hstate.
  cbn [NotebookState.activeCellId NotebookState.cells].
  assert (∀ cell, CellState.selected (selectCell_cell (Some id) options cell)
                  = bool_decide (CellState.id cell = id)) as Hselected.
  { intros cell. unfold selectCell_cell. cbn [CellState.selected].
    apply bool_decide_ext. split; [by intros [= ->] | by intros ->]. }
  assert (Exists (fun cellId => deselects (Some id) options (state h) cellId = true)
                 (cell_observers h) →
          existsb (deselects (Some id) options (state h)) (cell_observers h) = true)
    as Hresets.
  { intros (cellId & Hin & Hdeselects)%Exists_exists. apply existsb_exists.
    exists cellId. split; [by apply list_elem_of_In | done]. }
  split; [done |]. split; [intros key; apply lookup_fmap |].
  split; [| split; [done | split; [| split; [| split]]]].
  - intros cell. split; [apply Hselected |]. split; [| done].
    unfold selectCell_cell. cbn [CellState.editing]. f_equal.
    apply bool_decide_ext. split; [by intros [= ->] | by intros ->].
  - intros Hkeys key cell Hcell. rewrite lookup_fmap in Hcell.
    destruct (NotebookState.cells (state h) !! key) as [old |] eqn:Hold; [| done].
    injection Hcell as <-. apply Hkeys in Hold.
    rewrite Hselected, bool_decide_eq_true. by rewrite Hold.
  - intros Hnone. by rewrite existsb_none.
  - intros Hsome. by rewrite Hresets.
  - intros cellId cell Hin Hcell Hwas Hother.
    pose proof (selectCell_resets id options h cellId cell Hplain Hin Hcell Hwas Hother)
      as Hreset.
    rewrite Hcall in Hreset. cbn [snd] in Hreset. by rewrite Hstate in Hreset.
Qed.

(** A handler that observes no cell yet, in which [id], which is not 0,
    is not the active cell: [selectCell(id)] makes [id] the active cell id,
    and the handler then observes the cell [id]. *)
Lemma selectCell_first (id : Z) (options : SelectOptions) (h : t) :
  relative options = None → cell_observers h = [] →
  NotebookState.activeCellId (state h) ≠ Some id → id ≠ 0 →
  let h' := (selectCell (Some id) options h).2 in
  NotebookState.activeCellId (state h') = Some id ∧ cell_observers h' = [id].
Proof.
  intros Hplain Hobservers Hactive Hid. cbn zeta.
  unfold selectCell, update. rewrite selectCell_id_plain by done.
  rewrite bool_decide_eq_false_2.
  - rewrite Hobservers. cbn [notify_cells]. unfold notify_activeCellId.
    cbn [NotebookState.activeCellId state cell_observers].
    rewrite bool_decide_eq_false_2 by done.
    unfold watch_activeCell. rewrite bool_decide_eq_false_2 by done.
    done.
  - intros Hsame. apply (f_equal NotebookState.activeCellId) in Hsame.
    cbn in Hsame. congruence.
Qed.

(** On the handler of a new notebook in which [a], which is not 0, is not
    the active cell, [selectCell(a)] and then [selectCell(b)] for another
    cell [b] select [b] and leave no cell active. *)
Lemma selectCell_another (a b : Z) (options : SelectOptions) (s : NotebookState.t)
    (cell : CellState.t) :
  relative options = None →
  NotebookState.activeCellId s ≠ Some a → a ≠ 0 →
  NotebookState.cells s !! a = Some cell → CellState.id cell = a → a ≠ b →
  let first := selectCell (Some a) options (new s) in
  let second := selectCell (Some b) options first.2 in
  NotebookState.activeCellId (state first.2) = Some a ∧
  second.1 = Returned (Some b) ∧
  NotebookState.activeCellId (state second.2) = None.
Proof.
  intros Hplain Hactive Ha Hcell Hid Hab first second. subst first second.
  destruct (selectCell_first a options (new s) Hplain eq_refl Hactive Ha)
    as [Hfirst Hobservers].
  split; [exact Hfirst |]. split.
  - destruct (selectCell_state (Some b) options (selectCell (Some a) options (new s)).2)
      as (h' & -> & _).
    cbn [fst]. by rewrite selectCell_id_plain.
  - apply (selectCell_resets b options _ a (selectCell_cell (Some a) options cell));
      [done | rewrite Hobservers; by left | | |
       unfold selectCell_cell; cbn [CellState.id]; congruence].
    + destruct (selectCell_state (Some a) options (new s)) as (h' & -> & Hstate).
      cbn [snd]. rewrite Hstate.
      cbn [NotebookState.cells state new]. rewrite selectCell_id_plain by done.
      by rewrite lookup_fmap, Hcell.
    + unfold selectCell_cell. cbn [CellState.selected]. rewrite Hid.
      by apply bool_decide_eq_true_2.
Qed.

End Selection.

Section SelectionExamples.
Import Sample NotebookStateHandler.

Lemma three_cells_by_id : cells_by_id three_cells.
Proof.
  intros key cell Hcell. unfold three_cells, notebook in Hcell.
  cbn [NotebookState.cells fmap list_fmap list_to_map foldr CellState.id Sample.cell] in Hcell.
  repeat (apply lookup_insert_Some in Hcell as [[<- <-] | [_ Hcell]]; [done |]).
  by rewrite lookup_empty in Hcell.
Qed.

(** The handler of the cells 1, 2 and 3 once cell 1 has been selected
    observes cell 1. *)
Lemma selectCell_observes :
  cell_observers (selectCell (Some 1) (mkSelectOptions None None None) (new three_cells)).2
  = [1].
Proof.
  by apply (selectCell_first 1 (mkSelectOptions None None None) (new three_cells)).
Qed.

(** On that handler [selectCell(2)] selects cell 2 and no other cell, and
    leaves no cell active: the observer of cell 1 has reset
    [activeCellId]. *)
Lemma selectCell_witness :
  let selected_1 :=
    (selectCell (Some 1) (mkSelectOptions None None None) (new three_cells)).2 in
  let result := selectCell (Some 2) (mkSelectOptions None None None) selected_1 in
  result.1 = Returned (Some 2) ∧
  NotebookState.activeCellId (state result.2) = None.
Proof.
  intros selected_1 result.
  destruct (selectCell_spec 2 (mkSelectOptions None None None) selected_1 eq_refl)
    as (Hid & _ & _ & _ & _ & _ & _ & Hreset).
  split; [exact Hid |].
  apply (Hreset 1
           (selectCell_cell (Some 1) (mkSelectOptions None None None)
              (cell 1 "scala" false [] false))).
  - subst selected_1. rewrite selectCell_observes. by left.
  - destruct (selectCell_spec 1 (mkSelectOptions None None None) (new three_cells) eq_refl)
      as (_ & Hcells & _).
    subst selected_1. rewrite Hcells. reflexivity.
  - reflexivity.
  - discriminate.
Defined.

(** The selection scenario of the specification, on the handler of a new
    notebook. *)
Example selectCell_second_of_three :
  let result := selectCell (Some 2) (mkSelectOptions None None None) (new three_cells) in
  result.1 = Returned (Some 2) ∧
  NotebookState.activeCellId (state result.2) = Some 2 ∧
  CellState.selected <$> NotebookState.cells (state result.2) !! 1 = Some false ∧
  CellState.selected <$> NotebookState.cells (state result.2) !! 2 = Some true ∧
  CellState.selected <$> NotebookState.cells (state result.2) !! 3 = Some false.
Proof.
  cbn zeta.
  destruct (selectCell_state (Some 2) (mkSelectOptions None None None) (new three_cells))
    as (h' & -> & Hstate).
  cbn [fst snd]. rewrite Hstate. split; [done |]. split; [done |].
  cbn [NotebookState.cells]. rewrite !lookup_fmap. done.
Qed.

(** Stepping down from cell 1 over cell 2, which hides its source. *)
Example selectCell_skips_hidden :
  (selectCell (Some 1) (mkSelectOptions (Some below) (Some true) None)
     (new hidden_second)).1
  = Returned (Some 3).
Proof.
  destruct (selectCell_state (Some 1) (mkSelectOptions (Some below) (Some true) None)
              (new hidden_second)) as (h' & -> & _).
  reflexivity.
Qed.

End SelectionExamples.

Section Insertion.
Context `{Rebase}.
Import NotebookStateHandler.

Lemma maxId_from (cellOrder : list Z) (acc : Z) :
  let result :=
    fold_left (fun acc cellId => if bool_decide (acc > cellId) then acc else cellId)
              cellOrder acc in
  acc <= result ∧ (∀ i, i ∈ cellOrder → i <= result) ∧ (result = acc ∨ result ∈ cellOrder).
Proof.
  revert acc. induction cellOrder as [| x rest IH]; intros acc; cbn.
  - split; [lia |]. split; [| by left]. intros i Hi. by apply elem_of_nil in Hi.
  - destruct (IH (if bool_decide (acc > x) then acc else x)) as (Hle & Hall & Hin).
    case_bool_decide.
    + split; [lia |]. split.
      * intros i [-> | Hi]%elem_of_cons; [lia | by apply Hall].
      * destruct Hin as [-> | Hin]; [by left | right; by apply elem_of_cons; right].
    + split; [lia |]. split.
      * intros i [-> | Hi]%elem_of_cons; [lia | by apply Hall].
      * right. apply elem_of_cons. destruct Hin as [-> | Hin]; [by left | by right].
Qed.

(** The id that the reduction computes is the greatest of those in
    [cellOrder] (and -1 for an empty notebook). *)
Lemma maxId_greatest (cellOrder : list Z) :
  (∀ i, i ∈ cellOrder → i <= maxId cellOrder) ∧
  (maxId cellOrder ∈ cellOrder ∨ maxId cellOrder = -1).
Proof.
  unfold maxId. destruct (maxId_from cellOrder (-1)) as (_ & Hall & Hin).
  split; [exact Hall |]. destruct Hin as [Hnone | Hin]; [by right | by left].
Qed.

Lemma maxId_nonnegative (cellOrder : list Z) :
  cellOrder ≠ [] → Forall (fun i => 0 <= i) cellOrder → maxId cellOrder ∈ cellOrder.
Proof.
  intros Hnonempty Hids. destruct (maxId_greatest cellOrder) as [Hall [Hin | Hnone]]; [done |].
  destruct cellOrder as [| x rest]; [done |].
  apply Forall_cons in Hids as [Hx _]. specialize (Hall x ltac:(by left)). lia.
Qed.

(** Whatever the anchor, the inserted cell gets the greatest id plus 1 and
    takes its language and metadata, and its content if it has one, from
    the anchor; the message goes out under the next local version. *)
Lemma insertCell_with_anchor (state : NotebookState.t) (direction : Direction)
    (anchor : option Anchor) (a : Anchor) (h : NotebookUpdateHandler.t) :
  insertCell_anchor state direction anchor = Returned a →
  let cellOrder := NotebookState.cellOrder state in
  let anchorIdx := indexOf cellOrder (anchor_id a) in
  let prevIdx := match direction with above => anchorIdx - 1 | below => anchorIdx end in
  insertCell state direction anchor h
  = (Returned tt,
     NotebookUpdateHandler.published
       (InsertCell (NotebookUpdateHandler.globalVersion h)
          (NotebookUpdateHandler.localVersion h + 1)
          (NotebookCell.mk _ (maxId cellOrder + 1) (anchor_language a)
             (default ""%string (anchor_content a)) [] (anchor_metadata a))
          (default (-1) (at_index cellOrder prevIdx))) h).
Proof.
  intros Hanchor. unfold insertCell. rewrite Hanchor. cbn zeta.
  by rewrite insertCell_publishes.
Qed.

(** C9.  With no anchor given and no active cell, [insertCell] anchors on
    the first cell of [cellOrder] for "above" and on the last one for
    "below" and takes the language and the metadata of that cell; the new
    cell gets the id [maxId + 1], where [maxId] is the greatest id of
    [cellOrder], and the [InsertCell] message carries that id, the language
    and metadata of the anchor, an empty content, and the id of the cell
    before the insertion point. *)
Theorem insertCell_spec (state : NotebookState.t) (direction : Direction)
    (anchorId : Z) (anchorCell : CellState.t) (h : NotebookUpdateHandler.t) :
  NotebookState.activeCellId state = None →
  let cellOrder := NotebookState.cellOrder state in
  match direction with
  | above => at_index cellOrder 0
  | below => at_index cellOrder (Z.of_nat (length cellOrder) - 1)
  end = Some anchorId →
  NotebookState.cells state !! anchorId = Some anchorCell →
  let anchorIdx := indexOf cellOrder anchorId in
  let prevIdx := match direction with above => anchorIdx - 1 | below => anchorIdx end in
  insertCell_anchor state direction None
  = Returned (mkAnchor anchorId (CellState.language anchorCell)
                (CellState.metadata anchorCell) None) ∧
  insertCell state direction None h
  = (Returned tt,
     NotebookUpdateHandler.published
       (InsertCell (NotebookUpdateHandler.globalVersion h)
          (NotebookUpdateHandler.localVersion h + 1)
          (NotebookCell.mk _ (maxId cellOrder + 1) (CellState.language anchorCell)
             ""%string [] (CellState.metadata anchorCell))
          (default (-1) (at_index cellOrder prevIdx))) h) ∧
  (∀ i, i ∈ cellOrder → i < maxId cellOrder + 1) ∧
  (Forall (fun i => 0 <= i) cellOrder → maxId cellOrder ∈ cellOrder).
Proof.
  intros Hactive cellOrder Hanchor Hcell anchorIdx prevIdx.
  assert (insertCell_anchor state direction None
          = Returned (mkAnchor anchorId (CellState.language anchorCell)
                        (CellState.metadata anchorCell) None)) as Hresolved.
  { unfold insertCell_anchor. rewrite Hactive. fold cellOrder.
    destruct direction; rewrite Hanchor, Hcell; done. }
  split; [exact Hresolved |]. split; [| split].
  - by rewrite (insertCell_with_anchor state direction None _ h Hresolved).
  - intros i Hi. destruct (maxId_greatest cellOrder) as [Hall _].
    specialize (Hall i Hi). lia.
  - intros Hids. apply maxId_nonnegative; [| done].
    intros Hempty. subst cellOrder. rewrite Hempty in Hanchor.
    by destruct direction.
Qed.

End Insertion.

Section InsertionExamples.
Import Sample NotebookStateHandler.

(** The insertion scenario of the specification: with the cells 0 and 1 and
    no active cell, [insertCell("below")] anchors on cell 1 and sends an
    [InsertCell] with the new id 2, after cell 1. *)
Lemma insertCell_witness :
  insertCell_anchor two_cells below None = Returned (mkAnchor 1 "python" true None) ∧
  insertCell two_cells below None handler
  = (Returned tt,
     NotebookUpdateHandler.published
       (InsertCell (-1) 0 (NotebookCell.mk _ 2 "python" "" [] true) 1) handler).
Proof.
  destruct (insertCell_spec two_cells below 1 (cell 1 "python" true [] false) handler
              eq_refl eq_refl eq_refl) as (Hanchor & Hinsert & _).
  split; [exact Hanchor | exact Hinsert].
Defined.

Example insertCell_above_first :
  insertCell two_cells above None handler
  = (Returned tt,
     NotebookUpdateHandler.published
       (InsertCell (-1) 0 (NotebookCell.mk _ 2 "scala" "" [] false) (-1)) handler).
Proof. reflexivity. Qed.

(** In a notebook without cells there is no cell to anchor on. *)
Example insertCell_empty_notebook :
  insertCell (notebook [] None) below None handler = (Thrown TypeError, handler).
Proof. reflexivity. Qed.

End InsertionExamples.

(** * Further properties of the update algebra *)

Section ArrayRoundTrips.
Context `{ContentEdits} `{Prototypes}.
Import Algebra.

Lemma splice_removed (arr : list jsval) (idx : Z) (x : jsval) :
  0 <= idx → arr !! Z.to_nat idx = Some x →
  splice arr idx 1 [] = ([x], take (Z.to_nat idx) arr ++ drop (S (Z.to_nat idx)) arr).
Proof.
  intros Hidx Hx. pose proof (lookup_lt_Some _ _ _ Hx) as Hlt.
  unfold splice, splice_start, len.
  rewrite bool_decide_eq_false_2 by lia. rewrite (Z.min_l idx) by lia.
  replace (Z.min (Z.max 1 0) (Z.of_nat (length arr) - idx)) with 1 by lia.
  replace (Z.to_nat (idx + 1)) with (S (Z.to_nat idx)) by lia.
  rewrite (drop_S _ _ _ Hx). done.
Qed.

Lemma splice_past_end (arr : list jsval) (idx : Z) :
  len arr <= idx → splice arr idx 1 [] = ([], arr).
Proof.
  intros Hidx. pose proof (len_nonneg arr). unfold splice, splice_start, len in *.
  rewrite bool_decide_eq_false_2 by lia. rewrite (Z.min_r idx) by lia.
  replace (Z.min (Z.max 1 0) (Z.of_nat (length arr) - Z.of_nat (length arr))) with 0 by lia.
  rewrite Z.add_0_r, Nat2Z.id. change (Z.to_nat 0) with 0%nat.
  rewrite take_0, (take_ge arr), (drop_ge arr) by lia.
  cbn [app]. by rewrite app_nil_r.
Qed.

Lemma remove_inserted (arr : list jsval) (v : jsval) (n : nat) :
  (n <= length arr)%nat →
  take n (take n arr ++ v :: drop n arr) ++ drop (S n) (take n arr ++ v :: drop n arr) = arr.
Proof.
  intros Hn.
  assert (length (take n arr) = n) as Hlen by (rewrite length_take; lia).
  rewrite take_app_length' by done.
  replace (drop (S n) (take n arr ++ v :: drop n arr)) with (drop n arr).
  - apply take_drop.
  - change (v :: drop n arr) with ([v] ++ drop n arr). rewrite app_assoc.
    rewrite drop_app_length'; [done |]. rewrite length_app, Hlen. cbn. lia.
Qed.

(** X1.  Inserting a value at an index from 1 to the length and then
    removing that value at that index gives back the array: the removal
    finds the value where the insertion put it, does not throw, and reports
    the value as removed. *)
Theorem insert_then_remove (r : ref) (arr : list jsval) (v : jsval) (idx : Z) (next : ref) :
  1 <= idx <= len arr →
  let inserted := applyMutate (insert v idx) (VArr r arr) next in
  let removed :=
    applyMutate (RemoveValue v idx) (receiver_after inserted) (next_after inserted) in
  receiver_after inserted
  = VArr r (take (Z.to_nat idx) arr ++ v :: drop (Z.to_nat idx) arr) ∧
  receiver_after removed = VArr r arr ∧
  ∃ result, outcome removed = Returned result ∧
            removedValues result = Some {[ NumKey idx := v ]} ∧
            newValue result = VArr r arr.
Proof.
  intros Hidx inserted removed. subst inserted removed. unfold insert, len in *.
  cbn [applyMutate]. rewrite InsertValue_applyMutate_within by (unfold len; lia).
  cbn [receiver_after next_after].
  rewrite RemoveValue_applyMutate_present.
  - cbn [receiver_after outcome]. rewrite remove_inserted by lia.
    split; [done |]. split; [done |]. eexists. split; [done |]. by split.
  - rewrite index_lookup by lia. rewrite insert_lookup_at by (unfold len; lia).
    apply strict_eq_refl.
  - lia.
Qed.

(** X2.  An appended value can be removed again at the index that the
    update recorded when it was applied, and the array is then as it was;
    this holds as well for the target index 0, which appends. *)
Theorem append_then_remove (r : ref) (arr : list jsval) (v : jsval)
    (_targetIndex : option Z) (next : ref) :
  targetIndex_truthy _targetIndex = false →
  let appended := applyMutate (InsertValue v _targetIndex) (VArr r arr) next in
  receiver_after appended = VArr r (arr ++ [v]) ∧
  ∃ recorded,
    this_after appended = InsertValue v (Some recorded) ∧
    receiver_after
      (applyMutate (RemoveValue v recorded) (receiver_after appended) (next_after appended))
    = VArr r arr.
Proof.
  intros Hfalsy appended. subst appended. cbn [applyMutate].
  unfold InsertValue_applyMutate, InsertValue_mutate. rewrite Hfalsy.
  cbn [fst snd receiver_after this_after next_after]. unfold push.
  split; [done |]. exists (len arr). split; [done |].
  pose proof (len_nonneg arr).
  rewrite RemoveValue_applyMutate_present.
  - cbn [receiver_after]. unfold len. rewrite Nat2Z.id.
    rewrite take_app_length, drop_ge by (rewrite length_app; cbn; lia).
    by rewrite app_nil_r.
  - rewrite index_lookup by done. unfold len. rewrite Nat2Z.id.
    rewrite list_lookup_middle by done. apply strict_eq_refl.
  - done.
Qed.

Lemma findIndex_from_found (p : jsval → bool) (before : list jsval) (x : jsval)
    (after : list jsval) (i : Z) :
  Forall (fun y => p y = false) before → p x = true →
  findIndex_from p (before ++ x :: after) i = i + len before.
Proof.
  intros Hbefore Hx. revert i.
  induction Hbefore as [| y before Hy _ IH]; intros i; cbn [app findIndex_from].
  - rewrite Hx. unfold len. cbn. lia.
  - rewrite Hy, IH. unfold len. cbn [length]. lia.
Qed.

Lemma findIndex_from_none (p : jsval → bool) (arr : list jsval) (i : Z) :
  Forall (fun y => p y = false) arr → findIndex_from p arr i = -1.
Proof.
  intros Hall. revert i. induction Hall as [| y arr Hy _ IH]; intros i; [done |].
  cbn [findIndex_from]. by rewrite Hy.
Qed.

Lemma first_match (p : jsval → bool) (arr : list jsval) :
  Forall (fun y => p y = false) arr ∨
  ∃ before x after, arr = before ++ x :: after ∧
                    Forall (fun y => p y = false) before ∧ p x = true.
Proof.
  induction arr as [| y arr IH]; [by left |].
  destruct (p y) eqn:Hy.
  - right. exists [], y, arr. by repeat split.
  - destruct IH as [Hall | (before & x & after & -> & Hbefore & Hx)].
    + left. by constructor.
    + right. exists (y :: before), x, after. repeat split; [| done]. by constructor.
Qed.

Lemma remove_middle (r : ref) (before : list jsval) (x v : jsval) (after : list jsval)
    (next : ref) :
  strict_eq x v = true →
  RemoveValue_applyMutate v (len before) (VArr r (before ++ x :: after)) next
  = mkPost (RemoveValue v (len before)) (VArr r (before ++ after)) next
      (Returned (mkUpdateResult (RemoveValue v (len before)) (VArr r (before ++ after))
                   VUndefined (Some {[ NumKey (len before) := v ]}) None
                   (Some (arrayFieldUpdates (before ++ after) (len before)
                            (len (before ++ x :: after)) (-1))))).
Proof.
  intros Hx. pose proof (len_nonneg before).
  rewrite RemoveValue_applyMutate_present.
  - unfold len. rewrite Nat2Z.id. rewrite take_app_length.
    change (x :: after) with ([x] ++ after). rewrite app_assoc.
    rewrite drop_app_length'; [done |]. rewrite length_app. cbn. lia.
  - rewrite index_lookup by done. unfold len. rewrite Nat2Z.id.
    by rewrite list_lookup_middle.
  - done.
Qed.

(** X3.  [removeFromArray(arr, value)] without a comparison, applied to the
    array it was built from, never throws: when no element is identical to
    the value it is [NoUpdate] and the array stays; otherwise it removes the
    first element identical to the value and nothing else. *)
Theorem removeFromArray_applies (r : ref) (arr : list jsval) (value : jsval) (next : ref) :
  let u := removeFromArray arr value None in
  let p := applyMutate u (VArr r arr) next in
  (∃ result, outcome p = Returned result) ∧
  (Forall (fun y => strict_eq y value = false) arr →
     u = NoUpdate ∧ receiver_after p = VArr r arr) ∧
  (∀ before x after,
     arr = before ++ x :: after →
     Forall (fun y => strict_eq y value = false) before → strict_eq x value = true →
     u = RemoveValue value (len before) ∧ receiver_after p = VArr r (before ++ after)).
Proof.
  intros u p. subst u p. unfold removeFromArray, indexOf, findIndex.
  assert (∀ before x after,
            arr = before ++ x :: after →
            Forall (fun y => strict_eq y value = false) before → strict_eq x value = true →
            (if bool_decide (findIndex_from (fun v => strict_eq v value) arr 0 >= 0)
             then RemoveValue value (findIndex_from (fun v => strict_eq v value) arr 0)
             else NoUpdate) = RemoveValue value (len before)) as Hfound.
  { intros before x after -> Hbefore Hx. pose proof (len_nonneg before).
    rewrite (findIndex_from_found (fun v => strict_eq v value)) by done.
    rewrite bool_decide_eq_true_2 by lia. f_equal; lia. }
  assert (Forall (fun y => strict_eq y value = false) arr →
          (if bool_decide (findIndex_from (fun v => strict_eq v value) arr 0 >= 0)
           then RemoveValue value (findIndex_from (fun v => strict_eq v value) arr 0)
           else NoUpdate) = NoUpdate) as Hnone.
  { intros Hall. rewrite (findIndex_from_none (fun v => strict_eq v value)) by done.
    by rewrite bool_decide_eq_false_2 by lia. }
  split; [| split].
  - destruct (first_match (fun v => strict_eq v value) arr)
      as [Hall | (before & x & after & Harr & Hbefore & Hx)].
    + rewrite Hnone by done. cbn. eauto.
    + rewrite (Hfound before x after) by done. subst arr.
      cbn [applyMutate]. rewrite remove_middle by done. cbn. eauto.
  - intros Hall. by rewrite Hnone.
  - intros before x after Harr Hbefore Hx. rewrite (Hfound before x after) by done.
    split; [done |]. subst arr. cbn [applyMutate]. by rewrite remove_middle.
Qed.

(** X4.  With a comparison, [removeFromArray] builds the update from the
    value it was asked to remove, not from the element that the comparison
    accepted: when that element is not identical to the value, applying the
    update to the very same array throws the stale-update error and removes
    nothing. *)
Theorem removeFromArray_compare_stale (r : ref) (arr before after : list jsval)
    (value x : jsval) (compare : jsval → jsval → bool) (next : ref) :
  arr = before ++ x :: after →
  Forall (fun y => compare y value = false) before →
  compare x value = true →
  strict_eq x value = false →
  applyMutate (removeFromArray arr value (Some compare)) (VArr r arr) next
  = mkPost (RemoveValue value (len before)) (VArr r arr) next
      (Thrown (Error "RemoveValue is no longer valid as array has changed")).
Proof.
  intros -> Hbefore Hx Hne. pose proof (len_nonneg before).
  unfold removeFromArray, findIndex.
  rewrite (findIndex_from_found (fun v => compare v value)) by done.
  rewrite bool_decide_eq_true_2 by lia. rewrite Z.add_0_l.
  cbn [applyMutate]. apply RemoveValue_applyMutate_stale.
  rewrite index_lookup by done. unfold len. rewrite Nat2Z.id.
  by rewrite list_lookup_middle.
Qed.

(** X5.  [removeIndex(arr, index)] is [NoUpdate] for an index outside the
    array, and applying it leaves the array alone; for an index of the array
    it is the removal of the element found there, which applied to that
    array takes out exactly that element. *)
Theorem removeIndex_spec (r : ref) (arr : list jsval) (i : Z) (next : ref) :
  let p := applyMutate (removeIndex arr i) (VArr r arr) next in
  ((i < 0 ∨ len arr <= i) →
     removeIndex arr i = NoUpdate ∧ receiver_after p = VArr r arr ∧
     outcome p = Returned (noChange (VArr r arr))) ∧
  (0 <= i < len arr →
     removeIndex arr i = RemoveValue (index arr i) i ∧
     receiver_after p = VArr r (take (Z.to_nat i) arr ++ drop (S (Z.to_nat i)) arr)).
Proof.
  intros p. subst p. unfold removeIndex. split.
  - intros Hout.
    assert (bool_decide (0 <= i) && bool_decide (i < len arr) = false) as ->.
    { apply andb_false_iff. destruct Hout.
      - left. apply bool_decide_eq_false_2. lia.
      - right. apply bool_decide_eq_false_2. lia. }
    done.
  - intros Hin. rewrite !bool_decide_eq_true_2 by lia. cbn [andb applyMutate].
    split; [done |].
    rewrite RemoveValue_applyMutate_present; [done | apply strict_eq_refl | lia].
Qed.

(** X6.  [MoveArrayValue(from, to)] between two indices of the array keeps
    the elements of the array and their number, and puts the element that
    was at [from] at [to]; the field updates cover the indices from the
    smaller to the greater of the two. *)
Theorem MoveArrayValue_moves (r : ref) (arr : list jsval) (fromIndex toIndex : Z)
    (x : jsval) (next : ref) :
  0 <= fromIndex → arr !! Z.to_nat fromIndex = Some x → 0 <= toIndex < len arr →
  let p := applyMutate (moveArrayValue fromIndex toIndex) (VArr r arr) next in
  let rest := take (Z.to_nat fromIndex) arr ++ drop (S (Z.to_nat fromIndex)) arr in
  let arr' := take (Z.to_nat toIndex) rest ++ x :: drop (Z.to_nat toIndex) rest in
  receiver_after p = VArr r arr' ∧
  arr' ≡ₚ arr ∧
  length arr' = length arr ∧
  index arr' toIndex = x ∧
  outcome p
  = Returned (mkUpdateResult (MoveArrayValue fromIndex toIndex) (VArr r arr') VUndefined
                None None
                (Some (arrayFieldUpdates arr' (Z.min fromIndex toIndex)
                         (Z.max fromIndex toIndex) 1))).
Proof.
  intros Hfrom Hx Hto p rest arr'. subst p.
  pose proof (lookup_lt_Some _ _ _ Hx) as Hlt.
  assert (length rest = (length arr - 1)%nat) as Hrest.
  { subst rest. rewrite length_app, length_take, length_drop. lia. }
  assert (arr' ≡ₚ arr) as Hperm.
  { subst arr'. rewrite <- Permutation_middle, take_drop. subst rest.
    rewrite Permutation_middle. by rewrite take_drop_middle. }
  unfold moveArrayValue, len in *. cbn [applyMutate]. unfold MoveArrayValue_applyMutate.
  rewrite (splice_removed arr fromIndex x) by done. cbn [fst snd].
  assert (index [x] 0 = x) as -> by done. fold rest.
  rewrite splice_insert by (unfold len; lia). fold arr'.
  split; [done |]. split; [done |]. split; [by rewrite Hperm |]. split; [| done].
  rewrite index_lookup by lia. subst arr'.
  rewrite insert_lookup_at by (unfold len; lia). done.
Qed.

(** X7.  When [from] is past the end of the array there is nothing to move:
    [MoveArrayValue] then inserts [undefined] at [to], and the array is one
    element longer. *)
Theorem MoveArrayValue_past_end (r : ref) (arr : list jsval) (fromIndex toIndex : Z)
    (next : ref) :
  len arr <= fromIndex → 0 <= toIndex <= len arr →
  receiver_after (applyMutate (moveArrayValue fromIndex toIndex) (VArr r arr) next)
  = VArr r (take (Z.to_nat toIndex) arr ++ VUndefined :: drop (Z.to_nat toIndex) arr).
Proof.
  intros Hfrom Hto. unfold moveArrayValue. cbn [applyMutate].
  unfold MoveArrayValue_applyMutate. rewrite splice_past_end by done.
  cbn [fst snd receiver_after]. assert (index [] 0 = VUndefined) as -> by done.
  by rewrite splice_insert.
Qed.

End ArrayRoundTrips.

Section KeyedUpdates.
Context `{ContentEdits} `{Prototypes}.
Import Algebra Conversion.

(** X8.  [RenameKey(oldKey, newKey)] with two different keys, on an object
    that has [oldKey], moves the value: afterwards [newKey] holds it,
    [oldKey] is gone, every other key is as before, and the result reports
    the value as removed under [oldKey] and as added under [newKey]. *)
Theorem RenameKey_moves (r : ref) (m : gmap PropertyKey jsval) (oldKey newKey : PropertyKey)
    (v : jsval) (next : ref) :
  oldKey ≠ newKey → m !! oldKey = Some v →
  let p := applyMutate (renameKey oldKey newKey) (VObj r m) next in
  ∃ m' result,
    receiver_after p = VObj r m' ∧
    m' !! newKey = Some v ∧ m' !! oldKey = None ∧
    (∀ k, k ≠ oldKey → k ≠ newKey → m' !! k = m !! k) ∧
    outcome p = Returned result ∧
    newValue result = VObj r m' ∧
    removedValues result = Some {[ oldKey := v ]} ∧
    addedValues result = Some {[ newKey := v ]}.
Proof.
  intros Hne Hold p. subst p. unfold renameKey. cbn [applyMutate].
  unfold RenameKey_applyMutate. rewrite Hold. cbn [default from_option id].
  eexists _, _. split; [done |].
  split; [by rewrite lookup_delete_ne, lookup_insert_eq |].
  split; [by rewrite lookup_delete_eq |].
  split; [| done].
  intros k Hk1 Hk2. by rewrite lookup_delete_ne, lookup_insert_ne.
Qed.


(** X10.  Renaming a key to a key that the object does not have, and then
    back, gives back the object. *)
Theorem RenameKey_round_trip (r : ref) (m : gmap PropertyKey jsval) (a b : PropertyKey)
    (v : jsval) (next : ref) :
  a ≠ b → m !! a = Some v → m !! b = None →
  let there := applyMutate (renameKey a b) (VObj r m) next in
  let back := applyMutate (renameKey b a) (receiver_after there) (next_after there) in
  receiver_after back = VObj r m.
Proof.
  intros Hne Ha Hb there back. subst there back. unfold renameKey. cbn [applyMutate].
  unfold RenameKey_applyMutate. cbn [receiver_after next_after]. rewrite Ha.
  cbn [default from_option id].
  rewrite (lookup_delete_ne _ a b), lookup_insert_eq by done.
  cbn [default from_option id]. f_equal. apply map_eq. intros k.
  destruct (decide (k = b)) as [-> | Hkb].
  - by rewrite lookup_delete_eq.
  - rewrite lookup_delete_ne by done.
    destruct (decide (k = a)) as [-> | Hka].
    + by rewrite lookup_insert_eq.
    + rewrite lookup_insert_ne by done.
      rewrite lookup_delete_ne by done. by rewrite lookup_insert_ne.
Qed.

Lemma plug_object (r : ref) (m : gmap PropertyKey jsval) (key : PropertyKey) (child : jsval) :
  ∃ m', plug (VObj r m) key child = VObj r m' ∧ ∀ k, k ≠ key → m' !! k = m !! k.
Proof.
  cbn [plug]. case_bool_decide.
  - eexists. split; [done |]. intros k Hk. by rewrite lookup_insert_ne.
  - by eexists.
Qed.

(** X11.  An [UpdateKey] applied to an object touches no key but its own,
    whatever the update under it is and however the call completes, and the
    object keeps its identity. *)
Theorem UpdateKey_frame (u : Update) (key : PropertyKey) (r : ref)
    (m : gmap PropertyKey jsval) (next : ref) :
  ∃ m', receiver_after (applyMutate (UpdateKey key u) (VObj r m) next) = VObj r m' ∧
        ∀ k, k ≠ key → m' !! k = m !! k.
Proof.
  cbn [applyMutate get_field].
  destruct (plug_object r m key
              (receiver_after (applyMutate u (default VUndefined (m !! key)) next)))
    as (m1 & Hplug & Hframe).
  rewrite Hplug.
  destruct (outcome (applyMutate u (default VUndefined (m !! key)) next))
    as [childResult | e]; [| by exists m1].
  destruct (is_NoUpdate (update childResult)); [by exists m1 |].
  cbn [set_field receiver_after]. eexists. split; [done |].
  intros k Hk. rewrite lookup_insert_ne by done. by apply Hframe.
Qed.


Lemma UpdateWith_loop_frame (apply : Update → jsval → ref → Post)
    (props : list (PropertyKey * Update)) (acc : WithLoop) (next : ref) (r : ref)
    (m : gmap PropertyKey jsval) :
  loop_value acc = VObj r m →
  ∃ m', loop_value (UpdateWith_loop apply props acc next).1.1.2 = VObj r m' ∧
        ∀ k, k ∉ props.*1 → m' !! k = m !! k.
Proof.
  revert acc next m.
  induction props as [| [key c] rest IH]; intros acc next m Hvalue; cbn [UpdateWith_loop].
  - by exists m.
  - rewrite Hvalue. cbn [get_field].
    destruct (plug_object r m key
                (receiver_after (apply c (default VUndefined (m !! key)) next)))
      as (m1 & Hplug & Hframe).
    rewrite Hplug.
    assert (∀ k, k ∉ ((key, c) :: rest).*1 → k ≠ key ∧ k ∉ rest.*1) as Hsplit.
    { intros k Hk. rewrite fmap_cons in Hk. cbn [fst] in Hk.
      apply not_elem_of_cons in Hk. done. }
    destruct (outcome (apply c (default VUndefined (m !! key)) next))
      as [updateResult | e].
    + cbn [set_field].
      destruct (IH (mkWithLoop (VObj r (<[key:=newValue updateResult]> m1))
                      (fieldUpdateResults
                         (UpdateWith_record acc (VObj r m1) key updateResult))
                      (loop_addedValues
                         (UpdateWith_record acc (VObj r m1) key updateResult))
                      (loop_removedValues
                         (UpdateWith_record acc (VObj r m1) key updateResult))
                      (anyChanged (UpdateWith_record acc (VObj r m1) key updateResult)))
                  (next_after (apply c (default VUndefined (m !! key)) next))
                  (<[key:=newValue updateResult]> m1) eq_refl)
        as (m' & Hloop & Hrest).
      destruct (UpdateWith_loop apply rest _ _) as [[[rest' acc2] next2] e].
      cbn [fst snd] in *. exists m'. split; [done |].
      intros k Hk. apply Hsplit in Hk as [Hk1 Hk2].
      rewrite Hrest by done. rewrite lookup_insert_ne by done. by apply Hframe.
    + cbn [fst snd loop_value]. exists m1. split; [done |].
      intros k Hk. apply Hsplit in Hk as [Hk1 _]. by apply Hframe.
Qed.

(** X13.  An [UpdateWith] over a dictionary of updates, applied to an
    object, touches none of the keys that the dictionary does not list,
    however the call completes, and the object keeps its identity. *)
Theorem UpdateWith_frame (updates : list (PropertyKey * Update))
    (_removedValues : gmap PropertyKey jsval) (r : ref) (m : gmap PropertyKey jsval)
    (next : ref) :
  ∃ m',
    receiver_after (applyMutate (UpdateWith (Partial updates) _removedValues) (VObj r m) next)
    = VObj r m' ∧
    ∀ k, k ∉ updates.*1 → m' !! k = m !! k.
Proof.
  cbn [applyMutate truthy].
  destruct (UpdateWith_loop_frame applyMutate updates
              (mkWithLoop (VObj r m) ∅ None None false) next r m eq_refl)
    as (m' & Hloop & Hframe).
  destruct (UpdateWith_loop applyMutate updates _ _) as [[[updates' acc] next1] e].
  cbn [fst snd] in Hloop. exists m'. split; [| done].
  destruct e as [e |]; [done |]. by destruct (anyChanged acc).
Qed.


Lemma plug_get (value : jsval) (key : PropertyKey) (child : jsval) :
  get_field value key = Returned child → plug value key child = value.
Proof.
  destruct value as [| | | | | r l | r m]; cbn [get_field plug]; try done.
  - destruct key as [s | i]; [done |]. intros [= <-].
    case_bool_decide as Hlo; [| done]. case_bool_decide as Hhi; [| done].
    cbn [andb]. unfold len in Hhi. f_equal. apply list_insert_id.
    rewrite index_lookup by done.
    destruct (l !! Z.to_nat i) eqn:Hl; [done |].
    apply lookup_ge_None in Hl. lia.
  - intros [= <-]. case_bool_decide as Hsome; [| done].
    destruct Hsome as [x Hx]. rewrite Hx. cbn. f_equal. by apply insert_id.
Qed.

(** X15.  For an update without a dictionary of updates in it, a returned
    [NoUpdate] means that the receiver is as it was. *)
Theorem NoUpdate_means_unchanged (u : Update) (value : jsval) (next : ref)
    (result : UpdateResult) :
  no_dictionary u = true →
  outcome (applyMutate u value next) = Returned result →
  update result = NoUpdate →
  receiver_after (applyMutate u value next) = value.
Proof.
  revert value next result.
  induction u as [| key _v | key c IHc | v idx | v t | from to | old new | | v | edits
                 | updates rm _ | updates rm]
    using Update_nested_ind; intros value next result Hplain; cbn [applyMutate].
  - done.
  - unfold RemoveKey_applyMutate, in_operator.
    destruct value; try done; (case_bool_decide; [| done]);
      destruct (delete_property _ _); try done; by intros [= <-].
  - cbn [no_dictionary] in Hplain.
    destruct (get_field value key) as [child | e] eqn:Hget; [| done].
    cbn zeta. specialize (IHc child next).
    destruct (outcome (applyMutate c child next)) as [childResult | e]; [| done].
    destruct (is_NoUpdate (update childResult)) eqn:Hno.
    + intros _ _. cbn [receiver_after].
      rewrite (IHc childResult Hplain eq_refl); [by apply plug_get |].
      by destruct (update childResult).
    + destruct (set_field _ key _); [| done]. by intros [= <-].
  - unfold RemoveValue_applyMutate. destruct value; try done.
    destruct (negb _); [done |]. by intros [= <-].
  - unfold InsertValue_applyMutate, InsertValue_result. destruct value; try done.
    destruct (InsertValue_mutate v t elems) as [[? ?] ?].
    intros [= <-] Hupdate. cbn in Hupdate. discriminate.
  - unfold MoveArrayValue_applyMutate. destruct value; try done. by intros [= <-].
  - unfold RenameKey_applyMutate. destruct value; try done. by intros [= <-].
  - done.
  - unfold SetValue_applyMutate. destruct (strict_eq value v); [done |].
    by destruct (typeof_object value || typeof_object v).
  - unfold EditString_applyMutate. destruct edits; [done |]. by destruct value.
  - done.
  - destruct (typeof_object updates).
    + by destruct (bool_decide _).
    + by destruct (strict_eq value updates).
Qed.

Lemma strict_eq_primitive (a v : jsval) : primitive v → strict_eq a v = true → a = v.
Proof.
  destruct a, v; cbn; try done; intros _ Heq; apply bool_decide_eq_true in Heq; congruence.
Qed.

Lemma SetValue_primitive (v old : jsval) (next : ref) :
  primitive v →
  ∃ result, SetValue_applyMutate v old next = mkPost (SetValue v) old next (Returned result) ∧
            newValue result = v.
Proof.
  intros Hprimitive. unfold SetValue_applyMutate.
  destruct (strict_eq old v) eqn:Heq.
  - apply strict_eq_primitive in Heq as ->; [| done]. by eexists.
  - destruct (typeof_object old || typeof_object v); by eexists.
Qed.

(** The properties of a plain object of values, as the updates that
    [valueToUpdate] makes of them. *)
Lemma valueToUpdate_values (fields : list (PropertyKey * jsval)) :
  valueToUpdate (AsPartial ((fun kv => (kv.1, AsValue kv.2)) <$> fields))
  = UpdateWith (Partial ((fun kv => (kv.1, SetValue kv.2)) <$> fields)) ∅.
Proof.
  cbn [valueToUpdate]. do 2 f_equal.
  induction fields as [| [k v] rest IH]; [done |].
  rewrite !fmap_cons. cbn [fst snd valueToUpdate is_NoUpdate setValue]. by rewrite IH.
Qed.

Lemma UpdateWith_loop_values (fields : list (PropertyKey * jsval)) (acc : WithLoop)
    (next : ref) (r : ref) (m : gmap PropertyKey jsval) :
  Forall (fun kv => primitive kv.2) fields →
  loop_value acc = VObj r m →
  ∃ acc',
    UpdateWith_loop applyMutate ((fun kv => (kv.1, SetValue kv.2)) <$> fields) acc next
    = ((fun kv => (kv.1, SetValue kv.2)) <$> fields, acc', next, None) ∧
    loop_value acc' = VObj r (foldl (fun m kv => <[kv.1:=kv.2]> m) m fields).
Proof.
  intros Hprimitive. revert acc m.
  induction Hprimitive as [| [k v] rest Hv _ IH]; intros acc m Hvalue.
  - by exists acc.
  - rewrite fmap_cons. cbn [fst snd UpdateWith_loop]. rewrite Hvalue.
    cbn [get_field applyMutate].
    destruct (SetValue_primitive v (default VUndefined (m !! k)) next Hv)
      as (result & -> & Hnew).
    cbn [outcome receiver_after next_after this_after].
    rewrite plug_get by done. cbn [set_field]. rewrite Hnew.
    match goal with
    | |- context [UpdateWith_loop applyMutate _ ?a next] =>
        destruct (IH a (<[k:=v]> m) eq_refl) as (acc' & -> & Hloop)
    end.
    exists acc'. by split.
Qed.

(** X16.  A plain object of primitive values, turned into an update by
    [valueToUpdate] and applied to an object, never throws and leaves the
    object as if each property had been assigned in turn: the listed keys
    hold the given values and all other keys are as before. *)
Theorem valueToUpdate_assigns (fields : list (PropertyKey * jsval)) (r : ref)
    (m : gmap PropertyKey jsval) (next : ref) :
  Forall (fun kv => primitive kv.2) fields →
  let u := valueToUpdate (AsPartial ((fun kv => (kv.1, AsValue kv.2)) <$> fields)) in
  let p := applyMutate u (VObj r m) next in
  let m' := foldl (fun m kv => <[kv.1:=kv.2]> m) m fields in
  receiver_after p = VObj r m' ∧
  this_after p = u ∧
  ∃ result, outcome p = Returned result ∧ newValue result = VObj r m'.
Proof.
  intros Hprimitive u p m'. subst u p m'. rewrite valueToUpdate_values.
  cbn [applyMutate truthy].
  destruct (UpdateWith_loop_values fields (mkWithLoop (VObj r m) ∅ None None false)
              next r m Hprimitive eq_refl) as (acc' & -> & Hloop).
  destruct (anyChanged acc'); cbn [receiver_after this_after outcome]; rewrite Hloop;
    (split; [done |]; split; [done |]; by eexists).
Qed.

(** X17.  [EditString] applies its edits one after the other: applying the
    edits [first] and then the edits [second] gives the same string as
    applying [first ++ second] at once (also when one of them is empty,
    where [EditString] is a no-op). *)
Theorem EditString_composes (first second : list ContentEdit) (s : string) (next : ref) :
  ∃ r1 r2 r12,
    outcome (applyMutate (editString first) (VStr s) next) = Returned r1 ∧
    outcome (applyMutate (editString second) (newValue r1) next) = Returned r2 ∧
    outcome (applyMutate (editString (first ++ second)) (VStr s) next) = Returned r12 ∧
    newValue r12 = newValue r2 ∧
    newValue r12 = VStr (fold_left (fun acc e => content_edit_apply e acc) (first ++ second) s).
Proof.
  unfold editString. cbn [applyMutate]. unfold EditString_applyMutate.
  destruct first as [| e1 first]; destruct second as [| e2 second];
    cbn [app outcome newValue noChange]; eexists _, _, _;
    repeat split; rewrite ?app_nil_r; cbn [fold_left]; try done.
  by rewrite fold_left_app.
Qed.

End KeyedUpdates.

(** * Further properties of the update handler *)

Section PublishedUpdates.
Context `{Rebase}.
Import NotebookUpdateHandler Published.

(** X18.  The observer of [output] never throws: for the added outputs it
    publishes one [SetCellOutput] each, in their order, all under the global
    and the local version that the handler has, pushes each to the edit
    buffer under that local version, and leaves both versions as they
    are. *)
Theorem watchOutput_publishes (id : Z) (added : list Output) (h : t) :
  watchOutput id added h
  = (Returned tt,
     mk (state h ++ output_messages h id added) (globalVersion h) (localVersion h)
        (foldl (fun buffer update => EditBuffer.push (localVersion h) update buffer)
           (edits h) (output_messages h id added))).
Proof.
  unfold output_messages. revert h. induction added as [| o rest IH]; intros h.
  - cbn. rewrite !app_nil_r. by destruct h.
  - cbn [watchOutput]. unfold mbind, method_bind, this.
    rewrite addUpdate_current by done. rewrite IH.
    unfold published.
    cbn [state globalVersion localVersion edits Message.localVersion].
    rewrite !fmap_cons, <- !app_assoc. done.
Qed.

Lemma watchOutput_preserves (P : t → Prop) :
  (∀ update h, localVersion h <= Message.localVersion update → P h → P (published update h)) →
  ∀ id added h, P h → P (watchOutput id added h).2.
Proof.
  intros Hpublished id added. induction added as [| o rest IH]; intros h Hh; [done |].
  cbn [watchOutput]. unfold mbind, method_bind, this.
  rewrite addUpdate_current by done. apply IH. apply Hpublished; [cbn; lia | done].
Qed.

(** What every publication and every rebase keeps, every call keeps. *)
Lemma perform_preserves (P : t → Prop) :
  (∀ update h, localVersion h <= Message.localVersion update → P h → P (published update h)) →
  (∀ update h, P h → P (rebaseUpdate update h).2) →
  ∀ c h, P h → P (perform c h).
Proof.
  intros Hpublished Hrebase c h Hh.
  destruct c as [m | | | | | | | | | m | | | |]; cbn [perform].
  - destruct (decide (Message.localVersion m = localVersion h)) as [Heq | Hne].
    + rewrite addUpdate_current by done. apply Hpublished; [lia | done].
    + by rewrite addUpdate_mismatch.
  - rewrite insertCell_publishes. apply Hpublished; [cbn; lia | done].
  - rewrite deleteCell_publishes. apply Hpublished; [cbn; lia | done].
  - rewrite updateCell_publishes. apply Hpublished; [cbn; lia | done].
  - rewrite createComment_publishes. apply Hpublished; [cbn; lia | done].
  - rewrite deleteComment_publishes. apply Hpublished; [cbn; lia | done].
  - rewrite updateComment_publishes. apply Hpublished; [cbn; lia | done].
  - rewrite setCellOutput_publishes. apply Hpublished; [cbn; lia | done].
  - rewrite updateConfig_publishes. apply Hpublished; [cbn; lia | done].
  - by apply Hrebase.
  - by apply watchOutput_preserves.
  - rewrite watchLanguage_publishes. apply Hpublished; [cbn; lia | done].
  - unfold watchOutgoingEdits. destruct (bool_decide _); [| done].
    rewrite updateCell_publishes. apply Hpublished; [cbn; lia | done].
  - unfold watchMetadata. rewrite updateCell_publishes.
    apply Hpublished; [cbn; lia | done].
Qed.

Lemma perform_all_preserves (P : t → Prop) :
  (∀ c h, P h → P (perform c h)) → ∀ calls h, P h → P (perform_all calls h).
Proof.
  intros Hperform calls. induction calls as [| c rest IH]; intros h Hh; [done |].
  cbn. apply IH. by apply Hperform.
Qed.

Lemma rebaseUpdate_keeps (update : NotebookUpdate) (h : t) :
  state (rebaseUpdate update h).2 = state h ∧
  localVersion (rebaseUpdate update h).2 = localVersion h ∧
  edits (rebaseUpdate update h).2 `suffix_of` edits h.
Proof.
  unfold rebaseUpdate, mbind, method_bind, assign, this.
  cbn -[EditBuffer.discard EditBuffer.range].
  destruct (bool_decide _); cbn -[EditBuffer.discard EditBuffer.range]; [| done].
  split; [done |]. split; [done |]. apply discard_suffix.
Qed.

(** X19.  In every handler that the calls reach from a new handler, the
    published updates carry local versions that never decrease along the
    list, and none of them carries a version beyond the local version of the
    handler. *)
Theorem published_versions_in_order (globalVersion localVersion : Z) (calls : list call) :
  versions_in_order (perform_all calls (new globalVersion localVersion EditBuffer.empty)).
Proof.
  apply perform_all_preserves; [| split; constructor].
  apply perform_preserves.
  - intros update h Hle [Hsorted Hbound]. split; cbn [published state].
    + rewrite fmap_app. apply StronglySorted_app_2; [| done | repeat constructor].
      intros x1 x2 Hx1 Hx2. apply list_elem_of_fmap in Hx1 as (m & -> & Hm).
      apply list_elem_of_singleton in Hx2 as ->.
      rewrite Forall_forall in Hbound. specialize (Hbound m Hm).
      cbn [fmap list_fmap]. lia.
    + apply Forall_app. split.
      * eapply Forall_impl; [exact Hbound |]. intros m Hm. cbn in *. lia.
      * repeat constructor. cbn. lia.
  - intros update h [Hsorted Hbound]. destruct (rebaseUpdate_keeps update h) as (Hs & Hl & _).
    unfold versions_in_order. by rewrite Hs, Hl.
Qed.

(** With the edit buffer that the specification describes: in every
    handler that the calls reach from a new handler, the edits of the
    buffer are the last of the published updates, in their order, and each
    is filed under its own local version. *)
Lemma buffer_holds_published (globalVersion localVersion : Z) (calls : list call) :
  buffer_published (perform_all calls (new globalVersion localVersion EditBuffer.empty)).
Proof.
  apply perform_all_preserves; [| split; [done | constructor]].
  apply perform_preserves.
  - intros update h _ [Hsuffix Htagged]. split; cbn [published state edits].
    + unfold EditBuffer.push. rewrite fmap_app. by apply suffix_app.
    + unfold EditBuffer.push. apply Forall_app. split; [done | by repeat constructor].
  - intros update h [Hsuffix Htagged].
    destruct (rebaseUpdate_keeps update h) as (Hs & _ & [dropped Hdropped]).
    split.
    + rewrite Hs. etrans; [| exact Hsuffix]. rewrite Hdropped, fmap_app.
      by apply suffix_app_r.
    + rewrite Hdropped in Htagged. by apply Forall_app in Htagged as [_ ?].
Qed.

End PublishedUpdates.

(** * Further properties of the notebook state handler *)

Section CellOrder.
Context `{Rebase}.
Import NotebookStateHandler.

Lemma indexOf_range (cellOrder : list Z) (cellId : Z) :
  -1 <= indexOf cellOrder cellId < Z.of_nat (length cellOrder).
Proof.
  induction cellOrder as [| x rest IH]; cbn [indexOf length]; [lia |].
  repeat case_bool_decide; lia.
Qed.

Lemma indexOf_absent (cellOrder : list Z) (cellId : Z) :
  cellId ∉ cellOrder → indexOf cellOrder cellId = -1.
Proof.
  induction cellOrder as [| x rest IH]; intros Habsent; cbn [indexOf]; [done |].
  apply not_elem_of_cons in Habsent as [Hx Hrest].
  rewrite bool_decide_eq_false_2 by done.
  rewrite IH by done. by rewrite bool_decide_eq_true_2.
Qed.

Lemma indexOf_middle (before after : list Z) (cellId : Z) :
  cellId ∉ before → indexOf (before ++ cellId :: after) cellId = Z.of_nat (length before).
Proof.
  induction before as [| x rest IH]; intros Habsent; cbn [indexOf app length].
  - by rewrite bool_decide_eq_true_2.
  - apply not_elem_of_cons in Habsent as [Hx Hrest].
    rewrite bool_decide_eq_false_2 by done.
    rewrite IH by done. rewrite bool_decide_eq_false_2 by lia. lia.
Qed.

Lemma at_index_middle (before after : list Z) (cellId : Z) :
  at_index (before ++ cellId :: after) (Z.of_nat (length before)) = Some cellId.
Proof.
  unfold at_index. rewrite bool_decide_eq_true_2 by lia.
  rewrite Nat2Z.id. apply list_lookup_middle. done.
Qed.

Lemma at_index_lookup (cellOrder : list Z) (i : nat) :
  at_index cellOrder (Z.of_nat i) = cellOrder !! i.
Proof. unfold at_index. rewrite bool_decide_eq_true_2 by lia. by rewrite Nat2Z.id. Qed.

Lemma at_index_before (cellOrder : list Z) (i : Z) : i < 0 → at_index cellOrder i = None.
Proof. intros Hi. unfold at_index. by rewrite bool_decide_eq_false_2 by lia. Qed.

(** X20.  [getCellIndex] and [getCellIdAtIndex] undo each other: the index
    is -1 exactly for an id that is not in [cellOrder]; for an id that is
    there it is a position of the array, the first at which
    [getCellIdAtIndex] gives the id back; and when no id is listed twice,
    the index of the id found at a position is that position. *)
Theorem getCellIndex_getCellIdAtIndex (state : NotebookState.t) (id : Z) :
  let cellOrder := NotebookState.cellOrder state in
  (getCellIndex id cellOrder = -1 ↔ id ∉ cellOrder) ∧
  (id ∈ cellOrder →
     0 <= getCellIndex id cellOrder < Z.of_nat (length cellOrder) ∧
     getCellIdAtIndex state (getCellIndex id cellOrder) = Some id ∧
     ∀ i, getCellIdAtIndex state i = Some id → getCellIndex id cellOrder <= i) ∧
  (NoDup cellOrder →
     ∀ i, getCellIdAtIndex state i = Some id → getCellIndex id cellOrder = i).
Proof.
  intros cellOrder. unfold getCellIndex, getCellIdAtIndex. fold cellOrder.
  assert (∀ i, at_index cellOrder i = Some id →
               (0 <= i) ∧ cellOrder !! Z.to_nat i = Some id) as Hat.
  { intros i. unfold at_index. case_bool_decide; [done | discriminate]. }
  assert (id ∈ cellOrder →
          ∃ before after, cellOrder = before ++ id :: after ∧ (id ∉ before) ∧
                          indexOf cellOrder id = Z.of_nat (length before)) as Hsplit.
  { intros Hin. apply list_elem_of_split_l in Hin as (before & after & Horder & Hfirst).
    exists before, after. split; [done |]. split; [done |].
    rewrite Horder. by apply indexOf_middle. }
  split; [| split].
  - split; [| apply indexOf_absent].
    intros Hindex Hin. destruct (Hsplit Hin) as (before & after & _ & _ & Hidx). lia.
  - intros Hin. destruct (Hsplit Hin) as (before & after & Horder & Hfirst & Hidx).
    rewrite Hidx. split; [| split].
    + rewrite Horder, length_app. cbn [length]. lia.
    + rewrite Horder. apply at_index_middle.
    + intros i [Hi Hlookup]%Hat.
      destruct (decide (i < Z.of_nat (length before))) as [Hless |]; [| lia].
      exfalso. apply Hfirst. rewrite Horder in Hlookup.
      rewrite lookup_app_l in Hlookup by lia.
      by eapply list_elem_of_lookup_2.
  - intros Hnodup i [Hi Hlookup]%Hat.
    assert (id ∈ cellOrder) as Hin by (by eapply list_elem_of_lookup_2).
    destruct (Hsplit Hin) as (before & after & Horder & Hfirst & Hidx).
    rewrite Hidx.
    assert (cellOrder !! length before = Some id) as Hthere.
    { rewrite Horder. by apply list_lookup_middle. }
    pose proof (NoDup_lookup _ _ _ _ Hnodup Hlookup Hthere). lia.
Qed.

(** X21.  [getNextCellId] tests the index of the anchor for truthiness: for
    the first cell of [cellOrder], whose index is 0, it answers [undefined]
    although a cell may follow; for an id that is not in [cellOrder], whose
    index is -1, it answers the first cell; for any other cell it answers
    the cell after it, [undefined] after the last. *)
Theorem getNextCellId_spec (anchorId : Z) (cellOrder : list Z) :
  (∀ after, cellOrder = anchorId :: after → getNextCellId anchorId cellOrder = None) ∧
  (anchorId ∉ cellOrder → getNextCellId anchorId cellOrder = head cellOrder) ∧
  (∀ first before after,
     cellOrder = first :: before ++ anchorId :: after → anchorId ∉ first :: before →
     getNextCellId anchorId cellOrder = head after).
Proof.
  unfold getNextCellId, getCellIndex. split; [| split].
  - intros after ->.
    pose proof (indexOf_middle [] after anchorId (not_elem_of_nil _)) as Hzero.
    cbn [app length] in Hzero. rewrite Hzero. by rewrite bool_decide_eq_true_2.
  - intros Habsent. rewrite indexOf_absent by done.
    rewrite bool_decide_eq_false_2 by lia. cbn. by destruct cellOrder.
  - intros first before after -> Habsent.
    change (first :: before ++ anchorId :: after)
      with ((first :: before) ++ anchorId :: after).
    rewrite indexOf_middle by done.
    rewrite bool_decide_eq_false_2 by (cbn [length]; lia).
    replace (Z.of_nat (length (first :: before)) + 1)
      with (Z.of_nat (S (length (first :: before)))) by lia.
    rewrite at_index_lookup.
    rewrite (lookup_app_r (first :: before)) by lia.
    replace (S (length (first :: before)) - length (first :: before))%nat with 1%nat by lia.
    by destruct after.
Qed.

(** X22.  [getPreviousCellId] answers the cell before the anchor; for the
    first cell and for an id that is not in [cellOrder] (index -1, so that
    the array is read at -2) it answers [undefined]. *)
Theorem getPreviousCellId_spec (anchorId : Z) (cellOrder : list Z) :
  (∀ after, cellOrder = anchorId :: after → getPreviousCellId anchorId cellOrder = None) ∧
  (anchorId ∉ cellOrder → getPreviousCellId anchorId cellOrder = None) ∧
  (∀ before previous after,
     cellOrder = before ++ previous :: anchorId :: after → anchorId ∉ before ++ [previous] →
     getPreviousCellId anchorId cellOrder = Some previous).
Proof.
  unfold getPreviousCellId, getCellIndex. split; [| split].
  - intros after ->.
    pose proof (indexOf_middle [] after anchorId (not_elem_of_nil _)) as Hzero.
    cbn [app length] in Hzero. rewrite Hzero. by rewrite bool_decide_eq_true_2.
  - intros Habsent. rewrite indexOf_absent by done.
    rewrite bool_decide_eq_false_2 by lia. by apply at_index_before.
  - intros before previous after -> Habsent.
    replace (before ++ previous :: anchorId :: after)
      with ((before ++ [previous]) ++ anchorId :: after) by (by rewrite <- app_assoc).
    rewrite indexOf_middle by done. rewrite length_app. cbn [length].
    rewrite bool_decide_eq_false_2 by lia.
    replace (Z.of_nat (length before + 1) - 1) with (Z.of_nat (length before)) by lia.
    rewrite <- app_assoc. cbn [app]. apply at_index_middle.
Qed.

End CellOrder.

Section RelativeSelection.
Context `{Rebase} `{!EqDecision CellState.t} `{!EqDecision NotebookState.t}.
Import NotebookStateHandler.

(** The loop of "below" runs over the cells that hide their source. *)
Lemma skipBelow_run (state : NotebookState.t) (run rest prefix : list Z) :
  NotebookState.cellOrder state = prefix ++ run ++ rest →
  Forall (fun id => hiddenSource state (Some id) = true) run →
  skipBelow state (length (run ++ rest)) (Z.of_nat (length prefix))
    (at_index (NotebookState.cellOrder state) (Z.of_nat (length prefix)))
  = skipBelow state (length rest) (Z.of_nat (length (prefix ++ run)))
      (at_index (NotebookState.cellOrder state) (Z.of_nat (length (prefix ++ run)))).
Proof.
  revert prefix. induction run as [| c run IH]; intros prefix Horder Hhidden.
  - by rewrite app_nil_r.
  - apply Forall_cons in Hhidden as [Hc Hhidden].
    assert (at_index (NotebookState.cellOrder state) (Z.of_nat (length prefix)) = Some c)
      as ->.
    { rewrite Horder. apply at_index_middle. }
    cbn [app length skipBelow]. rewrite Hc.
    replace (Z.of_nat (length prefix) + 1) with (Z.of_nat (length (prefix ++ [c])))
      by (rewrite length_app; cbn [length]; lia).
    rewrite IH; [| by rewrite <- app_assoc | done].
    by rewrite <- app_assoc.
Qed.

(** The loop of "above" runs over the cells that hide their source. *)
Lemma skipAbove_run (state : NotebookState.t) (run prefix rest : list Z) :
  NotebookState.cellOrder state = prefix ++ run ++ rest →
  Forall (fun id => hiddenSource state (Some id) = true) run →
  skipAbove state (length (prefix ++ run))
    (at_index (NotebookState.cellOrder state) (Z.of_nat (length (prefix ++ run)) - 1))
  = skipAbove state (length prefix)
      (at_index (NotebookState.cellOrder state) (Z.of_nat (length prefix) - 1)).
Proof.
  revert rest. induction run as [| c run IH] using rev_ind; intros rest Horder Hhidden.
  - by rewrite app_nil_r.
  - apply Forall_app in Hhidden as [Hhidden Hc]. rewrite Forall_singleton in Hc.
    rewrite <- app_assoc in Horder. cbn [app] in Horder.
    rewrite app_assoc. rewrite (length_app _ [c]). cbn [length].
    rewrite Nat.add_1_r.
    replace (Z.of_nat (S (length (prefix ++ run))) - 1)
      with (Z.of_nat (length (prefix ++ run))) by lia.
    assert (at_index (NotebookState.cellOrder state) (Z.of_nat (length (prefix ++ run)))
            = Some c) as ->.
    { rewrite Horder. rewrite (app_assoc prefix run (c :: rest)). apply at_index_middle. }
    cbn [skipAbove]. rewrite Hc. by apply (IH (c :: rest)).
Qed.

Lemma selected_or_first (selected : Z) :
  (if bool_decide (Some selected = Some (-1)) then Some 0 else Some selected)
  = Some (if bool_decide (selected = -1) then 0 else selected).
Proof. repeat case_bool_decide; congruence. Qed.

(** The id that "below" resolves when hidden code is skipped. *)
Lemma selectCell_id_below (state : NotebookState.t) (selected : Z)
    (before hidden after : list Z) (editing : option bool) :
  NotebookState.cellOrder state = before ++ selected :: hidden ++ after →
  selected ∉ before →
  Forall (fun id => hiddenSource state (Some id) = true) hidden →
  let id :=
    selectCell_id state (Some selected) (mkSelectOptions (Some below) (Some true) editing) in
  (∀ visible rest,
     after = visible :: rest → hiddenSource state (Some visible) = false →
     id = Some visible) ∧
  (after = [] → id = Some (if bool_decide (selected = -1) then 0 else selected)).
Proof.
  intros Horder Hfirst Hhidden id. subst id.
  unfold selectCell_id. cbn [relative skipHiddenCode default from_option id].
  assert (indexOf (NotebookState.cellOrder state) selected = Z.of_nat (length before))
    as ->.
  { rewrite Horder. by apply indexOf_middle. }
  assert (NotebookState.cellOrder state = (before ++ [selected]) ++ hidden ++ after)
    as Hsplit.
  { rewrite Horder, <- app_assoc. done. }
  replace (Z.of_nat (length before) + 1) with (Z.of_nat (length (before ++ [selected])))
    by (rewrite length_app; cbn [length]; lia).
  replace (Z.to_nat (Z.of_nat (length (NotebookState.cellOrder state))
                     - Z.of_nat (length (before ++ [selected]))))
    with (length (hidden ++ after))
    by (rewrite Hsplit, !length_app; cbn [length]; lia).
  rewrite (skipBelow_run state hidden after (before ++ [selected]) Hsplit Hhidden).
  rewrite app_assoc in Hsplit.
  split.
  - intros visible rest -> Hvisible.
    assert (at_index (NotebookState.cellOrder state)
              (Z.of_nat (length ((before ++ [selected]) ++ hidden))) = Some visible) as ->.
    { rewrite Hsplit. apply at_index_middle. }
    cbn [length skipBelow]. by rewrite Hvisible.
  - intros ->. cbn [length skipBelow].
    rewrite app_nil_r in Hsplit. rewrite at_index_lookup.
    rewrite (proj2 (lookup_ge_None _ _)) by (rewrite Hsplit; lia).
    apply selected_or_first.
Qed.

(** The id that "above" resolves when hidden code is skipped. *)
Lemma selectCell_id_above (state : NotebookState.t) (selected : Z)
    (before hidden after : list Z) (editing : option bool) :
  NotebookState.cellOrder state = before ++ hidden ++ selected :: after →
  selected ∉ before ++ hidden →
  Forall (fun id => hiddenSource state (Some id) = true) hidden →
  let id :=
    selectCell_id state (Some selected) (mkSelectOptions (Some above) (Some true) editing) in
  (∀ rest visible,
     before = rest ++ [visible] → hiddenSource state (Some visible) = false →
     id = Some visible) ∧
  (before = [] → id = Some (if bool_decide (selected = -1) then 0 else selected)).
Proof.
  intros Horder Hfirst Hhidden id. subst id.
  unfold selectCell_id. cbn [relative skipHiddenCode default from_option id].
  assert (indexOf (NotebookState.cellOrder state) selected
          = Z.of_nat (length (before ++ hidden))) as ->.
  { rewrite Horder, app_assoc. by apply indexOf_middle. }
  replace (Z.to_nat (Z.of_nat (length (before ++ hidden)) - 1 + 1))
    with (length (before ++ hidden)) by lia.
  rewrite (skipAbove_run state hidden before (selected :: after) Horder Hhidden).
  split.
  - intros rest visible -> Hvisible.
    rewrite length_app. cbn [length]. rewrite Nat.add_1_r.
    replace (Z.of_nat (S (length rest)) - 1) with (Z.of_nat (length rest)) by lia.
    assert (at_index (NotebookState.cellOrder state) (Z.of_nat (length rest))
            = Some visible) as ->.
    { rewrite Horder, <- app_assoc. apply at_index_middle. }
    cbn [skipAbove]. by rewrite Hvisible.
  - intros ->. cbn [length skipAbove].
    rewrite at_index_before by lia. apply selected_or_first.
Qed.

(** X23.  [selectCell(selected, {relative: "below", skipHiddenCode: true})]
    steps over the cells after [selected] that hide their source and
    returns the first cell after them when that one shows its source; when
    the hidden cells reach the end of the notebook it returns [selected]
    itself (0 for -1).  It never throws. *)
Theorem selectCell_below_skips_hidden (h : t) (selected : Z)
    (before hidden after : list Z) (editing : option bool) :
  NotebookState.cellOrder (state h) = before ++ selected :: hidden ++ after →
  selected ∉ before →
  Forall (fun id => hiddenSource (state h) (Some id) = true) hidden →
  let result :=
    selectCell (Some selected) (mkSelectOptions (Some below) (Some true) editing) h in
  (∀ visible rest,
     after = visible :: rest → hiddenSource (state h) (Some visible) = false →
     result.1 = Returned (Some visible)) ∧
  (after = [] →
     result.1 = Returned (Some (if bool_decide (selected = -1) then 0 else selected))).
Proof.
  intros Horder Hfirst Hhidden result. subst result.
  destruct (selectCell_state (Some selected)
              (mkSelectOptions (Some below) (Some true) editing) h) as (h' & -> & _).
  destruct (selectCell_id_below (state h) selected before hidden after editing
              Horder Hfirst Hhidden) as [Hvisible Hend].
  cbn [fst]. split.
  - intros visible rest Hafter Hshown. by rewrite (Hvisible visible rest).
  - intros Hafter. by rewrite Hend.
Qed.

(** X24.  [selectCell(selected, {relative: "above", skipHiddenCode: true})]
    steps over the cells before [selected] that hide their source and
    returns the nearest cell before them when that one shows its source;
    when the hidden cells reach the start of the notebook it returns
    [selected] itself (0 for -1).  It never throws. *)
Theorem selectCell_above_skips_hidden (h : t) (selected : Z)
    (before hidden after : list Z) (editing : option bool) :
  NotebookState.cellOrder (state h) = before ++ hidden ++ selected :: after →
  selected ∉ before ++ hidden →
  Forall (fun id => hiddenSource (state h) (Some id) = true) hidden →
  let result :=
    selectCell (Some selected) (mkSelectOptions (Some above) (Some true) editing) h in
  (∀ rest visible,
     before = rest ++ [visible] → hiddenSource (state h) (Some visible) = false →
     result.1 = Returned (Some visible)) ∧
  (before = [] →
     result.1 = Returned (Some (if bool_decide (selected = -1) then 0 else selected))).
Proof.
  intros Horder Hfirst Hhidden result. subst result.
  destruct (selectCell_state (Some selected)
              (mkSelectOptions (Some above) (Some true) editing) h) as (h' & -> & _).
  destruct (selectCell_id_above (state h) selected before hidden after editing
              Horder Hfirst Hhidden) as [Hvisible Hstart].
  cbn [fst]. split.
  - intros rest visible Hbefore Hshown. by rewrite (Hvisible rest visible).
  - intros Hbefore. by rewrite Hstart.
Qed.

(** X25.  Whatever its arguments and whatever the handler observes,
    [selectCell] returns; it keeps the keys of the cells, the order of the
    cells and, [activeCellId] apart, every other field of the notebook;
    every cell it leaves is the cell that was there with every field as it
    was except [selected] and [editing]; it selects exactly the cells whose
    own id is the id returned, and leaves a cell in editing only if it is
    selected.  When every cell is stored under its own id this is so
    afterwards too, and the selected cell, if any, is the one stored under
    the id returned; [selectCell(undefined)] selects none. *)
Theorem selectCell_invariants (selected : option Z) (options : SelectOptions) (h : t) :
  let result := selectCell selected options h in
  let state' := state result.2 in
  ∃ id,
    result.1 = Returned id ∧
    dom (NotebookState.cells state') = dom (NotebookState.cells (state h)) ∧
    state' = NotebookState.mk _ (NotebookState.path (state h)) (NotebookState.cells state')
               (NotebookState.cellOrder (state h)) (NotebookState.config (state h))
               (NotebookState.kernel (state h)) (NotebookState.activeCellId state')
               (NotebookState.activeCompletion (state h))
               (NotebookState.activeSignature (state h))
               (NotebookState.activePresence (state h))
               (NotebookState.activeStreams (state h)) ∧
    (∀ key cell,
       NotebookState.cells state' !! key = Some cell →
       ∃ old, NotebookState.cells (state h) !! key = Some old ∧
              cell = CellState.mk _ (CellState.id old) (CellState.language old)
                       (CellState.content old) (CellState.metadata old)
                       (CellState.comments old) (CellState.output old)
                       (CellState.results old) (CellState.compileErrors old)
                       (CellState.runtimeError old) (CellState.incomingEdits old)
                       (CellState.outgoingEdits old) (CellState.presence old)
                       (CellState.editing cell) (CellState.selected cell)
                       (CellState.error old) (CellState.running old) (CellState.queued old)
                       (CellState.currentSelection old) (CellState.currentHighlight old) ∧
              (CellState.selected cell = true ↔ Some (CellState.id old) = id) ∧
              (CellState.editing cell = true → CellState.selected cell = true)) ∧
    (cells_by_id (state h) →
       cells_by_id state' ∧
       ∀ key cell, NotebookState.cells state' !! key = Some cell →
                   (CellState.selected cell = true ↔ Some key = id)) ∧
    (selected = None →
       id = None ∧
       ∀ key cell, NotebookState.cells state' !! key = Some cell →
                   CellState.selected cell = false).
Proof.
  intros result state'. subst result state'.
  destruct (selectCell_state selected options h) as (h' & -> & Hstate).
  cbn zeta in Hstate. exists (selectCell_id (state h) selected options).
  cbn [fst snd]. rewrite Hstate.
  cbn [NotebookState.activeCellId NotebookState.cells NotebookState.cellOrder].
  assert (∀ key cell,
            selectCell_cell (selectCell_id (state h) selected options) options
              <$> NotebookState.cells (state h) !! key = Some cell →
            ∃ old, NotebookState.cells (state h) !! key = Some old ∧
                   cell = selectCell_cell (selectCell_id (state h) selected options)
                            options old)
    as Hcells.
  { intros key cell Hcell.
    destruct (NotebookState.cells (state h) !! key) as [old |]; [| done].
    injection Hcell as <-. by exists old. }
  split; [done |]. split; [apply dom_fmap_L |]. split; [done |].
  split; [| split].
  - intros key cell Hcell. rewrite lookup_fmap in Hcell.
    apply Hcells in Hcell as (old & Hold & ->). exists old.
    split; [done |]. split; [done |]. unfold selectCell_cell.
    cbn [CellState.selected CellState.editing]. split.
    + apply bool_decide_eq_true.
    + by intros [? _]%andb_prop.
  - intros Hkeys. split.
    + intros key cell Hcell. cbn [NotebookState.cells] in Hcell.
      rewrite lookup_fmap in Hcell.
      apply Hcells in Hcell as (old & Hold & ->). by apply Hkeys in Hold.
    + intros key cell Hcell. rewrite lookup_fmap in Hcell.
      apply Hcells in Hcell as (old & Hold & ->). apply Hkeys in Hold.
      unfold selectCell_cell. cbn [CellState.selected]. rewrite Hold.
      apply bool_decide_eq_true.
  - intros ->. split; [done |].
    intros key cell Hcell. rewrite lookup_fmap in Hcell.
    apply Hcells in Hcell as (old & Hold & ->). done.
Qed.

End RelativeSelection.

Section LanguageChanges.
Context `{Rebase}.
Import NotebookStateHandler.

(** X26.  Of two changes of the language of a cell that the notebook has,
    the second one wins, unless the first one made the cell a text cell,
    which loses its output, and the second one did not; so a change of
    language done twice is the same as done once. *)
Theorem setCellLanguage_again (id : Z) (first second : string) (state : NotebookState.t) :
  is_Some (NotebookState.cells state !! id) →
  first ≠ "text"%string ∨ second = "text"%string →
  setCellLanguage id second (setCellLanguage id first state)
  = setCellLanguage id second state.
Proof.
  intros _ Hkept. unfold setCellLanguage, update1.
  cbn [NotebookState.path NotebookState.cells NotebookState.cellOrder NotebookState.config
       NotebookState.kernel NotebookState.activeCellId NotebookState.activeCompletion
       NotebookState.activeSignature NotebookState.activePresence
       NotebookState.activeStreams].
  f_equal. rewrite alter_alter_eq. apply alter_ext. intros cell _.
  unfold compose, setCellLanguage_cell. cbn.
  destruct (bool_decide (first = "text"%string)) eqn:Hfirst,
           (bool_decide (second = "text"%string)) eqn:Hsecond; try done.
  apply bool_decide_eq_true in Hfirst. apply bool_decide_eq_false in Hsecond.
  by destruct Hkept.
Qed.

(** X27.  Changing the language of a cell that is not a text cell to
    another language that is not "text", and back, gives the notebook that
    there was. *)
Theorem setCellLanguage_back (id : Z) (language : string) (state : NotebookState.t)
    (cell : CellState.t) :
  NotebookState.cells state !! id = Some cell →
  CellState.language cell ≠ "text"%string →
  language ≠ "text"%string →
  setCellLanguage id (CellState.language cell) (setCellLanguage id language state) = state.
Proof.
  intros Hcell Hcode Hother.
  unfold setCellLanguage, update1. destruct state as [path cells order ? ? ? ? ? ? ?].
  cbn in *. f_equal. rewrite alter_alter_eq. apply alter_id. intros x Hx.
  assert (x = cell) as -> by congruence.
  unfold compose, setCellLanguage_cell. cbn.
  rewrite !bool_decide_eq_false_2 by done.
  by destruct cell.
Qed.

End LanguageChanges.

Section InsertionPoint.
Context `{Rebase}.
Import NotebookStateHandler.

Lemma at_index_first (cellOrder : list Z) : at_index cellOrder 0 = head cellOrder.
Proof. by destruct cellOrder. Qed.

Lemma at_index_last (cellOrder : list Z) :
  at_index cellOrder (Z.of_nat (length cellOrder) - 1) = last cellOrder.
Proof.
  destruct cellOrder as [| x rest] using rev_ind; [done |].
  rewrite length_app. cbn [length].
  replace (Z.of_nat (length rest + 1) - 1) with (Z.of_nat (length rest)) by lia.
  rewrite last_snoc. apply at_index_middle.
Qed.

(** X28.  The [InsertCell] message names the cell after which the new cell
    goes: for an anchor that is in [cellOrder] the anchor itself with
    "below" and the cell before the anchor with "above", -1 when the anchor
    is the first cell; for an anchor that is not in [cellOrder] -1 in both
    directions. *)
Theorem insertCell_previous (state : NotebookState.t) (direction : Direction)
    (anchor : Anchor) (h : NotebookUpdateHandler.t) :
  let cellOrder := NotebookState.cellOrder state in
  let inserted after :=
    (Returned tt,
     NotebookUpdateHandler.published
       (InsertCell (NotebookUpdateHandler.globalVersion h)
          (NotebookUpdateHandler.localVersion h + 1)
          (NotebookCell.mk _ (maxId cellOrder + 1) (anchor_language anchor)
             (default ""%string (anchor_content anchor)) [] (anchor_metadata anchor))
          after) h) in
  (∀ before after,
     cellOrder = before ++ anchor_id anchor :: after → anchor_id anchor ∉ before →
     insertCell state direction (Some anchor) h
     = inserted match direction with
                | below => anchor_id anchor
                | above => default (-1) (last before)
                end) ∧
  (anchor_id anchor ∉ cellOrder →
     insertCell state direction (Some anchor) h = inserted (-1)).
Proof.
  intros cellOrder inserted. subst inserted. cbn beta.
  split.
  - intros before after Horder Hfirst.
    rewrite (insertCell_with_anchor state direction (Some anchor) anchor h eq_refl).
    fold cellOrder.
    assert (indexOf cellOrder (anchor_id anchor) = Z.of_nat (length before)) as ->.
    { rewrite Horder. by apply indexOf_middle. }
    do 3 f_equal. rewrite Horder. clear Horder Hfirst.
    destruct direction.
    + destruct before as [| previous rest _] using rev_ind.
      * by rewrite at_index_before by (cbn [length]; lia).
      * rewrite length_app. cbn [length].
        replace (Z.of_nat (length rest + 1) - 1) with (Z.of_nat (length rest)) by lia.
        rewrite <- app_assoc. cbn [app]. rewrite at_index_middle. by rewrite last_snoc.
    + by rewrite at_index_middle.
  - intros Habsent.
    rewrite (insertCell_with_anchor state direction (Some anchor) anchor h eq_refl).
    fold cellOrder. rewrite indexOf_absent by done. do 3 f_equal.
    destruct direction; by rewrite at_index_before by lia.
Qed.

(** X29.  Without an anchor, [insertCell] anchors on the active cell, if
    there is one, whatever the direction, and otherwise on the first cell
    for "above" and the last cell for "below"; when there is no such cell (a
    notebook without cells, or an id without a cell) reading its language
    throws, and the update handler is left as it was: nothing is published
    and the local version stays. *)
Theorem insertCell_without_anchor (state : NotebookState.t) (direction : Direction)
    (h : NotebookUpdateHandler.t) :
  let cellOrder := NotebookState.cellOrder state in
  let currentCellId :=
    match NotebookState.activeCellId state with
    | Some active => Some active
    | None => match direction with above => head cellOrder | below => last cellOrder end
    end in
  (∀ id cell,
     currentCellId = Some id → NotebookState.cells state !! id = Some cell →
     insertCell_anchor state direction None
     = Returned (mkAnchor id (CellState.language cell) (CellState.metadata cell) None)) ∧
  (currentCellId = None ∨
   (∃ id, currentCellId = Some id ∧ NotebookState.cells state !! id = None) →
   insertCell state direction None h = (Thrown TypeError, h)).
Proof.
  intros cellOrder currentCellId.
  assert (insertCell_anchor state direction None
          = match currentCellId with
            | Some id =>
                match NotebookState.cells state !! id with
                | Some cell =>
                    Returned (mkAnchor id (CellState.language cell)
                                (CellState.metadata cell) None)
                | None => Thrown TypeError
                end
            | None => Thrown TypeError
            end) as Hanchor.
  { unfold insertCell_anchor. subst currentCellId. fold cellOrder.
    destruct (NotebookState.activeCellId state); [done |].
    destruct direction; by rewrite ?at_index_first, ?at_index_last. }
  split.
  - intros id cell Hid Hcell. by rewrite Hanchor, Hid, Hcell.
  - intros Hnone. unfold insertCell. rewrite Hanchor.
    destruct Hnone as [-> | (id & -> & ->)]; done.
Qed.

End InsertionPoint.

(** * Instances of the further properties *)

Section UpdateAlgebraExamples.
Import Algebra Conversion Sample Scenario.

(** Inserting ["x"] at 1 into ["a", "b", "c"] and removing it again. *)
Lemma insert_then_remove_witness :
  let inserted := applyMutate (insert (VStr "x") 1) (VArr 7%positive abc) 1%positive in
  receiver_after inserted = VArr 7%positive [VStr "a"; VStr "x"; VStr "b"; VStr "c"] ∧
  receiver_after
    (applyMutate (RemoveValue (VStr "x") 1) (receiver_after inserted) (next_after inserted))
  = VArr 7%positive abc.
Proof.
  destruct (insert_then_remove 7%positive abc (VStr "x") 1 1%positive
              ltac:(unfold len; cbn; lia)) as (Hinserted & Hremoved & _).
  split; [exact Hinserted | exact Hremoved].
Defined.

(** [InsertValue("x", 0)] appends, and records the index 3. *)
Lemma append_then_remove_witness :
  receiver_after (applyMutate (InsertValue (VStr "x") (Some 0)) (VArr 7%positive abc) 1%positive)
  = VArr 7%positive [VStr "a"; VStr "b"; VStr "c"; VStr "x"].
Proof.
  exact (proj1 (append_then_remove 7%positive abc (VStr "x") (Some 0) 1%positive eq_refl)).
Defined.

(** Removing a copy of the second comment, compared by id: the update is
    stale on the array it was built from. *)
Lemma removeFromArray_compare_stale_witness :
  applyMutate (removeFromArray [comment 8%positive 1; comment 9%positive 2] (comment 10%positive 2) (Some same_id))
    (VArr 7%positive [comment 8%positive 1; comment 9%positive 2]) 1%positive
  = mkPost (RemoveValue (comment 10%positive 2) 1)
      (VArr 7%positive [comment 8%positive 1; comment 9%positive 2]) 1%positive
      (Thrown (Error "RemoveValue is no longer valid as array has changed")).
Proof.
  exact (removeFromArray_compare_stale 7%positive [comment 8%positive 1; comment 9%positive 2]
           [comment 8%positive 1] [] (comment 10%positive 2) (comment 9%positive 2) same_id 1%positive
           eq_refl ltac:(repeat constructor) eq_refl eq_refl).
Defined.

(** Moving ["a"] from 0 to 2. *)
Lemma MoveArrayValue_moves_witness :
  receiver_after (applyMutate (moveArrayValue 0 2) (VArr 7%positive abc) 1%positive)
  = VArr 7%positive [VStr "b"; VStr "c"; VStr "a"].
Proof.
  exact (proj1 (MoveArrayValue_moves 7%positive abc 0 2 (VStr "a") 1%positive
                  ltac:(lia) eq_refl ltac:(unfold len; cbn; lia))).
Defined.

(** Moving from 5, past the end, to 1. *)
Lemma MoveArrayValue_past_end_witness :
  receiver_after (applyMutate (moveArrayValue 5 1) (VArr 7%positive abc) 1%positive)
  = VArr 7%positive [VStr "a"; VUndefined; VStr "b"; VStr "c"].
Proof.
  exact (MoveArrayValue_past_end 7%positive abc 5 1 1%positive
           ltac:(unfold len; cbn; lia) ltac:(unfold len; cbn; lia)).
Defined.

(** Renaming [name] to [fullName]. *)
Lemma RenameKey_moves_witness :
  ∃ m', receiver_after
          (applyMutate (renameKey (StrKey "name") (StrKey "fullName")) person 1%positive)
        = VObj 7%positive m' ∧
        m' !! StrKey "fullName" = Some (VStr "ada") ∧ m' !! StrKey "name" = None.
Proof.
  destruct (RenameKey_moves 7%positive
              {[ StrKey "name" := VStr "ada"; StrKey "age" := VNum 36 ]}
              (StrKey "name") (StrKey "fullName") (VStr "ada") 1%positive
              ltac:(discriminate) eq_refl)
    as (m' & result & Hreceiver & Hnew & Hold & _).
  exists m'. split; [exact Hreceiver |]. split; [exact Hnew | exact Hold].
Defined.

(** Renaming [name] to [fullName] and back. *)
Lemma RenameKey_round_trip_witness :
  let there :=
    applyMutate (renameKey (StrKey "name") (StrKey "fullName")) person 1%positive in
  receiver_after
    (applyMutate (renameKey (StrKey "fullName") (StrKey "name"))
       (receiver_after there) (next_after there))
  = person.
Proof.
  exact (RenameKey_round_trip 7%positive
           {[ StrKey "name" := VStr "ada"; StrKey "age" := VNum 36 ]}
           (StrKey "name") (StrKey "fullName") (VStr "ada") 1%positive
           ltac:(discriminate) eq_refl eq_refl).
Defined.


(** Setting [name] to the name it has. *)
Lemma NoUpdate_means_unchanged_witness :
  receiver_after (applyMutate (setProperty (StrKey "name") (VStr "ada")) person 1%positive)
  = person.
Proof.
  exact (NoUpdate_means_unchanged (setProperty (StrKey "name") (VStr "ada")) person
           1%positive (noChange person) eq_refl eq_refl eq_refl).
Defined.

(** [{age: 37, city: "london"}] as an update of a person. *)
Lemma valueToUpdate_assigns_witness :
  receiver_after
    (applyMutate
       (valueToUpdate (AsPartial [(StrKey "age", AsValue (VNum 37));
                                  (StrKey "city", AsValue (VStr "london"))]))
       person 1%positive)
  = VObj 7%positive
      (<[StrKey "city":=VStr "london"]>
         (<[StrKey "age":=VNum 37]>
            {[ StrKey "name" := VStr "ada"; StrKey "age" := VNum 36 ]})).
Proof.
  exact (proj1 (valueToUpdate_assigns
                  [(StrKey "age", VNum 37); (StrKey "city", VStr "london")] 7%positive
                  {[ StrKey "name" := VStr "ada"; StrKey "age" := VNum 36 ]} 1%positive
                  ltac:(repeat constructor))).
Defined.

(** Removing ["b"] from ["a", "b", "c"]. *)
Lemma removeFromArray_applies_witness :
  removeFromArray abc (VStr "b") None = RemoveValue (VStr "b") 1 ∧
  receiver_after
    (applyMutate (removeFromArray abc (VStr "b") None) (VArr 7%positive abc) 1%positive)
  = VArr 7%positive [VStr "a"; VStr "c"].
Proof.
  destruct (removeFromArray_applies 7%positive abc (VStr "b") 1%positive)
    as (_ & _ & Hfound).
  exact (Hfound [VStr "a"] (VStr "b") [VStr "c"] eq_refl ltac:(repeat constructor) eq_refl).
Defined.

(** Removing the index 1 of ["a", "b", "c"]. *)
Lemma removeIndex_spec_witness :
  removeIndex abc 1 = RemoveValue (VStr "b") 1 ∧
  receiver_after (applyMutate (removeIndex abc 1) (VArr 7%positive abc) 1%positive)
  = VArr 7%positive [VStr "a"; VStr "c"].
Proof.
  exact (proj2 (removeIndex_spec 7%positive abc 1 1%positive) ltac:(unfold len; cbn; lia)).
Defined.


End UpdateAlgebraExamples.

Section NotebookExamples.
Import Sample Scenario NotebookStateHandler.

Local Ltac not_listed :=
  let Hin := fresh "Hin" in
  intros Hin; cbn [app] in Hin;
  repeat (apply elem_of_cons in Hin as [Hin | Hin]; [discriminate |]);
  by apply elem_of_nil in Hin.

(** Stepping down from cell 1 over the cells 2 and 3, which hide their
    source, to cell 4. *)
Lemma selectCell_below_skips_hidden_witness :
  (selectCell (Some 1) (mkSelectOptions (Some below) (Some true) None)
     (new hidden_middle)).1
  = Returned (Some 4).
Proof.
  destruct (selectCell_below_skips_hidden (new hidden_middle) 1 [] [2; 3] [4] None eq_refl
              (not_elem_of_nil _)
              ltac:(repeat constructor))
    as [Hvisible _].
  exact (Hvisible 4 [] eq_refl eq_refl).
Defined.

(** Stepping up from cell 4 over the cells 3 and 2 to cell 1. *)
Lemma selectCell_above_skips_hidden_witness :
  (selectCell (Some 4) (mkSelectOptions (Some above) (Some true) None)
     (new hidden_middle)).1
  = Returned (Some 1).
Proof.
  destruct (selectCell_above_skips_hidden (new hidden_middle) 4 [1] [2; 3] [] None eq_refl
              ltac:(not_listed)
              ltac:(repeat constructor))
    as [Hvisible _].
  exact (Hvisible [] 1 eq_refl eq_refl).
Defined.

(** From scala to python to text is the same as from scala to text. *)
Lemma setCellLanguage_again_witness :
  setCellLanguage 4 "text" (setCellLanguage 4 "python" failed_cell)
  = setCellLanguage 4 "text" failed_cell.
Proof.
  exact (setCellLanguage_again 4 "python" "text" failed_cell
           (mk_is_Some _ _ eq_refl) (or_intror eq_refl)).
Defined.

(** From scala to python and back. *)
Lemma setCellLanguage_back_witness :
  setCellLanguage 4 "scala" (setCellLanguage 4 "python" failed_cell) = failed_cell.
Proof.
  exact (setCellLanguage_back 4 "python" failed_cell (cell 4 "scala" false ["o1"%string] true)
           eq_refl ltac:(discriminate) ltac:(discriminate)).
Defined.

(** Through "text" the output and the error flag are lost. *)
Example setCellLanguage_through_text :
  setCellLanguage 4 "scala" (setCellLanguage 4 "text" failed_cell) ≠ failed_cell.
Proof.
  intros Hsame.
  apply (f_equal (fun s => CellState.error <$> NotebookState.cells s !! 4)) in Hsame.
  vm_compute in Hsame. discriminate.
Qed.

(** Cell 2 is the second of the cells 1, 2 and 3. *)
Lemma getCellIndex_getCellIdAtIndex_witness :
  getCellIndex 2 (NotebookState.cellOrder three_cells) = 1.
Proof.
  exact (proj2 (proj2 (getCellIndex_getCellIdAtIndex three_cells 2))
           ltac:(repeat (constructor; [not_listed |]); constructor) 1 eq_refl).
Defined.

(** After cell 2 comes cell 3. *)
Lemma getNextCellId_spec_witness : getNextCellId 2 [1; 2; 3] = Some 3.
Proof.
  exact (proj2 (proj2 (getNextCellId_spec 2 [1; 2; 3])) 1 [] [3] eq_refl
           ltac:(not_listed)).
Defined.

(** After cell 1, the first, comes cell 2, and yet the answer is [undefined]. *)
Example getNextCellId_of_first : getNextCellId 1 [1; 2; 3] = None.
Proof. reflexivity. Qed.

(** Before cell 3 comes cell 2. *)
Lemma getPreviousCellId_spec_witness : getPreviousCellId 3 [1; 2; 3] = Some 2.
Proof.
  exact (proj2 (proj2 (getPreviousCellId_spec 3 [1; 2; 3])) [1] 2 [] eq_refl
           ltac:(not_listed)).
Defined.

(** After a selection the cells 1, 2 and 3 are still stored under their ids. *)
Lemma selectCell_invariants_witness :
  cells_by_id
    (state (selectCell (Some 1) (mkSelectOptions (Some below) None None)
              (new three_cells)).2).
Proof.
  destruct (selectCell_invariants (Some 1) (mkSelectOptions (Some below) None None)
              (new three_cells)) as (id & _ & _ & _ & _ & Hkeys & _).
  exact (proj1 (Hkeys three_cells_by_id)).
Defined.

(** Above cell 1 of the cells 0 and 1 is after cell 0. *)
Lemma insertCell_previous_witness :
  insertCell two_cells above (Some (mkAnchor 1 "python" true None)) handler
  = (Returned tt,
     NotebookUpdateHandler.published
       (InsertCell (-1) 0 (NotebookCell.mk _ 2 "python" "" [] true) 0) handler).
Proof.
  exact (proj1 (insertCell_previous two_cells above (mkAnchor 1 "python" true None) handler)
           [0] [] eq_refl ltac:(not_listed)).
Defined.

(** An active cell id without a cell. *)
Lemma insertCell_without_anchor_witness :
  insertCell (notebook [cell 1 "scala" false [] false] (Some 9)) above None handler
  = (Thrown TypeError, handler).
Proof.
  exact (proj2 (insertCell_without_anchor
                  (notebook [cell 1 "scala" false [] false] (Some 9)) above handler)
           (or_intror (ex_intro _ 9 (conj eq_refl eq_refl)))).
Defined.

End NotebookExamples.
